(** * uavmvs: guidance-volume sampling and trajectory evaluation

    A shallow embedding of the two programs of the repository:

    - the guidance-volume sampler ([Module Sampler]): bounding box of the
      airspace mesh, height-map rasterisation, ground-level estimate and
      normalisation, enumeration of the sample voxels, and the per-voxel
      image store;
    - the trajectory evaluator: the host loop of [main] that appends one
      direction per visible (camera, point) pair to a bounded per-point
      row store ([Module Evaluate]; the build leaves this loop out), the
      same accumulation on the device as the specification states it
      ([Module Kernel]; the kernel is not part of the sources), and the
      export of the per-point quality value.

    Conventions of the model.

    - A C++ [float] is the rational it stands for ([Q]).  The arithmetic
      of the sampler rounds every result to binary32 ([round32]: to the
      nearest number of 24 significant bits, ties to even, the subnormal
      numbers included): [fadd], [fsub], [fmul], [fdiv] and the
      conversion of an [int] to [float].  The comparisons, [std::max],
      [std::min], [std::abs] and the float-to-int truncation are exact on
      floats.  The host loop of the evaluator and the export formula are
      written on the exact values.
    - NaN and the infinities are not values of the model; the one
      infinite constant of the source ([ray.tmax = inf]) is an explicit
      constructor.  A result beyond [FLT_MAX] stands for the infinity the
      machine stores.  Where the sampler divides and converts what it
      computes from the quotient to [int], a zero divisor or a dividend
      beyond [FLT_MAX] makes the conversion undefined ([quotient]);
      elsewhere a division by zero yields 0 (as in [Q]).
    - [int], [uint] and [std::size_t] are [Z]; the 32-bit wrap-around of
      [uint] arithmetic is written out where the source computes with it.
    - [assert] is enabled: a failed assertion ends the run.  A float-to-int
      conversion out of the range of [int] is undefined behaviour; the
      model ends the run there and follows it no further.
    - Buffers are lists indexed from 0 and updated in place; a read outside
      a buffer yields 0 and a write outside it changes nothing (both are
      undefined behaviour in the source).
    - Loops marked [omp parallel for] run their iterations in index
      order: every iteration writes cells of its own index only. *)

From Stdlib Require Import ZArith QArith Qround Qabs Qminmax Qpower Lia Lqa.
From Stdlib Require Import List Bool.
From stdpp Require Import base option list strings gmap.

Local Open Scope Z_scope.

(** ** Numbers *)

Module Float.

Definition float : Type := Q.

(** [a < b], [a <= b], [a == b] and [a != b] on floats. *)
Definition ltb (a b : float) : bool := negb (Qle_bool b a).
Definition leb (a b : float) : bool := Qle_bool a b.
Definition eqb (a b : float) : bool := Qeq_bool a b.
Definition neqb (a b : float) : bool := negb (Qeq_bool a b).

(** [std::numeric_limits<float>::max()] and [::lowest()]. *)
Definition FLT_MAX : float := inject_Z ((2 ^ 24 - 1) * 2 ^ 104).
Definition lowest : float := (- FLT_MAX)%Q.

(** [std::max(a, b)] is [(a < b) ? b : a]; [std::min(a, b)] is
    [(b < a) ? b : a]. *)
Definition std_max (a b : float) : float := if ltb a b then b else a.
Definition std_min (a b : float) : float := if ltb b a then b else a.

(** [std::abs] on a float. *)
Definition std_abs (a : float) : float := Qabs a.

(** *** Rounding to binary32 *)

(** [floor(log2 q)] for a positive [q]. *)
Definition ilog2 (q : Q) : Z :=
  if Qle_bool 1 q then Z.log2 (Qfloor q)
  else - Z.log2_up (Qceiling (/ q)).

(** The exponent of the unit in the last place of the binary32 numbers
    next to a positive [q]: 24 significant bits, and no exponent below
    -149 (the subnormal numbers). *)
Definition ulp_exp (q : Q) : Z := Z.max (ilog2 q - 23) (-149).

(** The nearest integer, ties to even. *)
Definition rne (m : Q) : Z :=
  let f := Qfloor m in
  match (m - inject_Z f ?= 1 # 2)%Q with
  | Lt => f
  | Gt => f + 1
  | Eq => if Z.even f then f else f + 1
  end.

Definition round_pos (q : Q) : Q :=
  if Qle_bool q 0 then 0%Q
  else
    let e := ulp_exp q in
    Qred (inject_Z (rne (q / 2 ^ e)) * 2 ^ e)%Q.

(** The binary32 number nearest to [q], ties to even: what a float
    operation stores of its exact result [q].  A value beyond [FLT_MAX]
    stands for the infinity the machine stores. *)
Definition round32 (q : Q) : float :=
  if Qle_bool 0 q then round_pos q else Qred (- round_pos (- q))%Q.

(** [a + b], [a - b], [a * b] and [a / b] on floats. *)
Definition fadd (a b : float) : float := round32 (a + b)%Q.
Definition fsub (a b : float) : float := round32 (a - b)%Q.
Definition fmul (a b : float) : float := round32 (a * b)%Q.
Definition fdiv (a b : float) : float := round32 (a / b)%Q.

(** Conversion of an [int] to [float]. *)
Definition of_int (z : Z) : float := round32 (inject_Z z).

(** Truncation toward zero, the value of a float-to-int conversion. *)
Definition trunc (q : float) : Z := Z.quot (Qnum q) (Zpos (Qden q)).

Definition INT_MIN : Z := - 2 ^ 31.
Definition INT_MAX : Z := 2 ^ 31 - 1.

(** [int x = q;] -- [None] when the truncated value does not fit an
    [int] (undefined behaviour in C++). *)
Definition to_int (q : float) : option Z :=
  let t := trunc q in
  if (INT_MIN <=? t) && (t <=? INT_MAX) then Some t else None.

(** A 32-bit unsigned value. *)
Definition uint32 (z : Z) : Z := z mod 2 ^ 32.

End Float.

Import Float.

(** ** Vectors *)

(** [math::Vec3f] / [cacc::Vec3f]; [v[0]], [v[1]], [v[2]] are [c0], [c1],
    [c2]. *)
Record Vec3f : Type := mkVec3f { c0 : float; c1 : float; c2 : float }.

(** [cacc::Vec2f]. *)
Record Vec2f : Type := mkVec2f { d0 : float; d1 : float }.

Definition vsub (a b : Vec3f) : Vec3f :=
  mkVec3f (c0 a - c0 b)%Q (c1 a - c1 b)%Q (c2 a - c2 b)%Q.
Definition vadd (a b : Vec3f) : Vec3f :=
  mkVec3f (c0 a + c0 b)%Q (c1 a + c1 b)%Q (c2 a + c2 b)%Q.
Definition vscale (a : Vec3f) (s : float) : Vec3f :=
  mkVec3f (c0 a * s)%Q (c1 a * s)%Q (c2 a * s)%Q.
Definition vdiv (a : Vec3f) (s : float) : Vec3f :=
  mkVec3f (c0 a / s)%Q (c1 a / s)%Q (c2 a / s)%Q.

(** Component-wise rational equality of vectors. *)
Definition veq (a b : Vec3f) : Prop :=
  (c0 a == c0 b)%Q /\ (c1 a == c1 b)%Q /\ (c2 a == c2 b)%Q.

(** ** Runs that can stop early *)

(** Why a run stopped: a failed [assert], or undefined behaviour (an
    out-of-range float-to-int conversion). *)
Inductive failure : Type :=
| AssertionFailed
| UndefinedBehaviour.

Inductive result (A : Type) : Type :=
| Ok (a : A)
| Stop (f : failure).
Arguments Ok {A} a.
Arguments Stop {A} f.

Definition bind {A B : Type} (r : result A) (k : A -> result B) : result B :=
  match r with
  | Ok a => k a
  | Stop f => Stop f
  end.

Notation "'let*' x ':=' r 'in' k" := (bind r (fun x => k))
  (at level 10, x name, r at level 100, k at level 200).

(** [assert(b)]. *)
Definition assert (b : bool) : result unit :=
  if b then Ok tt else Stop AssertionFailed.

(** [int x = q;]. *)
Definition int_of_float (q : float) : result Z :=
  match to_int q with
  | Some z => Ok z
  | None => Stop UndefinedBehaviour
  end.

(** [a / b] where the sampler converts what it computes from the
    quotient to [int] in the same statement.  With a divisor that is
    zero, or a dividend beyond [FLT_MAX] (an infinity on the machine),
    the machine computes an infinity or a NaN, and the conversion that
    follows is undefined. *)
Definition quotient (a b : float) : result float :=
  if eqb b 0%Q || ltb FLT_MAX (std_abs a) then Stop UndefinedBehaviour
  else Ok (fdiv a b).

(** ** The guidance-volume sampler *)

Module Sampler.

(** The numeric options of [struct Arguments]. *)
Record Arguments : Type := mkArguments {
  resolution : float;
  max_distance : float;
  min_altitude : float;
  max_altitude : float
}.

(** [parse_args] before any option is read. *)
Definition default_arguments : Arguments :=
  mkArguments 1%Q 80%Q 0%Q 100%Q.

(** *** Bounding box *)

Record AABB : Type := mkAABB { aabb_min : Vec3f; aabb_max : Vec3f }.

(** Modelled from the spec: [acc::calculate_aabb], [acc::valid] and
    [acc::volume] (acc/primitives.h is not part of the sources): the
    axis-aligned bounding box of the vertices, the invariant
    [min[i] <= max[i]] on every axis, and the product of the three
    extents.  The box of no vertex at all has [min] above [max]. *)
Definition extend (b : AABB) (v : Vec3f) : AABB :=
  mkAABB
    (mkVec3f (std_min (c0 (aabb_min b)) (c0 v))
             (std_min (c1 (aabb_min b)) (c1 v))
             (std_min (c2 (aabb_min b)) (c2 v)))
    (mkVec3f (std_max (c0 (aabb_max b)) (c0 v))
             (std_max (c1 (aabb_max b)) (c1 v))
             (std_max (c2 (aabb_max b)) (c2 v))).

Definition empty_aabb : AABB :=
  mkAABB (mkVec3f FLT_MAX FLT_MAX FLT_MAX) (mkVec3f lowest lowest lowest).

Definition calculate_aabb (verts : list Vec3f) : AABB :=
  fold_left extend verts empty_aabb.

Definition valid (b : AABB) : bool :=
  leb (c0 (aabb_min b)) (c0 (aabb_max b))
  && leb (c1 (aabb_min b)) (c1 (aabb_max b))
  && leb (c2 (aabb_min b)) (c2 (aabb_max b)).

Definition volume (b : AABB) : float :=
  fmul (fmul (fsub (c0 (aabb_max b)) (c0 (aabb_min b)))
             (fsub (c1 (aabb_max b)) (c1 (aabb_min b))))
       (fsub (c2 (aabb_max b)) (c2 (aabb_min b))).

(** *** Grid dimensions *)

(** [int width = (aabb.max[0] - aabb.min[0]) / args.resolution + 1.0f;]
    and the two lines after it. *)
Definition grid_width (aabb : AABB) (args : Arguments) : result Z :=
  let* q :=
    quotient (fsub (c0 (aabb_max aabb)) (c0 (aabb_min aabb)))
             (resolution args) in
  int_of_float (fadd q 1%Q).

Definition grid_height (aabb : AABB) (args : Arguments) : result Z :=
  let* q :=
    quotient (fsub (c1 (aabb_max aabb)) (c1 (aabb_min aabb)))
             (resolution args) in
  int_of_float (fadd q 1%Q).

Definition grid_depth (args : Arguments) : result Z :=
  let* q := quotient (max_altitude args) (resolution args) in
  int_of_float (fadd q 1%Q).

(** *** Height map *)

(** Modelled from the spec: [mve::FloatImage] with one channel
    (mve/image.h is not part of the sources): a contiguous buffer of
    [width * height] values, pixel [(x, y)] at index [x + y * width]. *)
Record FloatImage : Type := mkFloatImage {
  im_width : Z;
  im_height : Z;
  im_data : list float
}.

Definition create (w h : Z) : FloatImage :=
  mkFloatImage w h (replicate (Z.to_nat (w * h)) 0%Q).

Definition fill (im : FloatImage) (v : float) : FloatImage :=
  mkFloatImage (im_width im) (im_height im)
               (replicate (length (im_data im)) v).

Definition get_value_amount (im : FloatImage) : Z :=
  im_width im * im_height im.

(** [im->at(i)] read and written. *)
Definition at_ (im : FloatImage) (i : Z) : float :=
  default 0%Q (im_data im !! Z.to_nat i).

Definition set_at (im : FloatImage) (i : Z) (v : float) : FloatImage :=
  mkFloatImage (im_width im) (im_height im)
               (<[Z.to_nat i := v]> (im_data im)).

(** [im->at(x, y, 0)] read and written. *)
Definition pixel_index (im : FloatImage) (x y : Z) : Z :=
  x + y * im_width im.

Definition at_xy (im : FloatImage) (x y : Z) : float :=
  at_ im (pixel_index im x y).

Definition set_at_xy (im : FloatImage) (x y : Z) (v : float) : FloatImage :=
  set_at im (pixel_index im x y) v.

(** The cell a vertex falls into: the two float-to-int conversions of
    the rasterisation loop, each followed by its range assertion. *)
Definition cell_x (aabb : AABB) (args : Arguments) (width : Z)
    (vertex : Vec3f) : result Z :=
  let* q :=
    quotient (fsub (c0 vertex) (c0 (aabb_min aabb))) (resolution args) in
  let* x := int_of_float q in
  let* ok := assert ((0 <=? x) && (x <? width)) in
  Ok x.

Definition cell_y (aabb : AABB) (args : Arguments) (height : Z)
    (vertex : Vec3f) : result Z :=
  let* q :=
    quotient (fsub (c1 vertex) (c1 (aabb_min aabb))) (resolution args) in
  let* y := int_of_float q in
  let* ok := assert ((0 <=? y) && (y <? height)) in
  Ok y.

(** One iteration of the rasterisation loop. *)
Definition rasterize_vertex (aabb : AABB) (args : Arguments)
    (width height : Z) (hmap : FloatImage) (vertex : Vec3f)
    : result FloatImage :=
  let* x := cell_x aabb args width vertex in
  let* y := cell_y aabb args height vertex in
  let height_ := c2 vertex in
  let z := at_xy hmap x y in
  if ltb height_ z then Ok hmap
  else Ok (set_at_xy hmap x y height_).

Fixpoint rasterize (aabb : AABB) (args : Arguments) (width height : Z)
    (hmap : FloatImage) (verts : list Vec3f) : result FloatImage :=
  match verts with
  | [] => Ok hmap
  | vertex :: rest =>
      let* hmap' := rasterize_vertex aabb args width height hmap vertex in
      rasterize aabb args width height hmap' rest
  end.

(** [hmap = create(width, height, 1); hmap->fill(lowest);] and the
    loop over the vertices. *)
Definition build_height_map (aabb : AABB) (args : Arguments)
    (width height : Z) (verts : list Vec3f) : result FloatImage :=
  rasterize aabb args width height (fill (create width height) lowest) verts.

(** The ground level: the least cell that is not [lowest], starting
    from the largest float. *)
Definition ground_step (hmap : FloatImage) (ground_level : float) (i : Z)
    : float :=
  let height := at_ hmap i in
  if neqb height lowest && ltb height ground_level then height
  else ground_level.

Definition estimate_ground_level (hmap : FloatImage) : float :=
  fold_left (ground_step hmap) (seqZ 0 (get_value_amount hmap)) FLT_MAX.

(** The normalisation loop. *)
Definition normalize_step (ground_level : float) (hmap : FloatImage) (i : Z)
    : FloatImage :=
  let height := at_ hmap i in
  set_at hmap i
    (if neqb height lowest then fsub height ground_level else 0%Q).

Definition normalize (hmap : FloatImage) (ground_level : float)
    : FloatImage :=
  fold_left (normalize_step ground_level)
            (seqZ 0 (get_value_amount hmap)) hmap.

(** *** Sample positions *)

(** A voxel coordinate, [math::Vector<std::uint32_t, 3>]. *)
Abbreviation Vec3u := (Z * Z * Z)%type.

(** The world height of layer [z]. *)
Definition layer_height (args : Arguments) (ground_level : float) (z : Z)
    : float :=
  fadd ground_level (fmul (of_int z) (resolution args)).

(** The least admissible height of column [(x, y)]. *)
Definition column_floor (hmap : FloatImage) (args : Arguments) (x y : Z)
    : float :=
  std_max (at_xy hmap x y) (min_altitude args).

(** The innermost loop: the layers of one column.  ([px] and [py] of the
    source are computed and never read.) *)
Definition column_samples (hmap : FloatImage) (args : Arguments)
    (ground_level : float) (depth : Z) (x y : Z) : list Vec3u :=
  let fz := column_floor hmap args x y in
  z ← seqZ 0 depth;
  let pz := layer_height args ground_level z in
  if ltb pz fz then [] else [(x, y, z)].

(** The three nested loops, in the order of the source. *)
Definition enumerate_samples (hmap : FloatImage) (args : Arguments)
    (ground_level : float) (width height depth : Z) : list Vec3u :=
  y ← seqZ 0 height;
  x ← seqZ 0 width;
  column_samples hmap args ground_level depth x y.

(** *** The volume and the run *)

(** Modelled from the spec: [Volume<std::uint32_t>] (geom/volume.h is
    not part of the sources): the grid dimensions, the box, and one
    image per occupied voxel; a voxel that was never assigned owns no
    image. *)
Record Volume : Type := mkVolume {
  vol_width : Z;
  vol_height : Z;
  vol_depth : Z;
  vol_min : Vec3f;
  vol_max : Vec3f;
  vol_images : gmap Vec3u FloatImage
}.

Definition Volume_create (w h d : Z) (bmin bmax : Vec3f) : Volume :=
  mkVolume w h d bmin bmax ∅.

(** [volume->at(pos) = image]. *)
Definition set_image (vol : Volume) (pos : Vec3u) (image : FloatImage)
    : Volume :=
  mkVolume (vol_width vol) (vol_height vol) (vol_depth vol)
           (vol_min vol) (vol_max vol) (<[pos := image]> (vol_images vol)).

(** The grids the run allocates, in order. *)
Inductive allocation : Type :=
| AllocHeightMap (w h : Z)
| AllocVolume (w h d : Z).

(** What a finished run leaves behind. *)
Record Output : Type := mkOutput {
  out_width : Z;
  out_height : Z;
  out_depth : Z;
  out_raw_hmap : FloatImage;
  out_ground_level : float;
  out_hmap : FloatImage;
  out_samples : list Vec3u;
  out_volume : Volume
}.

Section Run.

(** The two device kernels and the copy back to the host, as the
    128x45 image they leave for a voxel (eval/kernels.h is not part
    of the sources). *)
Variable sample_histogram : Vec3u -> FloatImage.

(** The sampling loop: one image per sample position. *)
Definition sample_volume (volume : Volume) (sample_positions : list Vec3u)
    : Volume :=
  fold_left (fun vol pos => set_image vol pos (sample_histogram pos))
            sample_positions volume.

(** [main], from the bounding box on: the allocations made, and the
    output or the reason of the stop. *)
Definition main (args : Arguments) (verts : list Vec3f)
    : list allocation * result Output :=
  let aabb := calculate_aabb verts in
  if negb (valid aabb && ltb 0%Q (volume aabb)) then
    ([], Stop AssertionFailed)
  else
    match
      (let* width := grid_width aabb args in
       let* height := grid_height aabb args in
       let* depth := grid_depth args in
       Ok (width, height, depth))
    with
    | Stop f => ([], Stop f)
    | Ok (width, height, depth) =>
        match build_height_map aabb args width height verts with
        | Stop f => ([AllocHeightMap width height], Stop f)
        | Ok raw =>
            let ground_level := estimate_ground_level raw in
            let hmap := normalize raw ground_level in
            let volume :=
              Volume_create width height depth
                            (aabb_min aabb) (aabb_max aabb) in
            let sample_positions :=
              enumerate_samples hmap args ground_level
                                width height depth in
            ([AllocHeightMap width height;
              AllocVolume width height depth],
             Ok (mkOutput width height depth raw ground_level hmap
                          sample_positions
                          (sample_volume volume sample_positions)))
        end
    end.

End Run.

End Sampler.

(** ** The trajectory evaluator *)

Module Evaluate.

(** *** Matrices, cameras and the point cloud *)

(** [math::Matrix3f], by rows. *)
Record Matrix3f : Type := mkMatrix3f { m3r0 : Vec3f; m3r1 : Vec3f; m3r2 : Vec3f }.

(** The first three rows of a [math::Matrix4f]: the rotation part and
    the translation column (the fourth row plays no part in
    [mult(v, 1.0f)]). *)
Record Matrix4f : Type := mkMatrix4f {
  m4r0 : Vec3f; m4t0 : float;
  m4r1 : Vec3f; m4t1 : float;
  m4r2 : Vec3f; m4t2 : float
}.

Definition dot (a b : Vec3f) : float :=
  (c0 a * c0 b + c1 a * c1 b + c2 a * c2 b)%Q.

(** [calib * v]. *)
Definition mat3_mul (m : Matrix3f) (v : Vec3f) : Vec3f :=
  mkVec3f (dot (m3r0 m) v) (dot (m3r1 m) v) (dot (m3r2 m) v).

(** [w2c.mult(v, w)]. *)
Definition mult (m : Matrix4f) (v : Vec3f) (w : float) : Vec3f :=
  mkVec3f (dot (m4r0 m) v + m4t0 m * w)%Q
          (dot (m4r1 m) v + m4t1 m * w)%Q
          (dot (m4r2 m) v + m4t2 m * w)%Q.

(** What the evaluator reads of a [mve::CameraInfo]: the results of
    [fill_calibration(_, width, height)], [fill_world_to_cam] and
    [fill_camera_pos]. *)
Record CameraInfo : Type := mkCameraInfo {
  fill_calibration : Z -> Z -> Matrix3f;
  fill_world_to_cam : Matrix4f;
  fill_camera_pos : Vec3f
}.

(** [cacc::PointCloud<HOST>::Data]. *)
Record PointCloud : Type := mkPointCloud {
  vertices_ptr : list Vec3f;
  normals_ptr : list Vec3f
}.

Definition num_vertices (cloud : PointCloud) : Z :=
  Z.of_nat (length (vertices_ptr cloud)).

Definition vertex_at (cloud : PointCloud) (i : Z) : Vec3f :=
  default (mkVec3f 0%Q 0%Q 0%Q) (vertices_ptr cloud !! Z.to_nat i).

(** *** Rays and the intersection test *)

(** The upper end of a ray: a float, or [inf]. *)
Inductive bound : Type :=
| finite (t : float)
| inf.

Definition within (t : float) (b : bound) : bool :=
  match b with
  | finite m => leb t m
  | inf => true
  end.

(** [acc::Ray<math::Vec3f>]. *)
Record Ray : Type := mkRay {
  origin : Vec3f;
  dir : Vec3f;
  tmin : float;
  tmax : bound
}.

Record Triangle : Type := mkTriangle { ta : Vec3f; tb : Vec3f; tc : Vec3f }.

Definition cross (a b : Vec3f) : Vec3f :=
  mkVec3f (c1 a * c2 b - c2 a * c1 b)%Q
          (c2 a * c0 b - c0 a * c2 b)%Q
          (c0 a * c1 b - c1 a * c0 b)%Q.

(** Modelled from the spec: the ray-intersection test of the
    acceleration structure ([acc::BVHTree::intersect]; acc/bvh_tree.h is
    not part of the sources).  The tree stands for the triangles it was
    built from; [hit_parameter o d tri] is the parameter [t] at which
    the line [o + t * d] crosses the triangle (none when it misses the
    triangle or runs parallel to its plane), and [intersect] holds when
    some triangle is crossed at a parameter within [tmin, tmax]. *)
Definition hit_parameter (o d : Vec3f) (tri : Triangle) : option float :=
  let e1 := vsub (tb tri) (ta tri) in
  let e2 := vsub (tc tri) (ta tri) in
  let p := cross d e2 in
  let det := dot e1 p in
  if eqb det 0%Q then None
  else
    let s := vsub o (ta tri) in
    let u := (dot s p / det)%Q in
    let q := cross s e1 in
    let v := (dot d q / det)%Q in
    if ltb u 0%Q || ltb v 0%Q || ltb 1%Q (u + v)%Q then None
    else Some (dot e2 q / det)%Q.

Abbreviation BVHTree := (list Triangle).

Definition hits (ray : Ray) (tri : Triangle) : bool :=
  match hit_parameter (origin ray) (dir ray) tri with
  | Some t => leb (tmin ray) t && within t (tmax ray)
  | None => false
  end.

Definition intersect (bvh_tree : BVHTree) (ray : Ray) : bool :=
  existsb (hits ray) bvh_tree.

(** *** The per-point row store *)

(** Modelled from the spec: [cacc::VectorArray<HOST, cacc::Vec2f>::Data]
    (cacc/vector_array.h is not part of the sources): [max_rows] rows of
    [pitch] bytes each, one column per point, and the number of rows
    used in each column. *)
Record VectorArrayData : Type := mkVectorArrayData {
  num_cols : Z;
  max_rows : Z;
  pitch : Z;
  num_rows_ptr : list Z;
  data_ptr : list Vec2f
}.

(** [sizeof(cacc::Vec2f)]. *)
Definition sizeof_Vec2f : Z := 8.

(** A fresh store: no row used, rows packed without padding. *)
Definition VectorArray_create (cols rows : Z) : VectorArrayData :=
  mkVectorArrayData cols rows (cols * sizeof_Vec2f)
    (replicate (Z.to_nat cols) 0)
    (replicate (Z.to_nat (rows * cols)) (mkVec2f 0%Q 0%Q)).

Definition stride_of (dir_hist : VectorArrayData) : Z :=
  pitch dir_hist / sizeof_Vec2f.

Definition num_rows_at (dir_hist : VectorArrayData) (i : Z) : Z :=
  default 0 (num_rows_ptr dir_hist !! Z.to_nat i).

Definition set_num_rows (dir_hist : VectorArrayData) (i : Z) (n : Z)
    : VectorArrayData :=
  mkVectorArrayData (num_cols dir_hist) (max_rows dir_hist) (pitch dir_hist)
    (<[Z.to_nat i := n]> (num_rows_ptr dir_hist)) (data_ptr dir_hist).

Definition data_at (dir_hist : VectorArrayData) (k : Z) : Vec2f :=
  default (mkVec2f 0%Q 0%Q) (data_ptr dir_hist !! Z.to_nat k).

Definition set_data (dir_hist : VectorArrayData) (k : Z) (v : Vec2f)
    : VectorArrayData :=
  mkVectorArrayData (num_cols dir_hist) (max_rows dir_hist) (pitch dir_hist)
    (num_rows_ptr dir_hist) (<[Z.to_nat k := v]> (data_ptr dir_hist)).

(** The slot of row [row] of point [i]: [row * stride + i], the product
    computed in [uint]. *)
Definition slot (dir_hist : VectorArrayData) (row i : Z) : Z :=
  uint32 (row * stride_of dir_hist) + i.

(** *** The accumulation loop *)

(** The loop is the host loop of [main] (the block under [#if CPU],
    which the build leaves out in favour of the device kernel
    [populate_histogram]; the kernel is not part of the sources).  Its
    line [int const stride = dir_hist.pitch / sizeof(cacc::Vec2f] lacks
    the closing parenthesis and the semicolon; it is read as the export
    block writes the same line. *)

(** How the body of the loop over the points ends for one point. *)
Inductive verdict : Type :=
| OutOfBounds
| Occluded
| Full
| Appended.

(** [uint max_cameras = 20;], [int width = 1920; int height = 1080;]. *)
Definition max_cameras : Z := 20.
Definition width : Z := 1920.
Definition height : Z := 1080.

Section Accumulate.

(** [math::Vec3f::norm], [atan2] and [acos]. *)
Variable norm : Vec3f -> float.
Variable atan2 : float -> float -> float.
Variable acos : float -> float.

(** The projection [p] of a point into the image of a camera. *)
Definition project (calib : Matrix3f) (w2c : Matrix4f) (v : Vec3f)
    : Vec2f :=
  let pt := mat3_mul calib (mult w2c v 1%Q) in
  mkVec2f (c0 pt / c2 pt - (1 # 2))%Q (c1 pt / c2 pt - (1 # 2))%Q.

(** The guard [p[0] < 0 || width <= p[0] || p[1] < 0 || height <= p[1]]. *)
Definition out_of_bounds (p : Vec2f) : bool :=
  ltb (d0 p) 0%Q || leb (of_int width) (d0 p)
  || ltb (d1 p) 0%Q || leb (of_int height) (d1 p).

(** The occlusion ray of a point toward the camera position. *)
Definition occlusion_ray (view_pos v : Vec3f) : Ray :=
  let v2c := vsub view_pos v in
  let n := norm v2c in
  mkRay (vadd v (vscale v2c (1 # 100)%Q)) (vdiv v2c n) 0%Q inf.

(** The body of the loop over the points, for point [i]. *)
Definition visit_point (calib : Matrix3f) (w2c : Matrix4f)
    (view_pos : Vec3f) (bvh_tree : BVHTree) (cloud : PointCloud)
    (dir_hist : VectorArrayData) (i : Z) : verdict * VectorArrayData :=
  let v := vertex_at cloud i in
  let p := project calib w2c v in
  if out_of_bounds p then (OutOfBounds, dir_hist)
  else
    let ray := occlusion_ray view_pos v in
    if intersect bvh_tree ray then (Occluded, dir_hist)
    else
      let row := num_rows_at dir_hist i in
      if max_rows dir_hist <=? row then (Full, dir_hist)
      else
        let dir_hist1 := set_num_rows dir_hist i row in
        let direction :=
          mkVec2f (atan2 (c1 (dir ray)) (c0 (dir ray)))
                  (acos (c2 (dir ray))) in
        let dir_hist2 := set_data dir_hist1 (slot dir_hist1 row i) direction in
        (Appended,
         set_num_rows dir_hist2 i (uint32 (num_rows_at dir_hist2 i + 1))).

(** The loop over the points for one camera. *)
Definition visit_camera (bvh_tree : BVHTree) (cloud : PointCloud)
    (dir_hist : VectorArrayData) (cam : CameraInfo) : VectorArrayData :=
  let calib := fill_calibration cam width height in
  let w2c := fill_world_to_cam cam in
  let view_pos := fill_camera_pos cam in
  fold_left
    (fun dh i => snd (visit_point calib w2c view_pos bvh_tree cloud dh i))
    (seqZ 0 (num_vertices cloud)) dir_hist.

(** The loop over the trajectory. *)
Definition accumulate (bvh_tree : BVHTree) (cloud : PointCloud)
    (trajectory : list CameraInfo) (dir_hist : VectorArrayData)
    : VectorArrayData :=
  fold_left (visit_camera bvh_tree cloud) trajectory dir_hist.

End Accumulate.

(** *** Export *)

(** The value attached to point [i]. *)
Definition export_value (dir_hist : VectorArrayData) (i : Z) : float :=
  let stride := stride_of dir_hist in
  let mean := data_at dir_hist (uint32 ((max_cameras - 2) * stride) + i) in
  let eigen := data_at dir_hist (uint32 ((max_cameras - 1) * stride) + i) in
  let lambda := std_max (std_abs (d0 eigen)) (std_abs (d1 eigen)) in
  (d0 mean * (10 * std_max 0 (std_min lambda (1 / 10))))%Q.

(** The export block of [main]: nothing without an export path,
    otherwise one value per point. *)
Definition export_values (export_cloud : String.string)
    (dir_hist : VectorArrayData) (n_vertices : Z) : option (list float) :=
  match export_cloud with
  | String.EmptyString => None
  | String.String _ _ => Some (export_value dir_hist <$> seqZ 0 n_vertices)
  end.

End Evaluate.

(** ** The accumulation on the device *)

Module Kernel.

Import Evaluate.

Section PopulateHistogram.

(** What the kernel computes for a camera and a point, and the
    specification leaves open: whether the projection of the point lies
    within the image, the origin of the occlusion ray (the point moved by
    a small offset off the surface), and the azimuth and elevation stored
    for an observation from a camera position. *)
Variable inside_image : CameraInfo -> Vec3f -> bool.
Variable offset_origin : Vec3f -> Vec3f -> Vec3f.
Variable direction : Vec3f -> Vec3f -> Vec2f.

(** Modelled from the spec: the occlusion ray of the kernel
    [populate_histogram] (kernels.h is not part of the sources), cast
    "from a small offset outside the surface toward the camera" and
    tested up to the camera: it starts at the offset origin and ends at
    the camera position, which it reaches at parameter 1. *)
Definition occlusion_ray (view_pos v : Vec3f) : Ray :=
  let o := offset_origin v view_pos in
  mkRay o (vsub view_pos o) 0%Q (finite 1%Q).

(** Modelled from the spec: the kernel [populate_histogram] for the
    point of one thread (kernels.h is not part of the sources), as
    section 4.4 of the specification states it: a point whose projection
    is outside the image is discarded; otherwise the occlusion ray is
    cast, and a point whose ray meets a triangle before the camera is
    discarded; otherwise the direction is appended to the rows of the
    point if room remains, and dropped if the rows are all used. *)
Definition populate_histogram (cam : CameraInfo) (bvh_tree : BVHTree)
    (cloud : PointCloud) (dir_hist : VectorArrayData) (i : Z)
    : verdict * VectorArrayData :=
  let v := vertex_at cloud i in
  let view_pos := fill_camera_pos cam in
  if negb (inside_image cam v) then (OutOfBounds, dir_hist)
  else if intersect bvh_tree (occlusion_ray view_pos v) then
    (Occluded, dir_hist)
  else
    let row := num_rows_at dir_hist i in
    if row <? max_rows dir_hist then
      (Appended,
       set_num_rows
         (set_data dir_hist (slot dir_hist row i) (direction view_pos v))
         i (row + 1))
    else (Full, dir_hist).

(** The launch of the kernel for one camera (lines 225-229 of [main]):
    one thread per point of the cloud. *)
Definition launch (bvh_tree : BVHTree) (cloud : PointCloud)
    (dir_hist : VectorArrayData) (cam : CameraInfo) : VectorArrayData :=
  fold_left
    (fun dh i => snd (populate_histogram cam bvh_tree cloud dh i))
    (seqZ 0 (num_vertices cloud)) dir_hist.

(** The loop over the trajectory (lines 220-230 of [main]). *)
Definition accumulate (bvh_tree : BVHTree) (cloud : PointCloud)
    (trajectory : list CameraInfo) (dir_hist : VectorArrayData)
    : VectorArrayData :=
  fold_left (launch bvh_tree cloud) trajectory dir_hist.

End PopulateHistogram.

End Kernel.

(** ** Notions the statements use *)

Module SamplerSpec.

Import Sampler.

(** The dimension of a planar axis as the specification states it:
    [ceil((max - min) / resolution) + 1]. *)
Definition spec_dimension (lo hi res : float) : Z :=
  Qceiling ((hi - lo) / res) + 1.

(** The dimension with the floor in place of the ceiling:
    [floor((max - min) / resolution) + 1]. *)
Definition floor_dimension (lo hi res : float) : Z :=
  Qfloor ((hi - lo) / res) + 1.

(** The dimension [n] of an axis from [lo] to [hi]: the truncation of
    [q + 1.0f], where [q] is the quotient [(hi - lo) / res] as the
    program computes it.  This is [floor(q) + 1] when the sum is exact,
    [floor((hi - lo) / res) + 1] when the quotient is exact as well, and
    it lies between [floor(q) + 1] and [ceil(q) + 1] as long as [q] is
    below [2^24]. *)
Definition dimension_of (lo hi res : float) (n : Z) : Prop :=
  let q := fdiv (fsub hi lo) res in
  n = trunc (fadd q 1%Q)
  /\ ((fadd q 1 == q + 1)%Q -> n = Qfloor q + 1)
  /\ ((q == (hi - lo) / res)%Q -> (fadd q 1 == q + 1)%Q ->
      n = floor_dimension lo hi res)
  /\ ((q <= inject_Z (2 ^ 24 - 1))%Q ->
      Qfloor q + 1 <= n <= Qceiling q + 1).

(** The first layer of a column that is not skipped, when the
    resolution is positive: [ceil((fz - ground_level) / resolution)],
    kept within [0 .. depth]. *)
Definition first_layer (fz ground_level res : float) (depth : Z) : Z :=
  Z.min depth (Z.max 0 (Qceiling ((fz - ground_level) / res))).

(** The number of layers of a grid of [depth] layers whose world height,
    as the loop computes it, is below [fz]. *)
Definition skipped_layers (args : Arguments) (ground_level fz : float)
    (depth : Z) : Z :=
  Z.of_nat
    (length
       (List.filter (fun z => ltb (layer_height args ground_level z) fz)
                    (seqZ 0 depth))).

(** Whether a voxel lies in column [(x, y)]. *)
Definition in_column (x y : Z) (p : Vec3u) : bool :=
  (p.1.1 =? x) && (p.1.2 =? y).

(** The number of voxels per column as the specification states it:
    [depth - floor((h - ground_level) / resolution)], not below 0. *)
Definition spec_column_count (depth : Z) (h ground_level res : float)
    : Z :=
  Z.max 0 (depth - Qfloor ((h - ground_level) / res)).

(** Whether a vertex falls into cell [(x, y)]. *)
Definition in_cell (aabb : AABB) (args : Arguments) (w h x y : Z)
    (vertex : Vec3f) : bool :=
  match cell_x aabb args w vertex, cell_y aabb args h vertex with
  | Ok x', Ok y' => (x' =? x) && (y' =? y)
  | _, _ => false
  end.

(** The heights of the vertices that fall into cell [(x, y)], in the
    order of the mesh. *)
Definition cell_heights (aabb : AABB) (args : Arguments) (w h x y : Z)
    (verts : list Vec3f) : list float :=
  c2 <$> List.filter (in_cell aabb args w h x y) verts.

(** What one vertex of height [z] does to the value [acc] of its cell. *)
Definition raise (acc z : float) : float := if ltb z acc then acc else z.

(** [m] is a greatest element of [l]. *)
Definition is_maximum (m : float) (l : list float) : Prop :=
  m ∈ l /\ forall z, z ∈ l -> (z <= m)%Q.

(** The value the normalisation loop writes over [height]. *)
Definition normalized (ground_level height : float) : float :=
  if neqb height lowest then fsub height ground_level else 0%Q.

End SamplerSpec.

Module EvaluateSpec.

Import Evaluate.

(** Every column uses between 0 and [max_rows] rows. *)
Definition bounded (dir_hist : VectorArrayData) : Prop :=
  Forall (fun r => 0 <= r <= max_rows dir_hist) (num_rows_ptr dir_hist).

(** [clamp(x, lo, hi)] and the largest magnitude of the components of a
    row, as the specification names them. *)
Definition clamp (x lo hi : float) : float :=
  if ltb x lo then lo else if ltb hi x then hi else x.

Definition largest_magnitude (row : Vec2f) : float :=
  Qmax (Qabs (d0 row)) (Qabs (d1 row)).

(** Row [row] of point [i]. *)
Definition row_at (dir_hist : VectorArrayData) (row i : Z) : Vec2f :=
  data_at dir_hist (slot dir_hist row i).

End EvaluateSpec.

Module KernelSpec.

Import Evaluate Kernel.

(** The ray meets a triangle of the mesh between its origin and the
    camera position: at a parameter from 0 to 1. *)
Definition blocked (bvh_tree : BVHTree) (ray : Ray) : Prop :=
  exists tri t, tri ∈ bvh_tree
    /\ hit_parameter (origin ray) (dir ray) tri = Some t
    /\ (0 <= t)%Q /\ (t <= 1)%Q.

(** Every triangle of the mesh that the line of the ray meets is met
    beyond the camera position. *)
Definition met_only_beyond (bvh_tree : BVHTree) (ray : Ray) : Prop :=
  forall tri t, tri ∈ bvh_tree ->
    hit_parameter (origin ray) (dir ray) tri = Some t -> (1 < t)%Q.

End KernelSpec.

(** ** Concrete inputs *)

Module Scenes.

Import Sampler SamplerSpec.

Local Open Scope Q_scope.

(** A stand-in for the kernels: an all-zero 128x45 image at every
    voxel. *)
Definition flat_histogram (pos : Vec3u) : FloatImage := create 128 45.

(** Two vertices spanning a box of 10.5 x 10.5 x 1, sampled at
    resolution 1 up to altitude 2. *)
Definition slab_mesh : list Vec3f :=
  [mkVec3f 0 0 0; mkVec3f (21 # 2) (21 # 2) 1].
Definition slab_args : Arguments := mkArguments 1 80 0 2.

(** Two vertices in one cell, the higher one at -5.5, sampled at
    resolution 1 up to altitude 10. *)
Definition pit_mesh : list Vec3f :=
  [mkVec3f 0 0 (-7); mkVec3f (1 # 2) (1 # 2) (- (11 # 2))].
Definition pit_args : Arguments := mkArguments 1 80 0 10.

(** Two vertices spanning a box of 1 x 1 x 1, sampled at the
    resolution 0.1f up to altitude 1. *)
Definition tenth_mesh : list Vec3f := [mkVec3f 0 0 0; mkVec3f 1 1 1].
Definition tenth_args : Arguments := mkArguments (round32 (1 # 10)) 80 0 1.

(** A flat height map of 2 x 2 cells at 0.3f, at the resolution
    0.1f. *)
Definition shelf_hmap : FloatImage := fill (create 2 2) (round32 (3 # 10)).
Definition shelf_args : Arguments := mkArguments (round32 (1 # 10)) 80 0 1.

(** A box of [2^24] x 1 x 1. *)
Definition wide_box : AABB :=
  mkAABB (mkVec3f 0 0 0) (mkVec3f (inject_Z (2 ^ 24)) 1 1).

(** A planar 10 x 10 square at height 5. *)
Definition planar_mesh : list Vec3f :=
  [mkVec3f 0 0 5; mkVec3f 10 0 5; mkVec3f 10 10 5; mkVec3f 0 10 5].
Definition planar_args : Arguments := mkArguments 1 80 0 10.

(** Whether a run finished, and the dimensions of its height map. *)
Definition finished (r : list allocation * result Output) : bool :=
  match snd r with
  | Ok _ => true
  | Stop _ => false
  end.

Definition hmap_dims (r : list allocation * result Output)
    : option (Z * Z) :=
  match snd r with
  | Ok o => Some (im_width (out_hmap o), im_height (out_hmap o))
  | Stop _ => None
  end.

(** The depth of a finished run, and the number of its sample
    positions in column [(x, y)]. *)
Definition depth_of (r : list allocation * result Output) : option Z :=
  match snd r with
  | Ok o => Some (out_depth o)
  | Stop _ => None
  end.

Definition column_count (r : list allocation * result Output) (x y : Z)
    : option Z :=
  match snd r with
  | Ok o =>
      Some (Z.of_nat (length (List.filter (in_column x y) (out_samples o))))
  | Stop _ => None
  end.

(** A cell of the height map of a finished run before normalisation. *)
Definition raw_cell (r : list allocation * result Output) (i : Z)
    : option float :=
  match snd r with
  | Ok o => Some (at_ (out_raw_hmap o) i)
  | Stop _ => None
  end.

(** Whether a voxel is among the sample positions of a finished run. *)
Definition sampled (r : list allocation * result Output) (p : Vec3u)
    : bool :=
  match snd r with
  | Ok o => bool_decide (p ∈ out_samples o)
  | Stop _ => false
  end.

(** Whether every cell of the height map of a finished run, before and
    after normalisation, has the given value, and whether its ground
    level has the given value. *)
Definition raw_flat_at (r : list allocation * result Output) (h : float)
    : bool :=
  match snd r with
  | Ok o => forallb (eqb h) (im_data (out_raw_hmap o))
  | Stop _ => false
  end.

Definition flat_at (r : list allocation * result Output) (h : float)
    : bool :=
  match snd r with
  | Ok o => forallb (eqb h) (im_data (out_hmap o))
  | Stop _ => false
  end.

Definition ground_level_is (r : list allocation * result Output)
    (g : float) : bool :=
  match snd r with
  | Ok o => eqb g (out_ground_level o)
  | Stop _ => false
  end.

End Scenes.

(** ** Concrete views *)

Module Views.

Import Evaluate.

Local Open Scope Q_scope.

(** A square root that is exact on the squares of rationals, and a
    norm that is exact on the vectors of the views below. *)
Definition sqrtf (q : float) : float :=
  Z.sqrt (Qnum q * Zpos (Qden q)) # Qden q.

Definition norm (v : Vec3f) : float := sqrtf (dot v v).

(** Stand-ins for [atan2] and [acos]: a stored row then shows the
    components of the direction it was computed from. *)
Definition atan2 (y x : float) : float := y.
Definition acos (x : float) : float := x.

(** A camera at [(0, 0, -10)] looking along the z axis, focal length
    1000 pixels, principal point at the centre of the 1920x1080 image. *)
Definition camera : CameraInfo :=
  mkCameraInfo
  (fun w h =>
     mkMatrix3f (mkVec3f 1000 0 (inject_Z w / 2))
                (mkVec3f 0 1000 (inject_Z h / 2))
                (mkVec3f 0 0 1))
  (mkMatrix4f (mkVec3f 1 0 0) 0 (mkVec3f 0 1 0) 0 (mkVec3f 0 0 1) 10)
  (mkVec3f 0 0 (-10)).

(** A cloud of one point, at the origin, facing the camera. *)
Definition cloud : PointCloud :=
  mkPointCloud [mkVec3f 0 0 0] [mkVec3f 0 0 (-1)].

(** A triangle across the z axis at [z = -20]: behind the camera, as
    seen from the point. *)
Definition far_triangle : Triangle :=
  mkTriangle (mkVec3f (-1) (-1) (-20)) (mkVec3f 1 (-1) (-20))
           (mkVec3f 0 1 (-20)).

(** A triangle across the z axis at [z = -5]: between the point and the
    camera. *)
Definition near_triangle : Triangle :=
  mkTriangle (mkVec3f (-1) (-1) (-5)) (mkVec3f 1 (-1) (-5))
           (mkVec3f 0 1 (-5)).

(** The store [main] creates for the cloud. *)
Definition fresh_store : VectorArrayData :=
  VectorArray_create (num_vertices cloud) max_cameras.

(** The body of the loop for the camera, the point and a mesh. *)
Definition visit (bvh_tree : BVHTree) (dir_hist : VectorArrayData)
    : verdict * VectorArrayData :=
  visit_point norm atan2 acos
            (fill_calibration camera width height)
            (fill_world_to_cam camera) (fill_camera_pos camera)
            bvh_tree cloud dir_hist 0.


(** An export path. *)
Definition export_path : String.string := "out.ply"%string.

(** The store of the cloud after a reduction that left the mean
    direction [(2, 0)] in row 18 and the estimate [(-1/20, 1/40)] in
    row 19. *)
Definition reduced_store : VectorArrayData :=
  set_data (set_data fresh_store 18 (mkVec2f 2 0))
         19 (mkVec2f (- (1 # 20)) (1 # 40)).

End Views.

Module KernelViews.

Import Evaluate.

Local Open Scope Q_scope.

(** A pinhole projection: the point lies in front of the camera and its
    pixel lies within the image of 1920 x 1080. *)
Definition inside_image (cam : CameraInfo) (v : Vec3f) : bool :=
  let pt := mat3_mul (fill_calibration cam width height)
                     (mult (fill_world_to_cam cam) v 1) in
  ltb 0 (c2 pt)
  && leb 0 (c0 pt) && ltb (c0 pt) (inject_Z width * c2 pt)
  && leb 0 (c1 pt) && ltb (c1 pt) (inject_Z height * c2 pt).

(** The ray starts one hundredth of the way to the camera. *)
Definition offset_origin (v view_pos : Vec3f) : Vec3f :=
  vadd v (vscale (vsub view_pos v) (1 # 100)).

(** A stand-in for the azimuth and the elevation: two components of the
    way to the camera. *)
Definition direction (view_pos v : Vec3f) : Vec2f :=
  mkVec2f (c0 (vsub view_pos v)) (c2 (vsub view_pos v)).

Definition populate (bvh_tree : BVHTree) (dir_hist : VectorArrayData)
    : verdict * VectorArrayData :=
  Kernel.populate_histogram inside_image offset_origin direction
    Views.camera bvh_tree Views.cloud dir_hist 0.

End KernelViews.

(** ** Launch sizes, loading and options *)

Module Setup.

Import Evaluate.
Import Stdlib.Strings.Ascii.

(** [uint divup(uint a, uint b)]: [a / b + (a % b != 0)], computed in
    [uint].  A zero [b] is a division by zero in the source. *)
Definition divup (a b : Z) : Z :=
  uint32 (a / b + (if a mod b =? 0 then 0 else 1)).

(** How a function that may end the process returns: with a value, by
    [std::exit(status)], or by throwing. *)
Inductive process (A : Type) : Type :=
| Returns (a : A)
| Exits (status : Z)
| Throws (what : string).
Arguments Returns {A} a.
Arguments Exits {A} status.
Arguments Throws {A} what.

Definition EXIT_FAILURE : Z := 1.

(** What the loaders read of a [mve::TriangleMesh] once
    [load_ply_mesh] has returned and [ensure_normals] has run. *)
Record TriangleMesh : Type := mkTriangleMesh {
  get_vertices : list Vec3f;
  get_vertex_normals : list Vec3f
}.

(** Modelled from the spec: [cacc::PointCloud<HOST>::create(n)]
    (cacc/point_cloud.h is not part of the sources): room for [n]
    positions and [n] normals. *)
Definition PointCloud_create (n : Z) : PointCloud :=
  mkPointCloud (replicate (Z.to_nat n) (mkVec3f 0%Q 0%Q 0%Q))
               (replicate (Z.to_nat n) (mkVec3f 0%Q 0%Q 0%Q)).

(** One iteration of the copy loop of [load_point_cloud]. *)
Definition copy_vertex (vertices normals : list Vec3f) (data : PointCloud)
    (i : nat) : PointCloud :=
  mkPointCloud
    (<[i := default (mkVec3f 0%Q 0%Q 0%Q) (vertices !! i)]>
       (vertices_ptr data))
    (<[i := default (mkVec3f 0%Q 0%Q 0%Q) (normals !! i)]>
       (normals_ptr data)).

(** [load_point_cloud]; the mesh is [None] when [load_ply_mesh]
    throws. *)
Definition load_point_cloud (loaded : option TriangleMesh)
    : process PointCloud :=
  match loaded with
  | None => Exits EXIT_FAILURE
  | Some mesh =>
      let vertices := get_vertices mesh in
      let normals := get_vertex_normals mesh in
      let ret := PointCloud_create (Z.of_nat (length vertices)) in
      Returns (fold_left (copy_vertex vertices normals)
                         (seq 0 (length vertices)) ret)
  end.

(** [load_scene_as_trajectory]; the scene is [None] when
    [mve::Scene::create] throws, and a view is [None] when it is
    [nullptr].  A view stands for the camera [get_camera] returns. *)
Definition add_view (trajectory : list CameraInfo)
    (view : option CameraInfo) : list CameraInfo :=
  match view with
  | None => trajectory
  | Some cam => trajectory ++ [cam]
  end.

Definition load_scene_as_trajectory
    (scene : option (list (option CameraInfo)))
    (trajectory : list CameraInfo) : process (list CameraInfo) :=
  match scene with
  | None => Exits EXIT_FAILURE
  | Some views => Returns (fold_left add_view views trajectory)
  end.

(** An option as [util::Arguments::next_option] hands it out: its short
    name, its long name and its argument. *)
Record ArgResult : Type := mkArgResult {
  sopt : Ascii.ascii;
  lopt : string;
  arg : string
}.

(** [get_nth_nonopt(n)]. *)
Definition get_nth_nonopt (nonopts : list string) (n : nat) : string :=
  default EmptyString (nonopts !! n).

(** [struct Arguments] of the evaluator. *)
Record EvaluateArguments : Type := mkEvaluateArguments {
  scene : string;
  proxy_mesh : string;
  proxy_cloud : string;
  export_cloud : string
}.

(** The [switch] of the option loop of the evaluator. *)
Definition evaluate_option (conf : process EvaluateArguments)
    (i : ArgResult) : process EvaluateArguments :=
  match conf with
  | Returns c =>
      if Ascii.eqb (sopt i) "e"%char then
        Returns (mkEvaluateArguments (scene c) (proxy_mesh c)
                                     (proxy_cloud c) (arg i))
      else Throws "Invalid option"%string
  | stopped => stopped
  end.

(** [parse_args] of the evaluator, once [args.parse] has accepted the
    command line: the positional arguments and the options in the order
    they were given. *)
Definition evaluate_parse_args (nonopts : list string)
    (options : list ArgResult) : process EvaluateArguments :=
  fold_left evaluate_option options
    (Returns (mkEvaluateArguments (get_nth_nonopt nonopts 0)
                                  (get_nth_nonopt nonopts 1)
                                  (get_nth_nonopt nonopts 2)
                                  EmptyString)).

(** The paths of [struct Arguments] of the sampler. *)
Record SamplerPaths : Type := mkSamplerPaths {
  s_proxy_mesh : string;
  s_proxy_cloud : string;
  s_airspace_mesh : string;
  s_ovolume : string
}.

Section SamplerOptions.

(** [i->get_arg<float>()] on the argument of an option. *)
Variable get_arg_float : string -> float.

(** The [switch] of the option loop of the sampler. *)
Definition sampler_option (conf : process Sampler.Arguments)
    (i : ArgResult) : process Sampler.Arguments :=
  match conf with
  | Returns c =>
      if Ascii.eqb (sopt i) "r"%char then
        Returns (Sampler.mkArguments
                   (get_arg_float (arg i)) (Sampler.max_distance c)
                   (Sampler.min_altitude c) (Sampler.max_altitude c))
      else if Ascii.eqb (sopt i) Ascii.zero then
        if String.eqb (lopt i) "max-distance"%string then
          Returns (Sampler.mkArguments
                     (Sampler.resolution c) (get_arg_float (arg i))
                     (Sampler.min_altitude c) (Sampler.max_altitude c))
        else if String.eqb (lopt i) "min-altitude"%string then
          Returns (Sampler.mkArguments
                     (Sampler.resolution c) (Sampler.max_distance c)
                     (get_arg_float (arg i)) (Sampler.max_altitude c))
        else if String.eqb (lopt i) "max-altitude"%string then
          Returns (Sampler.mkArguments
                     (Sampler.resolution c) (Sampler.max_distance c)
                     (Sampler.min_altitude c) (get_arg_float (arg i)))
        else Throws "Invalid option"%string
      else Throws "Invalid option"%string
  | stopped => stopped
  end.

(** [parse_args] of the sampler, once [args.parse] has accepted the
    command line. *)
Definition sampler_parse_args (nonopts : list string)
    (options : list ArgResult) : SamplerPaths * process Sampler.Arguments :=
  (mkSamplerPaths (get_nth_nonopt nonopts 0) (get_nth_nonopt nonopts 1)
                  (get_nth_nonopt nonopts 2) (get_nth_nonopt nonopts 3),
   fold_left sampler_option options (Returns Sampler.default_arguments)).

End SamplerOptions.

End Setup.

Module SetupSpec.

Import Setup.
Import Stdlib.Strings.Ascii.

(** The options the two programs know. *)
Definition is_export (o : ArgResult) : bool := Ascii.eqb (sopt o) "e"%char.

Definition is_resolution (o : ArgResult) : bool :=
  Ascii.eqb (sopt o) "r"%char.

Definition is_long (name : string) (o : ArgResult) : bool :=
  Ascii.eqb (sopt o) Ascii.zero && String.eqb (lopt o) name.

Definition recognised (o : ArgResult) : bool :=
  is_resolution o || is_long "max-distance" o || is_long "min-altitude" o
  || is_long "max-altitude" o.

(** The value of the last option that [sel] selects, or [dflt] when
    there is none. *)
Definition last_value {A : Type} (get : string -> A) (dflt : A)
    (sel : ArgResult -> bool) (options : list ArgResult) : A :=
  match last (List.filter sel options) with
  | Some o => get (arg o)
  | None => dflt
  end.

(** The arguments [parse_args] of the sampler returns when it knows
    every option. *)
Definition chosen_arguments (get_arg_float : string -> float)
    (options : list ArgResult) : Sampler.Arguments :=
  Sampler.mkArguments
    (last_value get_arg_float 1%Q is_resolution options)
    (last_value get_arg_float 80%Q (is_long "max-distance") options)
    (last_value get_arg_float 0%Q (is_long "min-altitude") options)
    (last_value get_arg_float 100%Q (is_long "max-altitude") options).

End SetupSpec.

Module SamplerMoreSpec.

Import Sampler.

(** The box holds a vertex in x and y. *)
Definition inside_footprint (aabb : AABB) (v : Vec3f) : Prop :=
  (c0 (aabb_min aabb) <= c0 v)%Q /\ (c0 v <= c0 (aabb_max aabb))%Q
  /\ (c1 (aabb_min aabb) <= c1 v)%Q /\ (c1 v <= c1 (aabb_max aabb))%Q.

End SamplerMoreSpec.

Module EvaluateMoreSpec.

Import Evaluate EvaluateSpec.

(** A store for [n] points whose slots [row * stride + i] are all
    distinct, in the buffer, and computed without wrap-around. *)
Definition well_formed (dir_hist : VectorArrayData) (n : Z) : Prop :=
  0 <= n <= stride_of dir_hist
  /\ 0 <= max_rows dir_hist < 2 ^ 32
  /\ max_rows dir_hist * stride_of dir_hist < 2 ^ 32
  /\ (Z.to_nat n <= length (num_rows_ptr dir_hist))%nat
  /\ (Z.to_nat (max_rows dir_hist * stride_of dir_hist)
      <= length (data_ptr dir_hist))%nat
  /\ bounded dir_hist.

Section Rows.

Variable norm : Vec3f -> float.
Variable atan2 : float -> float -> float.
Variable acos : float -> float.
Variable bvh_tree : BVHTree.
Variable cloud : PointCloud.

(** Whether a camera sees point [i]: the projection is inside the image
    and the occlusion ray meets no triangle. *)
Definition sees (cam : CameraInfo) (i : Z) : bool :=
  let v := vertex_at cloud i in
  negb (out_of_bounds
          (project (fill_calibration cam width height)
                   (fill_world_to_cam cam) v))
  && negb (intersect bvh_tree (occlusion_ray norm (fill_camera_pos cam) v)).

(** The row the loop stores for a camera that sees point [i]. *)
Definition direction_to (cam : CameraInfo) (i : Z) : Vec2f :=
  let ray := occlusion_ray norm (fill_camera_pos cam) (vertex_at cloud i) in
  mkVec2f (atan2 (c1 (dir ray)) (c0 (dir ray))) (acos (c2 (dir ray))).

(** Whether the body of the loop appends a row for point [i]. *)
Definition appends (cam : CameraInfo) (dir_hist : VectorArrayData) (i : Z)
    : bool :=
  sees cam i && (num_rows_at dir_hist i <? max_rows dir_hist).

(** The body of the loop for a camera. *)
Definition step (cam : CameraInfo) (dir_hist : VectorArrayData) (i : Z)
    : VectorArrayData :=
  snd (visit_point norm atan2 acos (fill_calibration cam width height)
                   (fill_world_to_cam cam) (fill_camera_pos cam)
                   bvh_tree cloud dir_hist i).

(** The cameras of a trajectory that see point [i], in order. *)
Definition seen_by (i : Z) (trajectory : list CameraInfo)
    : list CameraInfo :=
  List.filter (fun cam => sees cam i) trajectory.

End Rows.

End EvaluateMoreSpec.

Module MoreViews.

Import Evaluate.

Local Open Scope Q_scope.

(** A cloud of two points in front of the camera of the views, and the
    store [main] creates for it. *)
Definition pair_cloud : PointCloud :=
  mkPointCloud [mkVec3f 0 0 0; mkVec3f 1 0 0]
               [mkVec3f 0 0 (-1); mkVec3f 0 0 (-1)].

Definition pair_store : VectorArrayData :=
  VectorArray_create (num_vertices pair_cloud) max_cameras.

End MoreViews.

(** ** Facts about the numbers *)

Section FloatFacts.

Local Open Scope Q_scope.

Lemma ltb_lt (a b : float) : ltb a b = true <-> a < b.
Proof.
  unfold ltb. rewrite negb_true_iff.
  destruct (Qle_bool b a) eqn:E.
  - apply Qle_bool_iff in E.
    split; [discriminate | intros H; exfalso; lra].
  - split; [intros _ | reflexivity].
    apply Qnot_le_lt. intros H. apply Qle_bool_iff in H. congruence.
Qed.

Lemma ltb_ge (a b : float) : ltb a b = false <-> b <= a.
Proof.
  unfold ltb. rewrite negb_false_iff. apply Qle_bool_iff.
Qed.

Lemma neqb_neq (a b : float) : neqb a b = true <-> ~ a == b.
Proof.
  unfold neqb. rewrite negb_true_iff.
  destruct (Qeq_bool a b) eqn:E.
  - apply Qeq_bool_iff in E. split; [discriminate | tauto].
  - split; [intros _ | reflexivity]. now apply Qeq_bool_neq.
Qed.

Lemma neqb_eq (a b : float) : neqb a b = false <-> a == b.
Proof.
  unfold neqb. rewrite negb_false_iff. apply Qeq_bool_iff.
Qed.



Lemma std_max_Qmax (a b : float) : std_max a b == Qmax a b.
Proof.
  apply Q.max_unicity. unfold std_max.
  destruct (ltb a b) eqn:E.
  - apply ltb_lt in E. left. split; [exact E | reflexivity].
  - apply ltb_ge in E. right. split; [exact E | reflexivity].
Qed.

Lemma std_min_Qmin (a b : float) : std_min a b == Qmin a b.
Proof.
  apply Q.min_unicity. unfold std_min.
  destruct (ltb b a) eqn:E.
  - apply ltb_lt in E. right. split; [lra | reflexivity].
  - apply ltb_ge in E. destruct (Qlt_le_dec a b) as [Hlt | Hle].
    + left. split; [exact Hlt | reflexivity].
    + right. split; [exact Hle | lra].
Qed.

Lemma trunc_nonneg (q : float) : 0 <= q -> trunc q = Qfloor q.
Proof.
  intros H. destruct q as [n d]. unfold trunc, Qfloor. simpl.
  apply Z.quot_div_nonneg; [| lia].
  unfold Qle in H. simpl in H. lia.
Qed.

Lemma Qfloor_unique (x : Q) (n : Z) :
  inject_Z n <= x -> x < inject_Z (n + 1) -> Qfloor x = n.
Proof.
  intros Hlo Hhi.
  pose proof (Qfloor_le x) as Hf. pose proof (Qlt_floor x) as Hf'.
  assert (inject_Z (Qfloor x) < inject_Z (n + 1)) as H1 by lra.
  assert (inject_Z n < inject_Z (Qfloor x + 1)) as H2 by lra.
  rewrite <- Zlt_Qlt in H1, H2. lia.
Qed.

Lemma Qfloor_plus_1 (x : Q) : Qfloor (x + 1) = (Qfloor x + 1)%Z.
Proof.
  pose proof (Qfloor_le x) as Hf. pose proof (Qlt_floor x) as Hf'.
  rewrite inject_Z_plus in Hf'.
  apply Qfloor_unique; rewrite ?inject_Z_plus;
    change (inject_Z 1) with 1 in *; lra.
Qed.

Lemma to_int_trunc (q : float) (z : Z) : to_int q = Some z -> z = trunc q.
Proof.
  unfold to_int. destruct (_ && _); [| discriminate]. congruence.
Qed.

Lemma int_of_float_trunc (q : float) (z : Z) :
  int_of_float q = Ok z -> z = trunc q.
Proof.
  unfold int_of_float. destruct (to_int q) eqn:E; [| discriminate].
  intros H. inversion H; subst. now apply to_int_trunc.
Qed.

(** *** Rounding to binary32 *)

Lemma pow2_pos (e : Z) : 0 < 2 ^ e.
Proof. apply Qpower_0_lt. reflexivity. Qed.

Lemma pow2_plus (a b : Z) : 2 ^ (a + b) == 2 ^ a * 2 ^ b.
Proof. apply Qpower_plus. discriminate. Qed.

Lemma pow2_le (a b : Z) : (a <= b)%Z -> 2 ^ a <= 2 ^ b.
Proof. intros H. apply Qpower_le_compat_l; [exact H | discriminate]. Qed.

Lemma pow2_Z (k : Z) : (0 <= k)%Z -> inject_Z (2 ^ k) == 2 ^ k.
Proof. intros H. apply (Zpower_Qpower 2 k H). Qed.

Lemma ilog2_spec (q : Q) :
  0 < q -> 2 ^ ilog2 q <= q /\ q < 2 ^ (ilog2 q + 1).
Proof.
  intros Hq. unfold ilog2.
  destruct (Qle_bool 1 q) eqn:E.
  - apply Qle_bool_iff in E.
    pose proof (Qfloor_le q) as Hf. pose proof (Qlt_floor q) as Hf'.
    assert (1 <= Qfloor q)%Z as H1.
    { change 1%Z with (Qfloor 1). apply Qfloor_resp_le. exact E. }
    destruct (Z.log2_spec (Qfloor q) ltac:(lia)) as [Hlo Hhi].
    pose proof (Z.log2_nonneg (Qfloor q)) as Hk.
    rewrite <- !pow2_Z by lia. split.
    + eapply Qle_trans; [| exact Hf]. rewrite <- Zle_Qle. exact Hlo.
    + eapply Qlt_le_trans; [exact Hf' |]. rewrite <- Zle_Qle.
      replace (Z.log2 (Qfloor q) + 1)%Z with (Z.succ (Z.log2 (Qfloor q)))
        by lia. lia.
  - assert (q < 1) as Hq1.
    { apply Qnot_le_lt. intros H. apply Qle_bool_iff in H. congruence. }
    set (x := / q).
    assert (q * x == 1) as Hqx by (unfold x; field; lra).
    assert (1 < x) as Hx.
    { unfold x. apply Qlt_shift_inv_l; lra. }
    pose proof (Qle_ceiling x) as Hc. pose proof (Qceiling_lt x) as Hc'.
    assert (2 <= Qceiling x)%Z as H2.
    { assert (inject_Z 1 < inject_Z (Qceiling x)) as H by
          (change (inject_Z 1) with 1; lra).
      rewrite <- Zlt_Qlt in H. lia. }
    destruct (Z.log2_up_spec (Qceiling x) ltac:(lia)) as [Hlo Hhi].
    pose proof (Z.log2_up_nonneg (Qceiling x)) as Hk.
    set (k := Z.log2_up (Qceiling x)) in *.
    assert (1 <= k)%Z as Hk1.
    { destruct (Z.eq_dec k 0%Z) as [E0 | E0]; [| lia].
      rewrite E0 in Hhi. simpl in Hhi. lia. }
    split.
    + rewrite Qpower_opp. apply Qle_shift_inv_r; [apply pow2_pos |].
      assert (x <= 2 ^ k) as Hxk.
      { eapply Qle_trans; [exact Hc |]. rewrite <- pow2_Z by lia.
        rewrite <- Zle_Qle. exact Hhi. }
      rewrite <- Hqx. apply Qmult_le_l; [exact Hq | exact Hxk].
    + replace (- k + 1)%Z with (- (k - 1))%Z by lia.
      rewrite Qpower_opp. apply Qlt_shift_inv_l; [apply pow2_pos |].
      assert (2 ^ (k - 1) < x) as Hxk.
      { eapply Qle_lt_trans; [| exact Hc'].
        rewrite <- pow2_Z by lia. rewrite <- Zle_Qle.
        replace (Z.pred k) with (k - 1)%Z in Hlo by lia. lia. }
      rewrite <- Hqx. apply Qmult_lt_l; [exact Hq | exact Hxk].
Qed.


Lemma ilog2_mono (a b : Q) : 0 < a -> a <= b -> (ilog2 a <= ilog2 b)%Z.
Proof.
  intros Ha Hab.
  destruct (ilog2_spec a Ha) as [Ha1 _].
  destruct (ilog2_spec b ltac:(lra)) as [_ Hb2].
  assert (2 ^ ilog2 a < 2 ^ (ilog2 b + 1)) as H by lra.
  apply Qpower_lt_compat_l_inv in H; [lia | reflexivity].
Qed.

Lemma ilog2_comp (a b : Q) : a == b -> ilog2 a = ilog2 b.
Proof.
  intros H. unfold ilog2.
  assert (Qle_bool 1 a = Qle_bool 1 b) as -> by (rewrite H; reflexivity).
  assert (Qfloor a = Qfloor b) as -> by (rewrite H; reflexivity).
  assert (Qceiling (/ a) = Qceiling (/ b)) as -> by (rewrite H; reflexivity).
  reflexivity.
Qed.

Lemma ulp_exp_mono (a b : Q) : 0 < a -> a <= b -> (ulp_exp a <= ulp_exp b)%Z.
Proof.
  intros Ha Hab. unfold ulp_exp.
  pose proof (ilog2_mono a b Ha Hab). lia.
Qed.

(** A positive number, counted in units of its last place, is below
    2^24, and at least 2^23 unless it is subnormal. *)
Lemma scaled_upper (q : Q) : 0 < q -> q / 2 ^ ulp_exp q < inject_Z (2 ^ 24).
Proof.
  intros Hq. destruct (ilog2_spec q Hq) as [_ Hhi].
  apply Qlt_shift_div_r; [apply pow2_pos |].
  rewrite pow2_Z by lia. rewrite <- pow2_plus.
  eapply Qlt_le_trans; [exact Hhi |]. apply pow2_le. unfold ulp_exp. lia.
Qed.

Lemma scaled_lower (q : Q) :
  0 < q -> (-149 < ulp_exp q)%Z -> inject_Z (2 ^ 23) <= q / 2 ^ ulp_exp q.
Proof.
  intros Hq He. destruct (ilog2_spec q Hq) as [Hlo _].
  apply Qle_shift_div_l; [apply pow2_pos |].
  rewrite pow2_Z by lia. rewrite <- pow2_plus.
  eapply Qle_trans; [| exact Hlo]. apply pow2_le. unfold ulp_exp in *. lia.
Qed.

Lemma rne_bounds (m : Q) : (Qfloor m <= rne m <= Qfloor m + 1)%Z.
Proof.
  unfold rne. destruct (_ ?= _); [destruct (Z.even _) | |]; lia.
Qed.

Lemma rne_Z (n : Z) : rne (inject_Z n) = n.
Proof.
  unfold rne. rewrite Qfloor_Z.
  assert ((inject_Z n - inject_Z n ?= 1 # 2) = Lt) as ->
    by (apply (proj1 (Qlt_alt _ _)); lra).
  reflexivity.
Qed.

Lemma rne_comp (a b : Q) : a == b -> rne a = rne b.
Proof.
  intros H. unfold rne.
  assert (Qfloor a = Qfloor b) as -> by (rewrite H; reflexivity).
  assert ((a - inject_Z (Qfloor b) ?= 1 # 2)
          = (b - inject_Z (Qfloor b) ?= 1 # 2)) as ->
    by (rewrite H; reflexivity).
  reflexivity.
Qed.

Lemma rne_mono (a b : Q) : a <= b -> (rne a <= rne b)%Z.
Proof.
  intros Hab. pose proof (Qfloor_resp_le a b Hab) as Hf.
  pose proof (rne_bounds a) as Ba. pose proof (rne_bounds b) as Bb.
  destruct (Z.eq_dec (Qfloor a) (Qfloor b)) as [E | E]; [| lia].
  clear Ba Bb Hf. unfold rne. rewrite <- E.
  set (f := Qfloor a).
  destruct (Qcompare_spec (a - inject_Z f) (1 # 2)) as [Ca | Ca | Ca];
    destruct (Qcompare_spec (b - inject_Z f) (1 # 2)) as [Cb | Cb | Cb];
    try lia; try (exfalso; lra); destruct (Z.even f); lia.
Qed.

Lemma rne_le_Z (m : Q) (n : Z) : m <= inject_Z n -> (rne m <= n)%Z.
Proof. intros H. rewrite <- (rne_Z n). apply rne_mono. exact H. Qed.

Lemma rne_ge_Z (m : Q) (n : Z) : inject_Z n <= m -> (n <= rne m)%Z.
Proof. intros H. rewrite <- (rne_Z n). apply rne_mono. exact H. Qed.

Lemma round_pos_zero (q : Q) : q <= 0 -> round_pos q = 0.
Proof.
  intros H. unfold round_pos.
  apply Qle_bool_iff in H. rewrite H. reflexivity.
Qed.

Lemma round_pos_value (q : Q) :
  0 < q ->
  round_pos q == inject_Z (rne (q / 2 ^ ulp_exp q)) * 2 ^ ulp_exp q.
Proof.
  intros H. unfold round_pos.
  destruct (Qle_bool q 0) eqn:E.
  - apply Qle_bool_iff in E. lra.
  - apply Qred_correct.
Qed.

Lemma round_pos_nonneg (q : Q) : 0 <= round_pos q.
Proof.
  destruct (Qlt_le_dec 0 q) as [H | H].
  - rewrite round_pos_value by exact H.
    apply Qmult_le_0_compat; [| apply Qlt_le_weak, pow2_pos].
    change 0 with (inject_Z 0). rewrite <- Zle_Qle.
    apply rne_ge_Z. change (inject_Z 0) with 0.
    apply Qle_shift_div_l; [apply pow2_pos | lra].
  - rewrite round_pos_zero by exact H. lra.
Qed.

Lemma round_pos_mono (a b : Q) : a <= b -> round_pos a <= round_pos b.
Proof.
  intros Hab.
  destruct (Qlt_le_dec 0 a) as [Ha | Ha].
  2:{ rewrite (round_pos_zero a Ha). apply round_pos_nonneg. }
  assert (0 < b) as Hb by lra.
  rewrite (round_pos_value a Ha), (round_pos_value b Hb).
  pose proof (ulp_exp_mono a b Ha Hab) as He.
  pose proof (pow2_pos (ulp_exp a)) as Pa.
  pose proof (pow2_pos (ulp_exp b)) as Pb.
  destruct (Z.eq_dec (ulp_exp a) (ulp_exp b)) as [E | E].
  - rewrite E in *. apply Qmult_le_compat_r; [| lra].
    rewrite <- Zle_Qle. apply rne_mono.
    apply Qle_shift_div_l; [exact Pb |].
    assert (a / 2 ^ ulp_exp b * 2 ^ ulp_exp b == a) as -> by (field; lra).
    exact Hab.
  - assert (ulp_exp a + 1 <= ulp_exp b)%Z as Hlt by lia.
    assert (-149 < ulp_exp b)%Z as Hn by (unfold ulp_exp in *; lia).
    pose proof (rne_le_Z _ _ (Qlt_le_weak _ _ (scaled_upper a Ha))) as Ua.
    pose proof (rne_ge_Z _ _ (scaled_lower b Hb Hn)) as Lb.
    apply Qle_trans with (inject_Z (2 ^ 24) * 2 ^ ulp_exp a).
    { apply Qmult_le_compat_r; [| lra]. rewrite <- Zle_Qle. exact Ua. }
    apply Qle_trans with (inject_Z (2 ^ 23) * 2 ^ ulp_exp b).
    2:{ apply Qmult_le_compat_r; [| lra]. rewrite <- Zle_Qle. exact Lb. }
    rewrite !pow2_Z by lia. rewrite <- !pow2_plus. apply pow2_le. lia.
Qed.

Lemma round_pos_comp (a b : Q) : a == b -> round_pos a = round_pos b.
Proof.
  intros H. unfold round_pos.
  assert (Qle_bool a 0 = Qle_bool b 0) as -> by (rewrite H; reflexivity).
  destruct (Qle_bool b 0); [reflexivity |].
  unfold ulp_exp. rewrite (ilog2_comp a b H).
  apply Qred_complete.
  rewrite (rne_comp (a / 2 ^ Z.max (ilog2 b - 23) (-149))
                    (b / 2 ^ Z.max (ilog2 b - 23) (-149)))
    by (rewrite H; reflexivity).
  reflexivity.
Qed.

Lemma round32_comp (a b : Q) : a == b -> round32 a = round32 b.
Proof.
  intros H. unfold round32.
  assert (Qle_bool 0 a = Qle_bool 0 b) as -> by (rewrite H; reflexivity).
  destruct (Qle_bool 0 b); [apply round_pos_comp; exact H |].
  apply Qred_complete.
  rewrite (round_pos_comp (- a) (- b)) by (rewrite H; reflexivity).
  reflexivity.
Qed.

Lemma round32_nonneg (q : Q) : 0 <= q -> round32 q = round_pos q.
Proof.
  intros H. unfold round32. apply Qle_bool_iff in H. rewrite H.
  reflexivity.
Qed.

Lemma round32_neg (q : Q) : q < 0 -> round32 q == - round_pos (- q).
Proof.
  intros H. unfold round32.
  destruct (Qle_bool 0 q) eqn:E.
  - apply Qle_bool_iff in E. lra.
  - apply Qred_correct.
Qed.

Lemma round32_mono (a b : Q) : a <= b -> round32 a <= round32 b.
Proof.
  intros Hab.
  destruct (Qlt_le_dec a 0) as [Ha | Ha];
    destruct (Qlt_le_dec b 0) as [Hb | Hb].
  - rewrite (round32_neg a Ha), (round32_neg b Hb).
    pose proof (round_pos_mono (- b) (- a) ltac:(lra)). lra.
  - rewrite (round32_neg a Ha), (round32_nonneg b Hb).
    pose proof (round_pos_nonneg (- a)).
    pose proof (round_pos_nonneg b). lra.
  - lra.
  - rewrite (round32_nonneg a Ha), (round32_nonneg b Hb).
    apply round_pos_mono. exact Hab.
Qed.

Lemma round32_0 : round32 0 = 0.
Proof. reflexivity. Qed.

Lemma round32_sign (q : Q) :
  (0 <= q -> 0 <= round32 q) /\ (q <= 0 -> round32 q <= 0).
Proof.
  split; intros H.
  - change 0 with (round32 0) at 1. apply round32_mono. exact H.
  - change 0 with (round32 0). apply round32_mono. exact H.
Qed.

(** A number that is a whole number of units of its last place is a
    binary32 number. *)
Lemma round_pos_exact (q : Q) (m : Z) :
  0 < q -> q == inject_Z m * 2 ^ ulp_exp q -> round_pos q == q.
Proof.
  intros Hq Hm. rewrite (round_pos_value q Hq).
  assert (q / 2 ^ ulp_exp q == inject_Z m) as E.
  { rewrite Hm at 1. field. pose proof (pow2_pos (ulp_exp q)). lra. }
  rewrite (rne_comp _ _ E), rne_Z. symmetry. exact Hm.
Qed.

Lemma round_pos_int (n : Z) :
  (0 <= n <= 2 ^ 24)%Z -> round_pos (inject_Z n) == inject_Z n.
Proof.
  intros Hn.
  destruct (Z.eq_dec n 0%Z) as [-> | Hne]; [reflexivity |].
  assert (0 < inject_Z n) as Hq.
  { change 0 with (inject_Z 0). rewrite <- Zlt_Qlt. lia. }
  destruct (ilog2_spec _ Hq) as [Hlo Hhi].
  set (e := ulp_exp (inject_Z n)).
  destruct (Z_le_gt_dec e 0%Z) as [He | He].
  - apply (round_pos_exact _ (n * 2 ^ (- e))); [exact Hq |].
    fold e. rewrite inject_Z_mult, pow2_Z by lia.
    rewrite <- Qmult_assoc, <- pow2_plus.
    replace (- e + e)%Z with 0%Z by lia. simpl. ring.
  - assert (inject_Z n <= inject_Z (2 ^ 24)) as Hle
      by (rewrite <- Zle_Qle; lia).
    rewrite pow2_Z in Hle by lia.
    assert (2 ^ ilog2 (inject_Z n) <= 2 ^ 24) as H by lra.
    apply Qpower_le_compat_l_inv in H; [| reflexivity].
    assert (e = 1)%Z as E1 by (unfold e, ulp_exp in *; lia).
    assert (ilog2 (inject_Z n) = 24)%Z as E24
      by (unfold e, ulp_exp in *; lia).
    rewrite E24 in Hlo.
    assert (inject_Z n == inject_Z (2 ^ 24)) as En.
    { rewrite pow2_Z by lia. lra. }
    apply (round_pos_exact _ (2 ^ 23)); [exact Hq |].
    fold e. rewrite E1, En. reflexivity.
Qed.

Lemma round32_int (n : Z) :
  (- 2 ^ 24 <= n <= 2 ^ 24)%Z -> round32 (inject_Z n) == inject_Z n.
Proof.
  intros Hn.
  destruct (Z_le_gt_dec 0%Z n) as [H0 | H0].
  - rewrite round32_nonneg
      by (change 0 with (inject_Z 0); rewrite <- Zle_Qle; lia).
    apply round_pos_int. lia.
  - rewrite round32_neg
      by (change 0 with (inject_Z 0); rewrite <- Zlt_Qlt; lia).
    rewrite <- inject_Z_opp. rewrite round_pos_int by lia.
    rewrite inject_Z_opp. ring.
Qed.

Lemma trunc_inject_Z (z : Z) : trunc (inject_Z z) = z.
Proof. unfold trunc. simpl. apply Z.quot_1_r. Qed.

End FloatFacts.

(** ** Facts about the sampler *)

Module SamplerFacts.

Import Sampler SamplerSpec.

(** *** Sample positions *)

Lemma elem_of_column_samples hmap args ground_level depth x y (p : Vec3u) :
  p ∈ column_samples hmap args ground_level depth x y <->
  exists z, p = (x, y, z) /\ 0 <= z < depth /\
    (column_floor hmap args x y <= layer_height args ground_level z)%Q.
Proof.
  unfold column_samples. rewrite list_elem_of_bind. split.
  - intros (z & Hp & Hz). apply elem_of_seqZ in Hz.
    destruct (ltb _ _) eqn:E.
    + inversion Hp.
    + apply list_elem_of_singleton in Hp. apply ltb_ge in E.
      exists z. split; [exact Hp |]. split; [lia | exact E].
  - intros (z & -> & Hz & Hle). exists z. split.
    + apply ltb_ge in Hle. rewrite Hle. apply list_elem_of_singleton.
      reflexivity.
    + apply elem_of_seqZ. lia.
Qed.

Lemma elem_of_enumerate_samples hmap args ground_level w h d x y z :
  (x, y, z) ∈ enumerate_samples hmap args ground_level w h d <->
  0 <= x < w /\ 0 <= y < h /\ 0 <= z < d /\
  (column_floor hmap args x y <= layer_height args ground_level z)%Q.
Proof.
  unfold enumerate_samples. rewrite list_elem_of_bind. split.
  - intros (y' & Hp & Hy). apply elem_of_seqZ in Hy.
    apply list_elem_of_bind in Hp. destruct Hp as (x' & Hp & Hx).
    apply elem_of_seqZ in Hx.
    apply elem_of_column_samples in Hp.
    destruct Hp as (z' & Heq & Hz & Hle). inversion Heq; subst.
    repeat split; try lia. exact Hle.
  - intros (Hx & Hy & Hz & Hle). exists y. split.
    + apply list_elem_of_bind. exists x. split.
      * apply elem_of_column_samples. exists z. auto.
      * apply elem_of_seqZ. lia.
    + apply elem_of_seqZ. lia.
Qed.

(** The image store after the sampling loop. *)
Lemma lookup_sample_volume f (l : list Vec3u) vol (p : Vec3u) :
  vol_images (sample_volume f vol l) !! p =
  if decide (p ∈ l) then Some (f p) else vol_images vol !! p.
Proof.
  unfold sample_volume. revert vol.
  induction l as [| q l IH]; intros vol; simpl.
  - destruct (decide (p ∈ [])) as [Hin | _]; [inversion Hin | reflexivity].
  - rewrite IH. simpl.
    destruct (decide (p ∈ l)) as [Hl | Hl].
    + rewrite decide_True by (right; exact Hl). reflexivity.
    + destruct (decide (p = q)) as [-> | Hne].
      * rewrite decide_True by left. apply lookup_insert_eq.
      * rewrite decide_False.
        -- apply lookup_insert_ne. congruence.
        -- intros Hin. apply elem_of_cons in Hin. tauto.
Qed.

(** *** Dimensions of the height map *)

Lemma rasterize_vertex_dims aabb args w h hmap v hmap' :
  rasterize_vertex aabb args w h hmap v = Ok hmap' ->
  im_width hmap' = im_width hmap /\ im_height hmap' = im_height hmap
  /\ length (im_data hmap') = length (im_data hmap).
Proof.
  unfold rasterize_vertex. intros H.
  destruct (cell_x aabb args w v) as [x |]; simpl in H; [| discriminate].
  destruct (cell_y aabb args h v) as [y |]; simpl in H; [| discriminate].
  destruct (ltb _ _); inversion H; subst; simpl;
    rewrite ?length_insert; auto.
Qed.

Lemma rasterize_dims aabb args w h verts : forall hmap hmap',
  rasterize aabb args w h hmap verts = Ok hmap' ->
  im_width hmap' = im_width hmap /\ im_height hmap' = im_height hmap
  /\ length (im_data hmap') = length (im_data hmap).
Proof.
  induction verts as [| v verts IH]; intros hmap hmap' H; simpl in H.
  - inversion H; subst. auto.
  - destruct (rasterize_vertex aabb args w h hmap v) as [hm |] eqn:E;
      simpl in H; [| discriminate].
    apply rasterize_vertex_dims in E. apply IH in H.
    destruct E as (E1 & E2 & E3). destruct H as (H1 & H2 & H3).
    repeat split; congruence.
Qed.

Lemma build_height_map_dims aabb args w h verts raw :
  build_height_map aabb args w h verts = Ok raw ->
  im_width raw = w /\ im_height raw = h
  /\ length (im_data raw) = Z.to_nat (w * h).
Proof.
  unfold build_height_map. intros H. apply rasterize_dims in H.
  simpl in H. rewrite !length_replicate in H. exact H.
Qed.

Lemma fold_set_at_dims (g : FloatImage -> Z -> float) (l : list Z) :
  forall hmap,
  let hmap' := fold_left (fun hm i => set_at hm i (g hm i)) l hmap in
  im_width hmap' = im_width hmap /\ im_height hmap' = im_height hmap
  /\ length (im_data hmap') = length (im_data hmap).
Proof.
  induction l as [| i l IH]; intros hmap; simpl; [auto |].
  destruct (IH (set_at hmap i (g hmap i))) as (H1 & H2 & H3).
  simpl in H1, H2, H3. rewrite length_insert in H3. auto.
Qed.

Lemma normalize_dims hmap ground_level :
  im_width (normalize hmap ground_level) = im_width hmap
  /\ im_height (normalize hmap ground_level) = im_height hmap
  /\ length (im_data (normalize hmap ground_level))
     = length (im_data hmap).
Proof.
  unfold normalize.
  apply (fold_set_at_dims
           (fun hm i =>
              if neqb (at_ hm i) lowest then fsub (at_ hm i) ground_level
              else 0%Q)).
Qed.

Lemma quotient_value a b q :
  quotient a b = Ok q ->
  q = fdiv a b /\ ~ (b == 0)%Q /\ (Qabs a <= FLT_MAX)%Q.
Proof.
  unfold quotient, eqb, std_abs.
  destruct (Qeq_bool b 0) eqn:Eb; simpl; [discriminate |].
  destruct (ltb FLT_MAX (Qabs a)) eqn:Ea; [discriminate |].
  intros H. inversion H; subst.
  apply ltb_ge in Ea. apply Qeq_bool_neq in Eb. auto.
Qed.

Lemma fdiv_nonneg a res : (0 <= a)%Q -> (0 < res)%Q -> (0 <= fdiv a res)%Q.
Proof.
  intros Ha Hres. apply round32_sign.
  apply Qle_shift_div_l; [exact Hres | lra].
Qed.

Lemma fsub_nonneg a b : (b <= a)%Q -> (0 <= fsub a b)%Q.
Proof. intros H. apply round32_sign. lra. Qed.

Lemma fsub_self a b : (a == b)%Q -> (fsub a b == 0)%Q.
Proof.
  intros H. unfold fsub.
  rewrite (round32_comp (a - b) 0) by lra. reflexivity.
Qed.

(** The conversion of [q + 1.0f] to [int] for a quotient that is not
    negative. *)
Lemma grid_dimension lo hi res n :
  (lo <= hi)%Q -> (0 < res)%Q ->
  (let* q := quotient (fsub hi lo) res in int_of_float (fadd q 1%Q))
  = Ok n ->
  dimension_of lo hi res n.
Proof.
  intros Hle Hres H.
  destruct (quotient (fsub hi lo) res) as [q |] eqn:Eq; simpl in H;
    [| discriminate].
  apply quotient_value in Eq. destruct Eq as (-> & _ & _).
  apply int_of_float_trunc in H. unfold dimension_of.
  set (q := fdiv (fsub hi lo) res) in *.
  assert (0 <= q)%Q as Hq
    by (apply fdiv_nonneg; [apply fsub_nonneg; exact Hle | exact Hres]).
  assert (0 <= fadd q 1)%Q as Hs by (apply round32_sign; lra).
  rewrite trunc_nonneg in H by exact Hs.
  assert ((fadd q 1 == q + 1)%Q -> n = Qfloor q + 1) as Hexact.
  { intros E. rewrite H, E. apply Qfloor_plus_1. }
  split; [rewrite trunc_nonneg by exact Hs; exact H |].
  split; [exact Hexact |]. split.
  - intros Eq E. unfold floor_dimension. rewrite <- Eq. apply Hexact, E.
  - intros Hsmall.
    pose proof (Qfloor_le q) as Hf. pose proof (Qle_ceiling q) as Hc.
    assert (Qfloor q <= 2 ^ 24 - 1) as Hfz.
    { rewrite <- (Qfloor_Z (2 ^ 24 - 1)). apply Qfloor_resp_le.
      exact Hsmall. }
    assert (Qceiling q <= 2 ^ 24 - 1) as Hcz.
    { rewrite <- (Qceiling_Z (2 ^ 24 - 1)). apply Qceiling_resp_le.
      exact Hsmall. }
    assert (0 <= Qfloor q) as Hf0.
    { rewrite <- (Qfloor_Z 0). apply Qfloor_resp_le. exact Hq. }
    assert (0 <= Qceiling q) as Hc0.
    { rewrite <- (Qceiling_Z 0). apply Qceiling_resp_le. exact Hq. }
    subst n. split.
    + rewrite <- (Qfloor_Z (Qfloor q + 1)). apply Qfloor_resp_le.
      rewrite <- (round32_int (Qfloor q + 1)) by lia.
      apply round32_mono. rewrite inject_Z_plus.
      change (inject_Z 1) with 1%Q. lra.
    + rewrite <- (Qfloor_Z (Qceiling q + 1)). apply Qfloor_resp_le.
      rewrite <- (round32_int (Qceiling q + 1)) by lia.
      apply round32_mono. rewrite inject_Z_plus.
      change (inject_Z 1) with 1%Q. lra.
Qed.

Lemma valid_extents aabb :
  valid aabb = true ->
  (c0 (aabb_min aabb) <= c0 (aabb_max aabb))%Q
  /\ (c1 (aabb_min aabb) <= c1 (aabb_max aabb))%Q
  /\ (c2 (aabb_min aabb) <= c2 (aabb_max aabb))%Q.
Proof.
  unfold valid, leb. rewrite !andb_true_iff, !Qle_bool_iff. tauto.
Qed.

(** What a finished run went through. *)
Lemma main_finished f args verts allocs o :
  main f args verts = (allocs, Ok o) ->
  let aabb := calculate_aabb verts in
  valid aabb = true /\ (0 < volume aabb)%Q /\
  grid_width aabb args = Ok (out_width o) /\
  grid_height aabb args = Ok (out_height o) /\
  grid_depth args = Ok (out_depth o) /\
  build_height_map aabb args (out_width o) (out_height o) verts
    = Ok (out_raw_hmap o) /\
  out_ground_level o = estimate_ground_level (out_raw_hmap o) /\
  out_hmap o = normalize (out_raw_hmap o) (out_ground_level o) /\
  out_samples o =
    enumerate_samples (out_hmap o) args (out_ground_level o)
                      (out_width o) (out_height o) (out_depth o) /\
  out_volume o =
    sample_volume f
      (Volume_create (out_width o) (out_height o) (out_depth o)
                     (aabb_min aabb) (aabb_max aabb))
      (out_samples o) /\
  allocs = [AllocHeightMap (out_width o) (out_height o);
            AllocVolume (out_width o) (out_height o) (out_depth o)].
Proof.
  intros H aabb. unfold main in H. fold aabb in H.
  destruct (valid aabb && ltb 0%Q (volume aabb)) eqn:Hv; simpl in H;
    [| discriminate].
  apply andb_true_iff in Hv. destruct Hv as [Hvalid Hvol].
  apply ltb_lt in Hvol.
  destruct (grid_width aabb args) as [w |] eqn:Hw; simpl in H;
    [| discriminate].
  destruct (grid_height aabb args) as [h |] eqn:Hh; simpl in H;
    [| discriminate].
  destruct (grid_depth args) as [d |] eqn:Hd; simpl in H;
    [| discriminate].
  destruct (build_height_map aabb args w h verts) as [raw |] eqn:Hb;
    [| discriminate].
  inversion H; subst; simpl. tauto.
Qed.

Lemma finished_inv r :
  Scenes.finished r = true -> exists allocs o, r = (allocs, Ok o).
Proof.
  destruct r as [allocs [o | fl]]; unfold Scenes.finished; simpl;
    [eauto | discriminate].
Qed.

(** The run on the pit finishes, on a grid of 1 x 1 x 11. *)
Lemma pit_run :
  exists allocs o,
    main Scenes.flat_histogram Scenes.pit_args Scenes.pit_mesh
    = (allocs, Ok o)
    /\ out_width o = 1 /\ out_height o = 1 /\ out_depth o = 11.
Proof.
  destruct (finished_inv
              (main Scenes.flat_histogram Scenes.pit_args Scenes.pit_mesh))
    as (allocs & o & E); [vm_compute; reflexivity |].
  exists allocs, o. split; [exact E |].
  destruct (main_finished _ _ _ _ _ E) as (_ & _ & Hw & Hh & Hd & _).
  assert (grid_width (calculate_aabb Scenes.pit_mesh) Scenes.pit_args
          = Ok 1) as Cw by (vm_compute; reflexivity).
  assert (grid_height (calculate_aabb Scenes.pit_mesh) Scenes.pit_args
          = Ok 1) as Ch by (vm_compute; reflexivity).
  assert (grid_depth Scenes.pit_args = Ok 11) as Cd
    by (vm_compute; reflexivity).
  repeat split; congruence.
Qed.

Lemma pit_sampled p o allocs :
  main Scenes.flat_histogram Scenes.pit_args Scenes.pit_mesh
  = (allocs, Ok o) ->
  Scenes.sampled
    (main Scenes.flat_histogram Scenes.pit_args Scenes.pit_mesh) p
  = bool_decide (p ∈ out_samples o).
Proof. intros E. unfold Scenes.sampled. rewrite E. reflexivity. Qed.

(** C9.  A run whose bounding box is invalid or has no positive volume
    stops at the assertion with no grid allocated; whenever a grid was
    allocated, and whenever the run finished, the box is valid and its
    volume is positive. *)
Theorem positive_volume_before_allocation f args verts :
  let aabb := calculate_aabb verts in
  (valid aabb = false \/ (volume aabb <= 0)%Q ->
   main f args verts = ([], Stop AssertionFailed))
  /\ (fst (main f args verts) <> [] ->
      valid aabb = true /\ (0 < volume aabb)%Q)
  /\ (forall o, snd (main f args verts) = Ok o ->
      valid aabb = true /\ (0 < volume aabb)%Q).
Proof.
  intros aabb. unfold main. fold aabb.
  destruct (valid aabb) eqn:Hvalid; simpl.
  - destruct (ltb 0%Q (volume aabb)) eqn:Hvol; simpl.
    + apply ltb_lt in Hvol. split; [| split].
      * intros [Hf | Hle]; [discriminate | exfalso; lra].
      * auto.
      * auto.
    + split; [reflexivity |]. split.
      * intros Hne. now contradiction Hne.
      * intros o Ho. discriminate.
  - split; [reflexivity |]. split.
    + intros Hne. now contradiction Hne.
    + intros o Ho. discriminate.
Qed.

(** The planar square of the end-to-end scenario has no volume: the run
    stops before the height map is created. *)
Lemma planar_mesh_rejected :
  main Scenes.flat_histogram Scenes.planar_args Scenes.planar_mesh
  = ([], Stop AssertionFailed).
Proof.
  apply (positive_volume_before_allocation
           Scenes.flat_histogram Scenes.planar_args Scenes.planar_mesh).
  right. vm_compute. discriminate.
Defined.

(** C6, as stated, fails: on a box of 10.5 x 10.5 the height map is
    11 x 11, while [ceil(10.5 / 1) + 1] is 12. *)
Lemma ceiling_dimension_fails :
  let aabb := calculate_aabb Scenes.slab_mesh in
  let res := resolution Scenes.slab_args in
  Scenes.hmap_dims
    (main Scenes.flat_histogram Scenes.slab_args Scenes.slab_mesh)
  = Some (11, 11)
  /\ spec_dimension (c0 (aabb_min aabb)) (c0 (aabb_max aabb)) res = 12
  /\ spec_dimension (c1 (aabb_min aabb)) (c1 (aabb_max aabb)) res = 12.
Proof. vm_compute. auto. Qed.

(** C6, amended.  In a finished run with a positive resolution, the
    height map has, along each planar axis of the bounding box of the
    vertices, as many cells as the truncation of [q + 1.0f], where [q] is
    the quotient [(max - min) / resolution] and the difference, the
    quotient and the sum are rounded to binary32.  That is [floor(q) + 1]
    whenever the sum is exact, [floor((max - min) / resolution) + 1]
    when the quotient is exact as well, and between [floor(q) + 1] and
    [ceil(q) + 1] for every [q] below [2^24]. *)
Theorem height_map_dimensions f args verts allocs o :
  main f args verts = (allocs, Ok o) ->
  (0 < resolution args)%Q ->
  let aabb := calculate_aabb verts in
  dimension_of (c0 (aabb_min aabb)) (c0 (aabb_max aabb))
               (resolution args) (im_width (out_hmap o))
  /\ dimension_of (c1 (aabb_min aabb)) (c1 (aabb_max aabb))
                  (resolution args) (im_height (out_hmap o)).
Proof.
  intros Hrun Hres aabb.
  destruct (main_finished _ _ _ _ _ Hrun)
    as (Hvalid & _ & Hw & Hh & _ & Hb & _ & Hn & _).
  fold aabb in Hvalid, Hw, Hh, Hb.
  apply valid_extents in Hvalid. destruct Hvalid as (H0 & H1 & _).
  apply build_height_map_dims in Hb. destruct Hb as (Hbw & Hbh & _).
  destruct (normalize_dims (out_raw_hmap o) (out_ground_level o))
    as (Hnw & Hnh & _).
  rewrite Hn, Hnw, Hnh, Hbw, Hbh.
  split; apply grid_dimension; assumption.
Qed.

Lemma height_map_dimensions_slab :
  Scenes.hmap_dims
    (main Scenes.flat_histogram Scenes.slab_args Scenes.slab_mesh)
  = Some (11, 11).
Proof.
  destruct (finished_inv
              (main Scenes.flat_histogram Scenes.slab_args
                    Scenes.slab_mesh))
    as (allocs & o & E); [vm_compute; reflexivity |].
  assert (0 < resolution Scenes.slab_args)%Q as Hres
    by (vm_compute; reflexivity).
  destruct (height_map_dimensions _ _ _ _ _ E Hres)
    as [(_ & _ & Hw & _) (_ & _ & Hh & _)].
  rewrite E. unfold Scenes.hmap_dims. simpl.
  rewrite Hw, Hh;
    [vm_compute; reflexivity | vm_compute; reflexivity ..].
Defined.

(** With the resolution 0.1f on a box of 1 x 1 the quotient [1 / 0.1f]
    is rounded to 10: the height map has 11 x 11 cells, where the
    quotient without rounding would give 10 x 10. *)
Lemma height_map_dimensions_tenth :
  let aabb := calculate_aabb Scenes.tenth_mesh in
  let res := resolution Scenes.tenth_args in
  Scenes.hmap_dims
    (main Scenes.flat_histogram Scenes.tenth_args Scenes.tenth_mesh)
  = Some (11, 11)
  /\ floor_dimension (c0 (aabb_min aabb)) (c0 (aabb_max aabb)) res = 10.
Proof. vm_compute. auto. Qed.

Lemma column_floor_Qmax hmap args x y :
  (column_floor hmap args x y
   == Qmax (at_xy hmap x y) (min_altitude args))%Q.
Proof. apply std_max_Qmax. Qed.

(** C4.  In a finished run, a voxel of the grid is among the sample
    positions exactly when its world height
    [ground_level + z * resolution], as the loop computes it, is at least
    [max(height_map(x, y), min_altitude)]; a voxel that was skipped owns
    no image in the volume, and one that was emitted owns the image the
    kernels computed for it. *)
Theorem sample_iff_admissible f args verts allocs o x y z :
  main f args verts = (allocs, Ok o) ->
  0 <= x < out_width o -> 0 <= y < out_height o ->
  0 <= z < out_depth o ->
  ((x, y, z) ∈ out_samples o <->
   (Qmax (at_xy (out_hmap o) x y) (min_altitude args)
    <= fadd (out_ground_level o) (fmul (of_int z) (resolution args)))%Q)
  /\ ((x, y, z) ∉ out_samples o ->
      vol_images (out_volume o) !! (x, y, z) = None)
  /\ ((x, y, z) ∈ out_samples o ->
      vol_images (out_volume o) !! (x, y, z) = Some (f (x, y, z))).
Proof.
  intros Hrun Hx Hy Hz.
  destruct (main_finished _ _ _ _ _ Hrun)
    as (_ & _ & _ & _ & _ & _ & _ & _ & Hs & Hv & _).
  split; [| split].
  - rewrite Hs, elem_of_enumerate_samples, column_floor_Qmax.
    unfold layer_height. tauto.
  - intros Hout. rewrite Hv, lookup_sample_volume.
    rewrite decide_False by exact Hout. apply lookup_empty.
  - intros Hin. rewrite Hv, lookup_sample_volume.
    rewrite decide_True by exact Hin. reflexivity.
Qed.

(** In the run on the pit, layer 6 of the only column is sampled and
    owns its image; layer 5 is skipped and owns none. *)
Lemma sample_iff_admissible_pit :
  match
    snd (main Scenes.flat_histogram Scenes.pit_args Scenes.pit_mesh)
  with
  | Ok o =>
      vol_images (out_volume o) !! (0, 0, 6)
      = Some (Scenes.flat_histogram (0, 0, 6))
      /\ vol_images (out_volume o) !! (0, 0, 5) = None
      /\ (Qmax (at_xy (out_hmap o) 0 0) (min_altitude Scenes.pit_args)
          <= fadd (out_ground_level o)
                  (fmul (of_int 6) (resolution Scenes.pit_args)))%Q
  | Stop _ => False
  end.
Proof.
  destruct pit_run as (allocs & o & E & Ew & Eh & Ed).
  rewrite E. simpl.
  assert ((0, 0, 6) ∈ out_samples o) as H6.
  { eapply bool_decide_eq_true_1. rewrite <- (pit_sampled _ _ _ E).
    vm_compute. reflexivity. }
  assert ((0, 0, 5) ∉ out_samples o) as H5.
  { eapply bool_decide_eq_false_1. rewrite <- (pit_sampled _ _ _ E).
    vm_compute. reflexivity. }
  destruct (sample_iff_admissible _ _ _ _ _ 0 0 6 E)
    as (Hiff & _ & Himg); [lia | lia | lia |].
  destruct (sample_iff_admissible _ _ _ _ _ 0 0 5 E)
    as (_ & Hnone & _); [lia | lia | lia |].
  split; [exact (Himg H6) |]. split; [exact (Hnone H5) |].
  apply Hiff. exact H6.
Defined.

(** The layers do not sink as [z] grows when the resolution is
    positive: every rounding keeps the order. *)
Lemma layer_height_mono args ground_level z z' :
  (0 < resolution args)%Q -> z <= z' ->
  (layer_height args ground_level z
   <= layer_height args ground_level z')%Q.
Proof.
  intros Hres Hz. unfold layer_height, fadd, fmul, of_int.
  assert (round32 (inject_Z z) <= round32 (inject_Z z'))%Q as Hq
    by (apply round32_mono; rewrite <- Zle_Qle; exact Hz).
  assert (round32 (round32 (inject_Z z) * resolution args)
          <= round32 (round32 (inject_Z z') * resolution args))%Q as Hm
    by (apply round32_mono; nra).
  apply round32_mono. lra.
Qed.

(** C10.  With a positive resolution, the layers emitted for a column
    reach up to the top of the grid without a gap: above an emitted
    layer, every layer below [depth] is emitted too. *)
Theorem samples_upward_closed hmap args ground_level w h d x y z z' :
  (0 < resolution args)%Q ->
  (x, y, z) ∈ enumerate_samples hmap args ground_level w h d ->
  z < z' < d ->
  (x, y, z') ∈ enumerate_samples hmap args ground_level w h d.
Proof.
  intros Hres Hin Hz'.
  apply elem_of_enumerate_samples in Hin.
  destruct Hin as (Hx & Hy & Hz & Hle).
  apply elem_of_enumerate_samples.
  repeat split; try lia.
  eapply Qle_trans; [exact Hle |].
  apply layer_height_mono; [exact Hres | lia].
Qed.

(** In the run on the pit, layer 6 is sampled, and so is layer 9. *)
Lemma samples_upward_closed_pit :
  match
    snd (main Scenes.flat_histogram Scenes.pit_args Scenes.pit_mesh)
  with
  | Ok o => (0, 0, 9) ∈ out_samples o
  | Stop _ => False
  end.
Proof.
  destruct pit_run as (allocs & o & E & Ew & Eh & Ed).
  rewrite E. simpl.
  assert ((0, 0, 6) ∈ out_samples o) as H6.
  { eapply bool_decide_eq_true_1. rewrite <- (pit_sampled _ _ _ E).
    vm_compute. reflexivity. }
  destruct (main_finished _ _ _ _ _ E)
    as (_ & _ & _ & _ & _ & _ & _ & _ & Hs & _).
  rewrite Hs in H6 |- *. rewrite Ed in H6 |- *.
  apply (samples_upward_closed _ _ _ _ _ _ 0 0 6 9);
    [vm_compute; reflexivity | exact H6 | lia].
Defined.

(** *** Counting the layers of a column *)

Section Threshold.

Context {A : Type} (skip : Z -> bool) (g : Z -> A).

Lemma bind_all_skipped (l : list Z) :
  Forall (fun z => skip z = true) l ->
  (z ← l; if skip z then [] else [g z]) = [].
Proof.
  induction 1 as [| z l Hz _ IH]; [reflexivity |].
  rewrite bind_cons, Hz, IH. reflexivity.
Qed.

Lemma bind_all_kept (l : list Z) :
  Forall (fun z => skip z = false) l ->
  (z ← l; if skip z then [] else [g z]) = g <$> l.
Proof.
  induction 1 as [| z l Hz _ IH]; [reflexivity |].
  rewrite bind_cons, Hz, IH. reflexivity.
Qed.

(** A loop over [0 .. n-1] that skips exactly the indices below [k]
    keeps the indices [k .. n-1], in order. *)
Lemma bind_seqZ_threshold (n k : Z) :
  0 <= k <= n ->
  (forall z, 0 <= z < n -> skip z = true <-> z < k) ->
  (z ← seqZ 0 n; if skip z then [] else [g z]) = g <$> seqZ k (n - k).
Proof.
  intros Hk Hskip.
  replace n with (k + (n - k)) at 1 by lia.
  rewrite seqZ_app by lia. rewrite bind_app.
  rewrite bind_all_skipped, bind_all_kept; [reflexivity | |].
  - apply Forall_forall. intros z Hz. apply elem_of_seqZ in Hz.
    destruct (skip z) eqn:E; [| reflexivity].
    apply Hskip in E; lia.
  - apply Forall_forall. intros z Hz. apply elem_of_seqZ in Hz.
    apply Hskip; lia.
Qed.

End Threshold.

Lemma seqZ_snoc (n : Z) : 0 <= n -> seqZ 0 (Z.succ n) = seqZ 0 n ++ [n].
Proof.
  intros H. replace (Z.succ n) with (n + 1) by lia.
  rewrite seqZ_app by lia. reflexivity.
Qed.

(** A loop over [0 .. n-1] whose test can only turn from true to false
    as the index grows holds on exactly the first [k] indices, [k]
    being the number of indices it holds on. *)
Lemma antitone_threshold (skip : Z -> bool) (n : Z) :
  0 <= n ->
  (forall z z', 0 <= z <= z' -> z' < n -> skip z' = true -> skip z = true) ->
  let k := Z.of_nat (length (List.filter skip (seqZ 0 n))) in
  0 <= k <= n /\ forall z, 0 <= z < n -> skip z = true <-> z < k.
Proof.
  intros Hn. pattern n. apply natlike_ind; [| | exact Hn]; clear n Hn.
  - intros _. simpl. split; [lia |]. intros z Hz. lia.
  - intros n Hn IH Hanti.
    destruct IH as [Hk IH].
    { intros z z' Hz Hz'. apply Hanti; lia. }
    rewrite seqZ_snoc by exact Hn.
    rewrite List.filter_app, length_app. cbn [List.filter].
    set (k := Z.of_nat (length (List.filter skip (seqZ 0 n)))) in *.
    destruct (skip n) eqn:E; cbn [length].
    + assert (k = n) as Ek.
      { destruct (Z.eq_dec k n) as [-> | Hne]; [reflexivity |].
        assert (skip k = true) as Hs
          by (apply (Hanti k n); [lia | lia | exact E]).
        apply IH in Hs; lia. }
      split; [lia |]. intros z Hz.
      split; [intros _; lia |]. intros _.
      apply (Hanti z n); [lia | lia | exact E].
    + rewrite Nat.add_0_r. fold k. split; [lia |]. intros z Hz.
      destruct (Z.eq_dec z n) as [-> | Hne].
      * rewrite E. split; [discriminate | lia].
      * apply IH. lia.
Qed.

Lemma ltb_comp (a b b' : float) : (b == b')%Q -> ltb a b = ltb a b'.
Proof. intros H. unfold ltb. rewrite H. reflexivity. Qed.

Lemma skipped_layers_comp args ground_level fz fz' depth :
  (fz == fz')%Q ->
  skipped_layers args ground_level fz depth
  = skipped_layers args ground_level fz' depth.
Proof.
  intros H. unfold skipped_layers. do 2 f_equal.
  apply List.filter_ext. intros z. apply ltb_comp. exact H.
Qed.

(** The layers below [fz] are the lowest ones. *)
Lemma skipped_layers_threshold args ground_level fz depth :
  (0 < resolution args)%Q -> 0 <= depth ->
  let k := skipped_layers args ground_level fz depth in
  0 <= k <= depth
  /\ forall z, 0 <= z < depth ->
       ltb (layer_height args ground_level z) fz = true <-> z < k.
Proof.
  intros Hres Hd.
  apply (antitone_threshold
           (fun z => ltb (layer_height args ground_level z) fz) depth Hd).
  intros z z' Hz Hz' Hskip. apply ltb_lt in Hskip. apply ltb_lt.
  pose proof (layer_height_mono args ground_level z z' Hres ltac:(lia)).
  lra.
Qed.

(** Without rounding, a layer is at or above [fz] from the ceiling of
    [(fz - ground_level) / resolution] on. *)
Lemma exact_layer_iff (ground_level res fz : float) (z : Z) :
  (0 < res)%Q ->
  (fz <= ground_level + inject_Z z * res)%Q <->
  Qceiling ((fz - ground_level) / res) <= z.
Proof.
  intros Hres.
  set (q := ((fz - ground_level) / res)%Q).
  assert (q * res == fz - ground_level)%Q as Hq.
  { unfold q. field. lra. }
  split.
  - intros Hle.
    assert (q <= inject_Z z)%Q as Hqz.
    { unfold q. apply Qle_shift_div_r; [exact Hres | lra]. }
    apply Qceiling_resp_le in Hqz. rewrite Qceiling_Z in Hqz. exact Hqz.
  - intros Hle.
    assert (q <= inject_Z z)%Q as Hqz.
    { eapply Qle_trans; [apply Qle_ceiling |].
      rewrite <- Zle_Qle. exact Hle. }
    nra.
Qed.

(** When the heights of the layers are computed without rounding error,
    the number of layers below [fz] is the ceiling of the
    specification's quotient, kept within [0 .. depth]. *)
Lemma skipped_layers_exact args ground_level fz depth :
  (0 < resolution args)%Q -> 0 <= depth ->
  (forall z, 0 <= z < depth ->
     (layer_height args ground_level z
      == ground_level + inject_Z z * resolution args)%Q) ->
  skipped_layers args ground_level fz depth
  = first_layer fz ground_level (resolution args) depth.
Proof.
  intros Hres Hd Hexact.
  destruct (skipped_layers_threshold args ground_level fz depth Hres Hd)
    as [Hk Hiff].
  set (k := skipped_layers args ground_level fz depth) in *.
  set (c := Qceiling ((fz - ground_level) / resolution args)).
  assert (forall z, 0 <= z < depth -> z < k <-> z < c) as Hsame.
  { intros z Hz. rewrite <- (Hiff z Hz), ltb_lt, (Hexact z Hz).
    pose proof (exact_layer_iff ground_level (resolution args) fz z Hres)
      as He. fold c in He. split.
    - intros Hlt. destruct (Z_lt_le_dec z c) as [H | H]; [exact H |].
      apply He in H. exfalso. lra.
    - intros Hlt. apply Qnot_le_lt. intros H. apply He in H. lia. }
  unfold first_layer. fold c.
  destruct (Z_lt_le_dec k (Z.min depth (Z.max 0 c))) as [Hlt | Hge].
  - assert (k < c) as Hkc by lia.
    apply (Hsame k) in Hkc; lia.
  - destruct (Z.eq_dec k (Z.min depth (Z.max 0 c))) as [E | Hne];
      [exact E |].
    assert (0 <= k - 1 < depth) as Hr by lia.
    assert (k - 1 < k) as Hk1 by lia.
    apply (Hsame (k - 1) Hr) in Hk1. lia.
Qed.

(** The layers of a column, in closed form. *)
Lemma column_samples_range hmap args ground_level depth x y :
  (0 < resolution args)%Q -> 0 <= depth ->
  let k := skipped_layers args ground_level (column_floor hmap args x y)
                          depth in
  column_samples hmap args ground_level depth x y
  = (fun z => (x, y, z)) <$> seqZ k (depth - k).
Proof.
  intros Hres Hd k. unfold column_samples.
  destruct (skipped_layers_threshold args ground_level
              (column_floor hmap args x y) depth Hres Hd) as [Hk Hiff].
  apply (bind_seqZ_threshold
           (fun z => ltb (layer_height args ground_level z)
                         (column_floor hmap args x y))
           (fun z => (x, y, z))).
  - exact Hk.
  - exact Hiff.
Qed.

(** The sample positions of one column are the result of its inner
    loop. *)
Section OneColumn.

Context {A B : Type}.

Lemma filter_bind (P : B -> bool) (f : A -> list B) (l : list A) :
  List.filter P (l ≫= f) = l ≫= (fun a => List.filter P (f a)).
Proof.
  induction l as [| a l IH]; [reflexivity |].
  rewrite !bind_cons, List.filter_app, IH. reflexivity.
Qed.

Lemma bind_all_nil (f : A -> list B) (l : list A) :
  (forall a, a ∈ l -> f a = []) -> l ≫= f = [].
Proof.
  induction l as [| a l IH]; intros Hf; [reflexivity |].
  rewrite bind_cons, Hf by left. simpl. apply IH.
  intros b Hb. apply Hf. now right.
Qed.

Lemma bind_single_point (f : A -> list B) (l : list A) (k : A) :
  NoDup l -> k ∈ l ->
  (forall a, a ∈ l -> a <> k -> f a = []) ->
  l ≫= f = f k.
Proof.
  induction 1 as [| a l Ha Hnd IH]; intros Hk Hf.
  - inversion Hk.
  - rewrite bind_cons. apply elem_of_cons in Hk.
    destruct Hk as [-> | Hk].
    + rewrite bind_all_nil; [apply app_nil_r |].
      intros b Hb. apply Hf; [now right |].
      intros ->. contradiction.
    + rewrite Hf; [| left | intros ->; contradiction].
      simpl. apply IH; [exact Hk |].
      intros b Hb. apply Hf. now right.
Qed.

End OneColumn.

Lemma filter_column_samples hmap args ground_level depth x y x' y' :
  List.filter (in_column x y)
              (column_samples hmap args ground_level depth x' y')
  = if (x' =? x) && (y' =? y)
    then column_samples hmap args ground_level depth x' y' else [].
Proof.
  unfold column_samples.
  induction (seqZ 0 depth) as [| z zs IH].
  - destruct ((x' =? x) && (y' =? y)); reflexivity.
  - rewrite bind_cons, List.filter_app, IH.
    destruct (ltb _ _); simpl;
      unfold in_column; simpl;
      destruct ((x' =? x) && (y' =? y)); reflexivity.
Qed.

Lemma filter_column_enumerate hmap args ground_level w h d x y :
  0 <= x < w -> 0 <= y < h ->
  List.filter (in_column x y)
              (enumerate_samples hmap args ground_level w h d)
  = column_samples hmap args ground_level d x y.
Proof.
  intros Hx Hy. unfold enumerate_samples.
  rewrite filter_bind.
  rewrite (bind_single_point _ _ y);
    [| apply NoDup_seqZ | apply elem_of_seqZ; lia |].
  - rewrite filter_bind.
    rewrite (bind_single_point _ _ x);
      [| apply NoDup_seqZ | apply elem_of_seqZ; lia |].
    + rewrite filter_column_samples, !Z.eqb_refl. reflexivity.
    + intros x' _ Hne. rewrite filter_column_samples.
      apply Z.eqb_neq in Hne. rewrite Hne. reflexivity.
  - intros y' _ Hne. rewrite filter_bind. apply bind_all_nil.
    intros x' _. rewrite filter_column_samples.
    apply Z.eqb_neq in Hne. rewrite Hne, andb_false_r. reflexivity.
Qed.

(** C5, as stated, fails: the run on two vertices whose cell has height
    -5.5 has a flat height map (-5.5 everywhere before normalisation, 0
    after it), ground level -5.5, [min_altitude = 0] and depth 11; it
    emits 5 voxels in its column, while the stated count is 6 when [h]
    is read as the normalised height and 11 when [h] is read as the
    height of the mesh. *)
Lemma flat_column_count_fails :
  let r := main Scenes.flat_histogram Scenes.pit_args Scenes.pit_mesh in
  Scenes.raw_flat_at r (- (11 # 2))%Q = true
  /\ Scenes.flat_at r 0%Q = true
  /\ Scenes.ground_level_is r (- (11 # 2))%Q = true
  /\ min_altitude Scenes.pit_args = 0%Q
  /\ Scenes.depth_of r = Some 11
  /\ Scenes.column_count r 0 0 = Some 5
  /\ spec_column_count 11 0%Q (- (11 # 2))%Q
                       (resolution Scenes.pit_args) = 6
  /\ spec_column_count 11 (- (11 # 2))%Q (- (11 # 2))%Q
                       (resolution Scenes.pit_args) = 11.
Proof. vm_compute. repeat split; reflexivity. Qed.

(** C5, amended.  With a positive resolution, a height map whose cells
    all hold [h] and [min_altitude = 0], the number of sample positions
    in a column of the grid is [depth - k], where [k] is the number of
    layers whose world height [ground_level + z * resolution], as the
    loop computes it, is below [max(h, 0)].  These are the [k] lowest
    layers, and [k] is [ceil((max(h, 0) - ground_level) / resolution)],
    kept within [0 .. depth], whenever the heights of the layers are
    computed without rounding error.  No voxel whose world height is
    below [max(h, min_altitude)] is among the sample positions. *)
Theorem flat_column_count hmap args ground_level w h d x y hflat :
  (0 < resolution args)%Q -> 0 <= d ->
  0 <= x < w -> 0 <= y < h ->
  (forall x' y', 0 <= x' < w -> 0 <= y' < h ->
     (at_xy hmap x' y' == hflat)%Q) ->
  (min_altitude args == 0)%Q ->
  let k := skipped_layers args ground_level (Qmax hflat 0) d in
  Z.of_nat
    (length (List.filter (in_column x y)
               (enumerate_samples hmap args ground_level w h d)))
  = d - k
  /\ 0 <= k <= d
  /\ (forall z, 0 <= z < d ->
        z < k <-> (layer_height args ground_level z < Qmax hflat 0)%Q)
  /\ ((forall z, 0 <= z < d ->
         (layer_height args ground_level z
          == ground_level + inject_Z z * resolution args)%Q) ->
      k = first_layer (Qmax hflat 0) ground_level (resolution args) d)
  /\ (forall z,
        (x, y, z) ∈ enumerate_samples hmap args ground_level w h d ->
        (Qmax hflat (min_altitude args)
         <= layer_height args ground_level z)%Q).
Proof.
  intros Hres Hd Hx Hy Hflat Hmin k.
  assert (column_floor hmap args x y == Qmax hflat 0)%Q as Hfloor.
  { rewrite column_floor_Qmax, (Hflat x y Hx Hy), Hmin. reflexivity. }
  destruct (skipped_layers_threshold args ground_level (Qmax hflat 0) d
              Hres Hd) as [Hk Hiff].
  fold k in Hk, Hiff.
  split; [| split; [exact Hk | split; [| split]]].
  - rewrite filter_column_enumerate by assumption.
    rewrite column_samples_range by assumption.
    rewrite length_fmap, length_seqZ.
    rewrite (skipped_layers_comp _ _ _ _ _ Hfloor). fold k. lia.
  - intros z Hz. rewrite <- (Hiff z Hz), ltb_lt. reflexivity.
  - intros Hexact. apply skipped_layers_exact; assumption.
  - intros z Hin. apply elem_of_enumerate_samples in Hin.
    destruct Hin as (Hx' & Hy' & _ & Hle).
    rewrite column_floor_Qmax, (Hflat x y Hx' Hy') in Hle. exact Hle.
Qed.

(** A flat height map of 2 x 2 cells at 0.3f, the ground level 0 and
    the resolution 0.1f on a grid of six layers: the product [3 * 0.1f]
    is rounded to 0.3f, layer 3 is the first one emitted, and the column
    counts three voxels. *)
Lemma flat_column_count_shelf :
  Z.of_nat
    (length (List.filter (in_column 1 1)
               (enumerate_samples Scenes.shelf_hmap Scenes.shelf_args
                                  0%Q 2 2 6)))
  = 3
  /\ (layer_height Scenes.shelf_args 0%Q 2 < Qmax (round32 (3 # 10)) 0)%Q.
Proof.
  destruct (flat_column_count Scenes.shelf_hmap Scenes.shelf_args 0%Q
              2 2 6 1 1 (round32 (3 # 10)))
    as (Hcount & _ & Hiff & _).
  - vm_compute. reflexivity.
  - lia.
  - lia.
  - lia.
  - intros x' y' Hx' Hy'.
    assert (x' = 0 \/ x' = 1) as [-> | ->] by lia;
      (assert (y' = 0 \/ y' = 1) as [-> | ->] by lia);
      vm_compute; reflexivity.
  - vm_compute. reflexivity.
  - split.
    + rewrite Hcount. vm_compute. reflexivity.
    + apply (Hiff 2); [lia |]. vm_compute. reflexivity.
Defined.

(** *** Cells of the height map *)

Lemma cell_x_range aabb args w v x :
  cell_x aabb args w v = Ok x -> 0 <= x < w.
Proof.
  unfold cell_x. destruct (quotient _ _) as [q |]; simpl; [| discriminate].
  destruct (int_of_float q) as [x' |]; simpl; [| discriminate].
  destruct ((0 <=? x') && (x' <? w)) eqn:E; simpl; [| discriminate].
  intros H. inversion H; subst. apply andb_true_iff in E. lia.
Qed.

Lemma cell_y_range aabb args h v y :
  cell_y aabb args h v = Ok y -> 0 <= y < h.
Proof.
  unfold cell_y. destruct (quotient _ _) as [q |]; simpl; [| discriminate].
  destruct (int_of_float q) as [y' |]; simpl; [| discriminate].
  destruct ((0 <=? y') && (y' <? h)) eqn:E; simpl; [| discriminate].
  intros H. inversion H; subst. apply andb_true_iff in E. lia.
Qed.

Lemma pixel_index_range hmap w h x y :
  im_width hmap = w -> 0 <= x < w -> 0 <= y < h ->
  0 <= pixel_index hmap x y < w * h.
Proof. unfold pixel_index. intros ->. nia. Qed.

Lemma pixel_index_inj hmap w x y x' y' :
  im_width hmap = w -> 0 <= x < w -> 0 <= x' < w ->
  pixel_index hmap x y = pixel_index hmap x' y' -> x = x' /\ y = y'.
Proof.
  unfold pixel_index. intros -> Hx Hx' H.
  assert (y = y') by nia. subst. lia.
Qed.

Lemma at_set_at_eq hmap i v :
  0 <= i -> (Z.to_nat i < length (im_data hmap))%nat ->
  at_ (set_at hmap i v) i = v.
Proof.
  intros Hi Hlen. unfold at_, set_at. simpl.
  rewrite list_lookup_insert_eq by exact Hlen. reflexivity.
Qed.

Lemma at_set_at_ne hmap i j v :
  0 <= i -> 0 <= j -> i <> j -> at_ (set_at hmap i v) j = at_ hmap j.
Proof.
  intros Hi Hj Hne. unfold at_, set_at. simpl.
  rewrite list_lookup_insert_ne by lia. reflexivity.
Qed.

(** One vertex raises its own cell and leaves the others alone. *)
Lemma rasterize_vertex_cell aabb args w h hmap v hmap' x y :
  rasterize_vertex aabb args w h hmap v = Ok hmap' ->
  im_width hmap = w -> length (im_data hmap) = Z.to_nat (w * h) ->
  0 <= x < w -> 0 <= y < h ->
  at_xy hmap' x y =
  if in_cell aabb args w h x y v then raise (at_xy hmap x y) (c2 v)
  else at_xy hmap x y.
Proof.
  unfold rasterize_vertex, in_cell. intros H Hw Hlen Hx Hy.
  destruct (cell_x aabb args w v) as [x' |] eqn:Ex; simpl in H;
    [| discriminate].
  destruct (cell_y aabb args h v) as [y' |] eqn:Ey; simpl in H;
    [| discriminate].
  apply cell_x_range in Ex. apply cell_y_range in Ey.
  pose proof (pixel_index_range hmap w h x' y' Hw Ex Ey) as Hr'.
  pose proof (pixel_index_range hmap w h x y Hw Hx Hy) as Hr.
  destruct ((x' =? x) && (y' =? y)) eqn:Hcell.
  - apply andb_true_iff in Hcell. destruct Hcell as [Hxx Hyy].
    apply Z.eqb_eq in Hxx, Hyy. subst x' y'.
    unfold raise. destruct (ltb (c2 v) (at_xy hmap x y)).
    + inversion H; subst. reflexivity.
    + inversion H; subst. unfold at_xy, set_at_xy.
      change (pixel_index (set_at hmap (pixel_index hmap x y) (c2 v)) x y)
        with (pixel_index hmap x y).
      apply at_set_at_eq; lia.
  - assert (pixel_index hmap x' y' <> pixel_index hmap x y) as Hne.
    { intros Heq.
      apply (pixel_index_inj hmap w) in Heq; [| assumption ..].
      destruct Heq as [-> ->]. rewrite !Z.eqb_refl in Hcell. discriminate. }
    destruct (ltb (c2 v) (at_xy hmap x' y')).
    + inversion H; subst. reflexivity.
    + inversion H; subst. unfold at_xy, set_at_xy.
      change (pixel_index (set_at hmap (pixel_index hmap x' y') (c2 v)) x y)
        with (pixel_index hmap x y).
      apply at_set_at_ne; lia.
Qed.

(** After the loop, a cell holds its initial value raised by the heights
    of its vertices, in the order of the mesh. *)
Lemma rasterize_cell aabb args w h x y verts : forall hmap raw,
  rasterize aabb args w h hmap verts = Ok raw ->
  im_width hmap = w -> length (im_data hmap) = Z.to_nat (w * h) ->
  0 <= x < w -> 0 <= y < h ->
  at_xy raw x y
  = fold_left raise (cell_heights aabb args w h x y verts) (at_xy hmap x y).
Proof.
  induction verts as [| v verts IH]; intros hmap raw H Hw Hlen Hx Hy;
    simpl in H.
  - inversion H; subst. reflexivity.
  - destruct (rasterize_vertex aabb args w h hmap v) as [hm |] eqn:E;
      simpl in H; [| discriminate].
    pose proof (rasterize_vertex_cell _ _ _ _ _ _ _ x y E Hw Hlen Hx Hy)
      as Hcell.
    apply rasterize_vertex_dims in E. destruct E as (Ew & _ & El).
    rewrite (IH hm raw H) by congruence.
    unfold cell_heights. simpl.
    destruct (in_cell aabb args w h x y v); simpl; rewrite Hcell;
      reflexivity.
Qed.

Lemma fold_raise_ge (zs : list float) : forall a,
  (a <= fold_left raise zs a)%Q
  /\ (forall z, z ∈ zs -> (z <= fold_left raise zs a)%Q)
  /\ (fold_left raise zs a = a \/ fold_left raise zs a ∈ zs).
Proof.
  induction zs as [| z zs IH]; intros a; simpl.
  - split; [lra |]. split; [| now left]. intros z Hz. inversion Hz.
  - destruct (IH (raise a z)) as (Hge & Hall & Hin).
    assert (a <= raise a z /\ z <= raise a z)%Q as [Ha Hz].
    { unfold raise. destruct (ltb z a) eqn:E;
        [apply ltb_lt in E | apply ltb_ge in E]; split; lra. }
    split; [lra |]. split.
    + intros z' Hz'. apply elem_of_cons in Hz'.
      destruct Hz' as [-> | Hz']; [lra | now apply Hall].
    + destruct Hin as [Heq | Hin]; [| right; now right].
      rewrite Heq. unfold raise. destruct (ltb z a); [now left |].
      right. now left.
Qed.

(** Starting from a value that no height is below, the loop leaves the
    greatest height of a cell that has a vertex. *)
Lemma fold_raise_maximum (zs : list float) (a : float) :
  zs <> [] -> (forall z, z ∈ zs -> (a <= z)%Q) ->
  is_maximum (fold_left raise zs a) zs.
Proof.
  intros Hne Hlow. destruct zs as [| z zs]; [congruence |]. simpl.
  assert (raise a z = z) as ->.
  { unfold raise. destruct (ltb z a) eqn:E; [| reflexivity].
    apply ltb_lt in E. specialize (Hlow z ltac:(left)). exfalso. lra. }
  destruct (fold_raise_ge zs z) as (Hge & Hall & Hin). split.
  - destruct Hin as [-> | Hin]; [left | now right].
  - intros z' Hz'. apply elem_of_cons in Hz'.
    destruct Hz' as [-> | Hz']; [exact Hge | now apply Hall].
Qed.

Lemma at_fill_create w h v x y :
  0 <= x < w -> 0 <= y < h -> at_xy (fill (create w h) v) x y = v.
Proof.
  intros Hx Hy. unfold at_xy, at_, fill, create, pixel_index. simpl.
  rewrite length_replicate, lookup_replicate_2; [reflexivity | nia].
Qed.

Lemma fold_normalize_at ground_level (l : list Z) : forall hmap i,
  NoDup l ->
  (forall j, j ∈ l -> 0 <= j /\ (Z.to_nat j < length (im_data hmap))%nat) ->
  0 <= i ->
  at_ (fold_left (normalize_step ground_level) l hmap) i
  = if decide (i ∈ l) then normalized ground_level (at_ hmap i)
    else at_ hmap i.
Proof.
  induction l as [| j l IH]; intros hmap i Hnd Hin Hi; cbn [fold_left].
  - rewrite decide_False by apply not_elem_of_nil. reflexivity.
  - apply NoDup_cons in Hnd. destruct Hnd as [Hj Hnd].
    destruct (Hin j ltac:(left)) as [Hj0 Hjlen].
    rewrite IH; [| exact Hnd | | exact Hi].
    + unfold normalize_step at 1 2.
      destruct (decide (i = j)) as [-> | Hne].
      * rewrite decide_False by exact Hj.
        rewrite decide_True by left.
        rewrite at_set_at_eq by assumption. reflexivity.
      * rewrite at_set_at_ne by (assumption || congruence).
        destruct (decide (i ∈ l)) as [Hl | Hl].
        -- rewrite decide_True by now right. reflexivity.
        -- rewrite decide_False; [reflexivity |].
           intros H. apply elem_of_cons in H. tauto.
    + intros k Hk. unfold normalize_step. simpl. rewrite length_insert.
      apply Hin. now right.
Qed.

Lemma normalize_at hmap ground_level i :
  length (im_data hmap) = Z.to_nat (get_value_amount hmap) ->
  0 <= i < get_value_amount hmap ->
  at_ (normalize hmap ground_level) i
  = normalized ground_level (at_ hmap i).
Proof.
  intros Hlen Hi. unfold normalize.
  rewrite fold_normalize_at; [| apply NoDup_seqZ | | lia].
  - rewrite decide_True by (apply elem_of_seqZ; lia). reflexivity.
  - intros j Hj. apply elem_of_seqZ in Hj. lia.
Qed.

(** C7.  In a finished run on vertices whose heights are not below the
    least float: a cell that some vertex falls into holds, after
    rasterisation, the greatest height among its vertices and, after
    normalisation (when that height is not the least float), the same
    height minus the ground level, the difference of the two floats; a
    cell no vertex falls into holds 0 after normalisation. *)
Theorem height_map_cells f args verts allocs o x y :
  main f args verts = (allocs, Ok o) ->
  (forall v, v ∈ verts -> (lowest <= c2 v)%Q) ->
  0 <= x < out_width o -> 0 <= y < out_height o ->
  let zs :=
    cell_heights (calculate_aabb verts) args (out_width o) (out_height o)
                 x y verts in
  (zs <> [] ->
   is_maximum (at_xy (out_raw_hmap o) x y) zs
   /\ (~ (at_xy (out_raw_hmap o) x y == lowest)%Q ->
       at_xy (out_hmap o) x y
       = fsub (at_xy (out_raw_hmap o) x y) (out_ground_level o)))
  /\ (zs = [] -> at_xy (out_hmap o) x y = 0%Q).
Proof.
  intros Hrun Hlow Hx Hy zs.
  destruct (main_finished _ _ _ _ _ Hrun)
    as (_ & _ & _ & _ & _ & Hb & _ & Hn & _).
  pose proof (build_height_map_dims _ _ _ _ _ _ Hb) as (Hbw & Hbh & Hbl).
  assert (at_xy (out_raw_hmap o) x y = fold_left raise zs lowest) as Hraw.
  { unfold build_height_map in Hb.
    rewrite (rasterize_cell _ _ _ _ x y _ _ _ Hb); try assumption.
    - rewrite at_fill_create by assumption. reflexivity.
    - reflexivity.
    - simpl. rewrite !length_replicate. reflexivity. }
  assert (at_xy (out_hmap o) x y
          = normalized (out_ground_level o) (at_xy (out_raw_hmap o) x y))
    as Hnorm.
  { rewrite Hn. unfold at_xy.
    destruct (normalize_dims (out_raw_hmap o) (out_ground_level o))
      as (Hnw & _ & _).
    unfold pixel_index. rewrite Hnw.
    apply normalize_at.
    - unfold get_value_amount. congruence.
    - unfold get_value_amount. rewrite Hbw, Hbh. nia. }
  split.
  - intros Hne. split.
    + rewrite Hraw. apply fold_raise_maximum; [exact Hne |].
      intros z Hz. unfold zs, cell_heights in Hz.
      apply list_elem_of_fmap in Hz. destruct Hz as (v & -> & Hv).
      apply list_elem_of_In, List.filter_In in Hv. destruct Hv as [Hv _].
      apply Hlow, list_elem_of_In, Hv.
    + intros Hfin. rewrite Hnorm. unfold normalized.
      apply neqb_neq in Hfin. rewrite Hfin. reflexivity.
  - intros Hnil. rewrite Hnorm, Hraw, Hnil. simpl.
    unfold normalized. rewrite (proj2 (neqb_eq lowest lowest));
      reflexivity.
Qed.

(** The cell of the upper vertex of the slab, and an empty cell of the
    same map. *)
Lemma height_map_cells_slab :
  match snd (main Scenes.flat_histogram Scenes.slab_args Scenes.slab_mesh)
  with
  | Ok o =>
      is_maximum (at_xy (out_raw_hmap o) 10 10) [1%Q]
      /\ at_xy (out_hmap o) 10 10
         = fsub (at_xy (out_raw_hmap o) 10 10) (out_ground_level o)
      /\ at_xy (out_hmap o) 5 5 = 0%Q
  | Stop _ => False
  end.
Proof.
  destruct (finished_inv
              (main Scenes.flat_histogram Scenes.slab_args Scenes.slab_mesh))
    as (allocs & o & E); [vm_compute; reflexivity |].
  rewrite E. simpl.
  destruct (main_finished _ _ _ _ _ E) as (_ & _ & Hw & Hh & _).
  assert (out_width o = 11 /\ out_height o = 11) as (Ew & Eh).
  { assert (grid_width (calculate_aabb Scenes.slab_mesh) Scenes.slab_args
            = Ok 11) as Cw by (vm_compute; reflexivity).
    assert (grid_height (calculate_aabb Scenes.slab_mesh) Scenes.slab_args
            = Ok 11) as Ch by (vm_compute; reflexivity).
    split; congruence. }
  assert (forall v, v ∈ Scenes.slab_mesh -> (lowest <= c2 v)%Q) as Hlow.
  { intros v Hv. unfold Scenes.slab_mesh in Hv.
    repeat (apply elem_of_cons in Hv; destruct Hv as [-> | Hv]);
      [vm_compute; discriminate .. | inversion Hv]. }
  destruct (height_map_cells _ _ _ _ _ 10 10 E Hlow) as [Hocc _];
    [lia | lia |].
  destruct (height_map_cells _ _ _ _ _ 5 5 E Hlow) as [_ Hemp];
    [lia | lia |].
  rewrite Ew, Eh in Hocc, Hemp.
  assert (cell_heights (calculate_aabb Scenes.slab_mesh) Scenes.slab_args
                       11 11 10 10 Scenes.slab_mesh = [1%Q]) as E10
    by (vm_compute; reflexivity).
  assert (cell_heights (calculate_aabb Scenes.slab_mesh) Scenes.slab_args
                       11 11 5 5 Scenes.slab_mesh = []) as E5
    by (vm_compute; reflexivity).
  rewrite E10 in Hocc. rewrite E5 in Hemp.
  destruct Hocc as [Hmax Hnorm]; [discriminate |].
  split; [exact Hmax |]. split; [| apply Hemp; reflexivity].
  apply Hnorm. destruct Hmax as [Hin _].
  apply list_elem_of_singleton in Hin. rewrite Hin.
  vm_compute. discriminate.
Defined.

(** *** Ground level *)

(** The ground level is at most the start value and at most every cell
    visited that is not [lowest]; it is the start value or one of those
    cells. *)
Lemma fold_ground_step hmap (l : list Z) : forall g0,
  let g := fold_left (ground_step hmap) l g0 in
  (g <= g0)%Q
  /\ (forall i, i ∈ l -> ~ (at_ hmap i == lowest)%Q -> (g <= at_ hmap i)%Q)
  /\ (g = g0
      \/ exists i, i ∈ l /\ ~ (at_ hmap i == lowest)%Q /\ g = at_ hmap i).
Proof.
  induction l as [| j l IH]; intros g0 g; simpl in g.
  - unfold g. split; [lra |]. split; [| now left].
    intros i Hi. inversion Hi.
  - destruct (IH (ground_step hmap g0 j)) as (Hle & Hall & Hone).
    fold g in Hle, Hall, Hone.
    assert ((ground_step hmap g0 j <= g0)%Q
            /\ (~ (at_ hmap j == lowest)%Q ->
                (ground_step hmap g0 j <= at_ hmap j)%Q)
            /\ (ground_step hmap g0 j = g0
                \/ (~ (at_ hmap j == lowest)%Q
                    /\ ground_step hmap g0 j = at_ hmap j)))
      as (Hs0 & Hsj & Hs1).
    { unfold ground_step.
      destruct (neqb (at_ hmap j) lowest) eqn:En; simpl.
      - apply neqb_neq in En.
        destruct (ltb (at_ hmap j) g0) eqn:El;
          [apply ltb_lt in El | apply ltb_ge in El].
        + split; [lra |]. split; [intros _; lra | right; auto].
        + split; [lra |]. split; [intros _; lra | now left].
      - apply neqb_eq in En. split; [lra |].
        split; [intros Hne; contradiction | now left]. }
    split; [lra |]. split.
    + intros i Hi Hfin. apply elem_of_cons in Hi.
      destruct Hi as [-> | Hi]; [| now apply Hall].
      specialize (Hsj Hfin). lra.
    + destruct Hone as [Heq | (i & Hi & Hfin & Heq)].
      * destruct Hs1 as [Hs1 | [Hfin Hs1]].
        -- left. congruence.
        -- right. exists j. split; [left |]. split; [exact Hfin |].
           congruence.
      * right. exists i. split; [now right |]. auto.
Qed.

(** X1.  In a finished run, every cell that held a height before the
    normalisation holds that height minus the ground level (the
    difference of the two floats), which is not negative; and when
    some such height is at most the largest float, one of these cells
    holds 0: the ground level maps to zero. *)
Theorem ground_level_maps_to_zero f args verts allocs o :
  main f args verts = (allocs, Ok o) ->
  let raw := out_raw_hmap o in
  let cells := out_width o * out_height o in
  (forall i, 0 <= i < cells -> ~ (at_ raw i == lowest)%Q ->
     at_ (out_hmap o) i = fsub (at_ raw i) (out_ground_level o)
     /\ (0 <= at_ (out_hmap o) i)%Q)
  /\ ((exists i, 0 <= i < cells /\ ~ (at_ raw i == lowest)%Q
                 /\ (at_ raw i <= FLT_MAX)%Q) ->
      exists i, 0 <= i < cells /\ ~ (at_ raw i == lowest)%Q
                /\ (at_ (out_hmap o) i == 0)%Q).
Proof.
  intros Hrun raw cells.
  destruct (main_finished _ _ _ _ _ Hrun)
    as (_ & _ & _ & _ & _ & Hb & Hg & Hn & _).
  pose proof (build_height_map_dims _ _ _ _ _ _ Hb) as (Hbw & Hbh & Hbl).
  fold raw in Hbw, Hbh, Hbl, Hg, Hn.
  assert (get_value_amount raw = cells) as Hamount
    by (unfold get_value_amount, cells; congruence).
  assert (forall i, 0 <= i < cells ->
            at_ (out_hmap o) i
            = normalized (out_ground_level o) (at_ raw i)) as Hnorm.
  { intros i Hi. rewrite Hn. apply normalize_at; rewrite Hamount;
      [exact Hbl | exact Hi]. }
  destruct (fold_ground_step raw (seqZ 0 (get_value_amount raw)) FLT_MAX)
    as (Hle & Hall & Hone).
  fold (estimate_ground_level raw) in Hle, Hall, Hone.
  rewrite <- Hg in Hle, Hall, Hone. rewrite Hamount in Hall, Hone.
  assert (forall i, 0 <= i < cells -> ~ (at_ raw i == lowest)%Q ->
            at_ (out_hmap o) i = fsub (at_ raw i) (out_ground_level o))
    as Hfinite.
  { intros i Hi Hfin. rewrite Hnorm by exact Hi. unfold normalized.
    apply neqb_neq in Hfin. rewrite Hfin. reflexivity. }
  split.
  - intros i Hi Hfin. split; [now apply Hfinite |].
    rewrite Hfinite by assumption.
    specialize (Hall i ltac:(apply elem_of_seqZ; lia) Hfin).
    apply fsub_nonneg. exact Hall.
  - intros (k & Hk & Hfin & Hmax).
    destruct Hone as [Heq | (i & Hi & Hfin' & Heq)].
    + exists k. split; [exact Hk |]. split; [exact Hfin |].
      rewrite Hfinite by assumption.
      specialize (Hall k ltac:(apply elem_of_seqZ; lia) Hfin).
      rewrite Heq in Hall |- *. apply fsub_self. lra.
    + apply elem_of_seqZ in Hi.
      exists i. split; [lia |]. split; [exact Hfin' |].
      rewrite Hfinite by (assumption || lia). rewrite Heq.
      apply fsub_self. reflexivity.
Qed.

(** On the slab, the cell of the lower vertex is at ground level. *)
Lemma ground_level_maps_to_zero_slab :
  match snd (main Scenes.flat_histogram Scenes.slab_args Scenes.slab_mesh)
  with
  | Ok o =>
      exists i, 0 <= i < 121 /\ (at_ (out_hmap o) i == 0)%Q
  | Stop _ => False
  end.
Proof.
  destruct (finished_inv
              (main Scenes.flat_histogram Scenes.slab_args Scenes.slab_mesh))
    as (allocs & o & E); [vm_compute; reflexivity |].
  rewrite E. simpl.
  destruct (main_finished _ _ _ _ _ E) as (_ & _ & Hw & Hh & _).
  assert (out_width o = 11 /\ out_height o = 11) as (Ew & Eh).
  { assert (grid_width (calculate_aabb Scenes.slab_mesh) Scenes.slab_args
            = Ok 11) as Cw by (vm_compute; reflexivity).
    assert (grid_height (calculate_aabb Scenes.slab_mesh) Scenes.slab_args
            = Ok 11) as Ch by (vm_compute; reflexivity).
    split; congruence. }
  destruct (ground_level_maps_to_zero _ _ _ _ _ E) as [_ Hzero].
  rewrite Ew, Eh in Hzero.
  assert (Scenes.raw_cell
            (main Scenes.flat_histogram Scenes.slab_args Scenes.slab_mesh) 0
          = Some 0%Q) as Hcell by (vm_compute; reflexivity).
  unfold Scenes.raw_cell in Hcell. rewrite E in Hcell. simpl in Hcell.
  injection Hcell as Hcell.
  destruct Hzero as (i & Hi & _ & Hz).
  - exists 0. split; [lia |]. rewrite Hcell.
    split; vm_compute; discriminate.
  - exists i. split; [exact Hi | exact Hz].
Defined.

End SamplerFacts.

(** ** Facts about the trajectory evaluator *)

Module EvaluateFacts.

Import Evaluate EvaluateSpec.

(** *** The bound on the row store *)

Lemma num_rows_at_bounded dir_hist i :
  0 <= max_rows dir_hist -> bounded dir_hist ->
  0 <= num_rows_at dir_hist i <= max_rows dir_hist.
Proof.
  intros Hmax Hb. unfold num_rows_at.
  destruct (num_rows_ptr dir_hist !! Z.to_nat i) as [r |] eqn:E; simpl.
  - unfold bounded in Hb. rewrite Forall_forall in Hb.
    apply Hb. eapply list_elem_of_lookup_2. exact E.
  - lia.
Qed.

Lemma bounded_set_num_rows dir_hist i n :
  bounded dir_hist -> 0 <= n <= max_rows dir_hist ->
  bounded (set_num_rows dir_hist i n).
Proof.
  unfold bounded, set_num_rows. simpl. intros Hb Hn.
  apply Forall_insert; assumption.
Qed.

Section Bound.

Variable norm : Vec3f -> float.
Variable atan2 : float -> float -> float.
Variable acos : float -> float.

(** A point whose column is full is left alone, whatever the camera
    sees. *)
Lemma visit_point_full calib w2c view_pos bvh_tree cloud dir_hist i :
  max_rows dir_hist <= num_rows_at dir_hist i ->
  snd (visit_point norm atan2 acos calib w2c view_pos bvh_tree cloud
                   dir_hist i) = dir_hist
  /\ fst (visit_point norm atan2 acos calib w2c view_pos bvh_tree cloud
                      dir_hist i) <> Appended.
Proof.
  intros Hfull. unfold visit_point.
  destruct (out_of_bounds _); [split; [reflexivity | discriminate] |].
  destruct (intersect _ _); [split; [reflexivity | discriminate] |].
  destruct (max_rows dir_hist <=? num_rows_at dir_hist i) eqn:E.
  - split; [reflexivity | discriminate].
  - apply Z.leb_gt in E. lia.
Qed.

Lemma visit_point_max_rows calib w2c view_pos bvh_tree cloud dir_hist i :
  max_rows (snd (visit_point norm atan2 acos calib w2c view_pos bvh_tree
                             cloud dir_hist i)) = max_rows dir_hist.
Proof.
  unfold visit_point.
  destruct (out_of_bounds _); [reflexivity |].
  destruct (intersect _ _); [reflexivity |].
  destruct (_ <=? _); reflexivity.
Qed.

(** The body of the loop keeps the bound. *)
Lemma visit_point_bounded calib w2c view_pos bvh_tree cloud dir_hist i :
  bounded dir_hist ->
  bounded (snd (visit_point norm atan2 acos calib w2c view_pos bvh_tree
                            cloud dir_hist i)).
Proof.
  intros Hb. unfold visit_point.
  destruct (out_of_bounds _); [exact Hb |].
  destruct (intersect _ _); [exact Hb |].
  destruct (max_rows dir_hist <=? num_rows_at dir_hist i) eqn:E;
    [exact Hb |].
  apply Z.leb_gt in E. simpl.
  set (row := num_rows_at dir_hist i) in *.
  set (dh1 := set_num_rows dir_hist i row).
  set (dh2 := set_data dh1 (slot dh1 row i) _).
  assert (bounded dh1) as Hb1.
  { apply bounded_set_num_rows; [exact Hb |].
    unfold row, num_rows_at.
    destruct (num_rows_ptr dir_hist !! Z.to_nat i) as [r |] eqn:Er; simpl.
    - unfold bounded in Hb. rewrite Forall_forall in Hb.
      apply Hb. eapply list_elem_of_lookup_2. exact Er.
    - unfold row, num_rows_at in E. rewrite Er in E. simpl in E. lia. }
  assert (bounded dh2) as Hb2 by exact Hb1.
  apply bounded_set_num_rows; [exact Hb2 |].
  assert (num_rows_at dh2 i = row \/ num_rows_at dh2 i = 0) as Hrow.
  { unfold num_rows_at, dh2, dh1, set_data, set_num_rows. simpl.
    destruct (decide (Z.to_nat i < length (num_rows_ptr dir_hist))%nat)
      as [Hlt | Hge].
    - left. rewrite list_lookup_insert_eq by exact Hlt. reflexivity.
    - right. rewrite list_insert_ge by lia.
      rewrite lookup_ge_None_2 by lia. reflexivity. }
  assert (0 <= row) as Hrow0.
  { unfold row, num_rows_at.
    destruct (num_rows_ptr dir_hist !! Z.to_nat i) as [r |] eqn:Er; simpl;
      [| lia].
    unfold bounded in Hb. rewrite Forall_forall in Hb.
    apply Hb. eapply list_elem_of_lookup_2. exact Er. }
  change (max_rows dh2) with (max_rows dir_hist).
  unfold uint32.
  assert (0 <= num_rows_at dh2 i + 1 <= max_rows dir_hist) as Hn
    by (destruct Hrow as [-> | ->]; lia).
  pose proof (Z.mod_pos_bound (num_rows_at dh2 i + 1) (2 ^ 32)
                ltac:(lia)) as Hmod.
  pose proof (Z.mod_le (num_rows_at dh2 i + 1) (2 ^ 32)
                ltac:(lia) ltac:(lia)) as Hle.
  lia.
Qed.

Lemma visit_camera_bounded bvh_tree cloud dir_hist cam :
  bounded dir_hist ->
  bounded (visit_camera norm atan2 acos bvh_tree cloud dir_hist cam).
Proof.
  unfold visit_camera. generalize (seqZ 0 (num_vertices cloud)).
  intros l. revert dir_hist.
  induction l as [| i l IH]; intros dir_hist Hb; simpl; [exact Hb |].
  apply IH. apply visit_point_bounded. exact Hb.
Qed.

Lemma visit_camera_max_rows bvh_tree cloud dir_hist cam :
  max_rows (visit_camera norm atan2 acos bvh_tree cloud dir_hist cam)
  = max_rows dir_hist.
Proof.
  unfold visit_camera. generalize (seqZ 0 (num_vertices cloud)).
  intros l. revert dir_hist.
  induction l as [| i l IH]; intros dir_hist; simpl; [reflexivity |].
  rewrite IH. apply visit_point_max_rows.
Qed.

Lemma accumulate_bounded bvh_tree cloud trajectory : forall dir_hist,
  bounded dir_hist ->
  bounded (accumulate norm atan2 acos bvh_tree cloud trajectory dir_hist)
  /\ max_rows (accumulate norm atan2 acos bvh_tree cloud trajectory
                          dir_hist) = max_rows dir_hist.
Proof.
  unfold accumulate.
  induction trajectory as [| cam trajectory IH]; intros dir_hist Hb; simpl.
  - split; [exact Hb | reflexivity].
  - destruct (IH (visit_camera norm atan2 acos bvh_tree cloud dir_hist cam))
      as [Hb' Hm]; [now apply visit_camera_bounded |].
    split; [exact Hb' |]. rewrite Hm. apply visit_camera_max_rows.
Qed.

End Bound.

Lemma bounded_create cols rows :
  0 <= rows -> bounded (VectorArray_create cols rows).
Proof.
  intros Hrows. unfold bounded, VectorArray_create. simpl.
  apply Forall_replicate. lia.
Qed.

(** C1.  For the store [main] creates ([max_cameras = 20] rows per
    point), every mesh, every cloud and every trajectory: after the
    accumulation no point uses more than [max_cameras] rows; the body of
    the loop keeps this bound at every step; and for a point whose rows
    are all used the body returns the store as it was -- counts and rows
    of every point unchanged -- without appending. *)
Theorem row_store_bounded norm atan2 acos bvh_tree cloud trajectory :
  let final :=
    accumulate norm atan2 acos bvh_tree cloud trajectory
      (VectorArray_create (num_vertices cloud) max_cameras) in
  (forall i, num_rows_at final i <= max_cameras)
  /\ (forall calib w2c view_pos dir_hist i,
        bounded dir_hist ->
        bounded (snd (visit_point norm atan2 acos calib w2c view_pos
                                  bvh_tree cloud dir_hist i)))
  /\ (forall calib w2c view_pos dir_hist i,
        max_rows dir_hist <= num_rows_at dir_hist i ->
        visit_point norm atan2 acos calib w2c view_pos bvh_tree cloud
                    dir_hist i
        = (fst (visit_point norm atan2 acos calib w2c view_pos bvh_tree
                            cloud dir_hist i), dir_hist)
        /\ fst (visit_point norm atan2 acos calib w2c view_pos bvh_tree
                            cloud dir_hist i) <> Appended).
Proof.
  intros final. split; [| split].
  - intros i.
    destruct (accumulate_bounded norm atan2 acos bvh_tree cloud trajectory
                (VectorArray_create (num_vertices cloud) max_cameras))
      as [Hb Hm]; [apply bounded_create; unfold max_cameras; lia |].
    fold final in Hb, Hm. simpl in Hm.
    pose proof (num_rows_at_bounded final i) as H.
    rewrite Hm in H. apply H; [unfold max_cameras; lia | exact Hb].
  - intros. now apply visit_point_bounded.
  - intros calib w2c view_pos dir_hist i Hfull.
    destruct (visit_point_full norm atan2 acos calib w2c view_pos bvh_tree
                cloud dir_hist i Hfull) as [Hs Hf].
    split; [| exact Hf].
    rewrite <- Hs at 3. apply surjective_pairing.
Qed.

(** Twenty-one cameras that all see the point leave it with twenty
    rows, and the twenty-first leaves the store as the twentieth left
    it. *)
Lemma row_store_bounded_view :
  let after n :=
    accumulate Views.norm Views.atan2 Views.acos [] Views.cloud
               (replicate n Views.camera) Views.fresh_store in
  num_rows_at (after 21%nat) 0 <= max_cameras
  /\ Views.visit [] (after 20%nat) = (Full, after 20%nat).
Proof.
  intros after. split.
  - apply (row_store_bounded Views.norm Views.atan2 Views.acos []
             Views.cloud (replicate 21 Views.camera)).
  - vm_compute. reflexivity.
Defined.

(** *** Visibility *)

Section Visit.

Variable norm : Vec3f -> float.
Variable atan2 : float -> float -> float.
Variable acos : float -> float.

(** The verdict of the loop body, case by case. *)
Lemma visit_point_verdict calib w2c view_pos bvh_tree cloud dir_hist i :
  let v := vertex_at cloud i in
  fst (visit_point norm atan2 acos calib w2c view_pos bvh_tree cloud
                   dir_hist i)
  = if out_of_bounds (project calib w2c v) then OutOfBounds
    else if intersect bvh_tree (occlusion_ray norm view_pos v)
         then Occluded
         else if max_rows dir_hist <=? num_rows_at dir_hist i then Full
              else Appended.
Proof.
  intros v. unfold visit_point. fold v.
  destruct (out_of_bounds _); [reflexivity |].
  destruct (intersect _ _); [reflexivity |].
  destruct (_ <=? _); reflexivity.
Qed.

(** A verdict other than [Appended] leaves the store as it was. *)
Lemma visit_point_discards calib w2c view_pos bvh_tree cloud dir_hist i :
  fst (visit_point norm atan2 acos calib w2c view_pos bvh_tree cloud
                   dir_hist i) <> Appended ->
  snd (visit_point norm atan2 acos calib w2c view_pos bvh_tree cloud
                   dir_hist i) = dir_hist.
Proof.
  unfold visit_point.
  destruct (out_of_bounds _); [reflexivity |].
  destruct (intersect _ _); [reflexivity |].
  destruct (_ <=? _); [reflexivity |]. simpl. congruence.
Qed.

(** What an appended row changes: the slot of the next free row of the
    point, and the count of the point. *)
Lemma visit_point_appends calib w2c view_pos bvh_tree cloud dir_hist i :
  let v := vertex_at cloud i in
  let ray := occlusion_ray norm view_pos v in
  let row := num_rows_at dir_hist i in
  out_of_bounds (project calib w2c v) = false ->
  intersect bvh_tree ray = false ->
  row < max_rows dir_hist ->
  0 <= i -> (Z.to_nat i < length (num_rows_ptr dir_hist))%nat ->
  0 <= row -> max_rows dir_hist < 2 ^ 32 ->
  let after :=
    snd (visit_point norm atan2 acos calib w2c view_pos bvh_tree cloud
                     dir_hist i) in
  num_rows_at after i = row + 1
  /\ (forall j, 0 <= j -> j <> i ->
       num_rows_at after j = num_rows_at dir_hist j)
  /\ data_ptr after
     = <[Z.to_nat (slot dir_hist row i) :=
           mkVec2f (atan2 (c1 (dir ray)) (c0 (dir ray)))
                   (acos (c2 (dir ray)))]> (data_ptr dir_hist).
Proof.
  intros v ray row Hin Hclear Hrow Hi Hlen Hrow0 Hmax after.
  unfold after, visit_point. fold v. rewrite Hin. fold ray. rewrite Hclear.
  fold row. rewrite (proj2 (Z.leb_gt _ _) Hrow). simpl.
  assert (forall l,
            default 0 (<[Z.to_nat i := row]> (num_rows_ptr dir_hist) !! l)
            = default 0 (num_rows_ptr dir_hist !! l)) as Hsame.
  { intros l. destruct (decide (l = Z.to_nat i)) as [-> | Hne].
    - rewrite list_lookup_insert_eq by exact Hlen. reflexivity.
    - rewrite list_lookup_insert_ne by congruence. reflexivity. }
  split; [| split].
  - unfold num_rows_at at 1. simpl.
    rewrite list_lookup_insert_eq by (rewrite length_insert; exact Hlen).
    simpl. unfold num_rows_at. simpl.
    rewrite list_lookup_insert_eq by exact Hlen. simpl.
    unfold uint32. apply Z.mod_small. lia.
  - intros j Hj Hne. unfold num_rows_at. simpl.
    rewrite list_lookup_insert_ne by lia. apply Hsame.
  - reflexivity.
Qed.

End Visit.

(** X2.  An appended observation writes one slot of the buffer, the slot
    [row * stride + i] of the next free row of its point, and leaves
    every other slot and the row counts of the other points as they
    were. *)
Theorem appended_row_slot norm atan2 acos calib w2c view_pos bvh_tree
    cloud dir_hist i :
  let v := vertex_at cloud i in
  let ray := occlusion_ray norm view_pos v in
  let row := num_rows_at dir_hist i in
  let outcome :=
    visit_point norm atan2 acos calib w2c view_pos bvh_tree cloud
                dir_hist i in
  fst outcome = Appended ->
  0 <= i -> (Z.to_nat i < length (num_rows_ptr dir_hist))%nat ->
  0 <= row -> max_rows dir_hist < 2 ^ 32 ->
  num_rows_at (snd outcome) i = row + 1
  /\ (forall j, 0 <= j -> j <> i ->
       num_rows_at (snd outcome) j = num_rows_at dir_hist j)
  /\ (forall k, 0 <= k -> k <> slot dir_hist row i ->
       0 <= slot dir_hist row i ->
       data_at (snd outcome) k = data_at dir_hist k)
  /\ ((Z.to_nat (slot dir_hist row i) < length (data_ptr dir_hist))%nat ->
      data_at (snd outcome) (slot dir_hist row i)
      = mkVec2f (atan2 (c1 (dir ray)) (c0 (dir ray)))
                (acos (c2 (dir ray)))).
Proof.
  intros v ray row outcome Hverdict Hi Hlen Hrow0 Hmax.
  unfold outcome in Hverdict. rewrite visit_point_verdict in Hverdict.
  fold v ray row in Hverdict.
  destruct (out_of_bounds (project calib w2c v)) eqn:Hin;
    [discriminate |].
  destruct (intersect bvh_tree ray) eqn:Hclear; [discriminate |].
  destruct (max_rows dir_hist <=? row) eqn:Hroom; [discriminate |].
  apply Z.leb_gt in Hroom.
  destruct (visit_point_appends norm atan2 acos calib w2c view_pos
              bvh_tree cloud dir_hist i Hin Hclear Hroom Hi Hlen Hrow0
              Hmax) as (Hcount & Hothers & Hdata).
  fold outcome in Hcount, Hothers, Hdata. fold row in Hcount, Hdata.
  fold ray in Hdata.
  split; [exact Hcount |]. split; [exact Hothers |]. split.
  - intros k Hk Hne Hslot. unfold data_at. rewrite Hdata.
    rewrite list_lookup_insert_ne by lia. reflexivity.
  - intros Hin_range. unfold data_at at 1. rewrite Hdata.
    rewrite list_lookup_insert_eq by exact Hin_range. reflexivity.
Qed.

(** The first row of the point of the view: slot 0 receives the
    direction, slot 1 stays as it was. *)
Lemma appended_row_slot_view :
  (d1 (data_at (snd (Views.visit [] Views.fresh_store)) 0) == -1)%Q
  /\ data_at (snd (Views.visit [] Views.fresh_store)) 1
     = data_at Views.fresh_store 1.
Proof.
  destruct (appended_row_slot Views.norm Views.atan2 Views.acos
              (fill_calibration Views.camera width height)
              (fill_world_to_cam Views.camera)
              (fill_camera_pos Views.camera)
              [] Views.cloud Views.fresh_store 0)
    as (_ & _ & Hrest & Hslot);
    [vm_compute; reflexivity | lia | vm_compute; lia
     | vm_compute; discriminate | vm_compute; reflexivity |].
  split.
  - pose proof (Hslot ltac:(vm_compute; lia)) as H.
    apply (f_equal d1) in H.
    rewrite (H : d1 (data_at (snd (Views.visit [] Views.fresh_store)) 0)
                 = _).
    vm_compute. reflexivity.
  - apply Hrest; [lia | vm_compute; discriminate
                  | vm_compute; discriminate].
Defined.

(** *** Export *)

Lemma max_min_clamp (x lo hi : float) :
  (lo <= hi)%Q -> (std_max lo (std_min x hi) == clamp x lo hi)%Q.
Proof.
  intros Hle. unfold std_max, std_min, clamp.
  destruct (ltb hi x) eqn:E1; [apply ltb_lt in E1 | apply ltb_ge in E1].
  - destruct (ltb lo hi) eqn:E2;
      destruct (ltb x lo) eqn:E3;
      try apply ltb_lt in E2; try apply ltb_ge in E2;
      try apply ltb_lt in E3; try apply ltb_ge in E3; lra.
  - destruct (ltb lo x) eqn:E2;
      destruct (ltb x lo) eqn:E3;
      try apply ltb_lt in E2; try apply ltb_ge in E2;
      try apply ltb_lt in E3; try apply ltb_ge in E3; lra.
Qed.

Lemma clamp_compat (x x' lo lo' hi hi' : float) :
  (x == x')%Q -> (lo == lo')%Q -> (hi == hi')%Q ->
  (clamp x lo hi == clamp x' lo' hi')%Q.
Proof.
  intros Hx Hlo Hhi. unfold clamp.
  destruct (ltb x lo) eqn:E1; destruct (ltb x' lo') eqn:E2;
    destruct (ltb hi x) eqn:E3; destruct (ltb hi' x') eqn:E4;
    try apply ltb_lt in E1; try apply ltb_ge in E1;
    try apply ltb_lt in E2; try apply ltb_ge in E2;
    try apply ltb_lt in E3; try apply ltb_ge in E3;
    try apply ltb_lt in E4; try apply ltb_ge in E4; lra.
Qed.

Lemma export_value_formula dir_hist i :
  (export_value dir_hist i
   == d0 (row_at dir_hist (max_cameras - 2) i)
      * (10 * clamp (largest_magnitude
                       (row_at dir_hist (max_cameras - 1) i))
                    0 (1 # 10)))%Q.
Proof.
  unfold export_value, row_at, slot, largest_magnitude, std_abs.
  set (mean := data_at dir_hist _).
  set (eigen := data_at dir_hist _).
  assert (std_max 0 (std_min (std_max (Qabs (d0 eigen)) (Qabs (d1 eigen)))
                             (1 / 10))
          == clamp (Qmax (Qabs (d0 eigen)) (Qabs (d1 eigen))) 0 (1 # 10))%Q
    as Hclamp.
  { rewrite max_min_clamp by (vm_compute; discriminate).
    apply clamp_compat;
      [apply std_max_Qmax | reflexivity | vm_compute; reflexivity]. }
  rewrite Hclamp. reflexivity.
Qed.

(** C8.  With an export path, [main] attaches one value to each point:
    the first component of the row before the last of the point, times
    [10 * clamp(lambda, 0, 0.1)], where [lambda] is the largest magnitude
    among the components of the last row of the point.  Without an
    export path no value is computed. *)
Theorem export_quality export_cloud dir_hist n :
  max_rows dir_hist = max_cameras ->
  0 <= n ->
  (export_cloud <> String.EmptyString ->
   exists values,
     export_values export_cloud dir_hist n = Some values
     /\ length values = Z.to_nat n
     /\ forall i, 0 <= i < n ->
          exists value,
            values !! Z.to_nat i = Some value
            /\ (value
                == d0 (row_at dir_hist (max_rows dir_hist - 2) i)
                   * (10 * clamp (largest_magnitude
                                    (row_at dir_hist
                                            (max_rows dir_hist - 1) i))
                                 0 (1 # 10)))%Q)
  /\ (export_cloud = String.EmptyString ->
      export_values export_cloud dir_hist n = None).
Proof.
  intros Hrows Hn. split.
  - intros Hpath. unfold export_values.
    destruct export_cloud as [| c rest]; [congruence |].
    eexists. split; [reflexivity |]. split.
    + rewrite length_fmap, length_seqZ. reflexivity.
    + intros i Hi. exists (export_value dir_hist i). split.
      * rewrite list_lookup_fmap, lookup_seqZ_lt by lia.
        simpl. f_equal. f_equal. lia.
      * rewrite Hrows. apply export_value_formula.
  - intros ->. reflexivity.
Qed.

(** The point of the view after the reduction: mean direction [(2, 0)],
    estimate [(-1/20, 1/40)], value [2 * (10 * 1/20) = 1]. *)
Lemma export_quality_view :
  exists values,
    export_values Views.export_path
                  Views.reduced_store 1 = Some values
    /\ exists value, values !! 0%nat = Some value /\ (value == 1)%Q.
Proof.
  destruct (export_quality Views.export_path
              Views.reduced_store 1)
    as [Hsome _]; [reflexivity | lia |].
  destruct Hsome as (values & Hv & _ & Hat); [discriminate |].
  exists values. split; [exact Hv |].
  destruct (Hat 0 ltac:(lia)) as (value & Hl & Hval).
  exists value. split; [exact Hl |].
  rewrite Hval. vm_compute. reflexivity.
Defined.

End EvaluateFacts.

(** ** Facts about the accumulation on the device *)

Module KernelFacts.

Import Evaluate EvaluateSpec Kernel KernelSpec.

Section Populate.

Variable inside_image : CameraInfo -> Vec3f -> bool.
Variable offset_origin : Vec3f -> Vec3f -> Vec3f.
Variable direction : Vec3f -> Vec3f -> Vec2f.

Local Abbreviation ray_of := (Kernel.occlusion_ray offset_origin).
Local Abbreviation kernel :=
  (Kernel.populate_histogram inside_image offset_origin direction).

(** The ray test of the kernel holds exactly when a triangle is met
    between the origin of the ray and the camera. *)
Lemma intersect_blocked bvh_tree view_pos v :
  intersect bvh_tree (ray_of view_pos v) = true
  <-> blocked bvh_tree (ray_of view_pos v).
Proof.
  unfold intersect, blocked. rewrite existsb_exists. split.
  - intros (tri & Hin & Hhit). unfold hits in Hhit.
    destruct (hit_parameter _ _ tri) as [t |] eqn:E; [| discriminate].
    apply andb_true_iff in Hhit. destruct Hhit as [Hlo Hhi].
    apply Qle_bool_iff in Hlo. apply Qle_bool_iff in Hhi.
    exists tri, t. split; [now apply list_elem_of_In |]. auto.
  - intros (tri & t & Hin & Hhit & Hlo & Hhi). exists tri.
    split; [now apply list_elem_of_In |].
    unfold hits. rewrite Hhit. apply andb_true_iff.
    split; apply Qle_bool_iff; assumption.
Qed.

Lemma kernel_verdict cam bvh_tree cloud dir_hist i :
  let v := vertex_at cloud i in
  fst (kernel cam bvh_tree cloud dir_hist i)
  = if negb (inside_image cam v) then OutOfBounds
    else if intersect bvh_tree (ray_of (fill_camera_pos cam) v)
         then Occluded
         else if num_rows_at dir_hist i <? max_rows dir_hist
              then Appended else Full.
Proof.
  intros v. unfold Kernel.populate_histogram. fold v.
  destruct (negb _); [reflexivity |].
  destruct (intersect _ _); [reflexivity |].
  destruct (_ <? _); reflexivity.
Qed.

Lemma kernel_discards cam bvh_tree cloud dir_hist i :
  fst (kernel cam bvh_tree cloud dir_hist i) <> Appended ->
  snd (kernel cam bvh_tree cloud dir_hist i) = dir_hist.
Proof.
  unfold Kernel.populate_histogram.
  destruct (negb _); [reflexivity |].
  destruct (intersect _ _); [reflexivity |].
  destruct (_ <? _); [| reflexivity].
  intros H. now contradiction H.
Qed.


(** C3.  For every camera and every point whose projection is inside
    the image: the point is discarded as occluded exactly when its
    occlusion ray, from the offset origin toward the camera, meets some
    triangle of the mesh before it reaches the camera, which lies at
    parameter 1 of the ray; the store is then left as it was.  A mesh
    that the line of the ray meets only beyond the camera does not
    discard the observation. *)
Theorem occluded_iff_hit_before_camera cam bvh_tree cloud dir_hist i :
  let v := vertex_at cloud i in
  let ray := ray_of (fill_camera_pos cam) v in
  let outcome := kernel cam bvh_tree cloud dir_hist i in
  inside_image cam v = true ->
  (fst outcome = Occluded <-> blocked bvh_tree ray)
  /\ (fst outcome = Occluded -> snd outcome = dir_hist)
  /\ veq (vadd (origin ray) (vscale (dir ray) 1%Q)) (fill_camera_pos cam)
  /\ (met_only_beyond bvh_tree ray -> fst outcome <> Occluded).
Proof.
  intros v ray outcome Hin.
  assert (fst outcome = Occluded <-> blocked bvh_tree ray) as Hiff.
  { unfold outcome. rewrite kernel_verdict. fold v ray. rewrite Hin.
    simpl.
    pose proof (intersect_blocked bvh_tree (fill_camera_pos cam) v) as Hb.
    fold ray in Hb. rewrite <- Hb.
    destruct (intersect bvh_tree ray).
    - tauto.
    - split; [| discriminate]. destruct (_ <? _); discriminate. }
  split; [exact Hiff |]. split; [| split].
  - intros Hocc. apply kernel_discards. unfold outcome in Hocc.
    rewrite Hocc. discriminate.
  - unfold ray, Kernel.occlusion_ray, veq. simpl.
    repeat split; ring.
  - intros Hbeyond Hocc. apply Hiff in Hocc.
    destruct Hocc as (tri & t & Htri & Hhit & _ & Hle).
    specialize (Hbeyond tri t Htri Hhit). lra.
Qed.

End Populate.



(** A triangle beyond the camera does not discard the observation: the
    row is appended. *)
Lemma occluded_iff_hit_before_camera_view :
  fst (KernelViews.populate [Views.far_triangle] Views.fresh_store)
  <> Occluded
  /\ fst (KernelViews.populate [Views.near_triangle] Views.fresh_store)
     = Occluded.
Proof.
  destruct (occluded_iff_hit_before_camera KernelViews.inside_image
              KernelViews.offset_origin KernelViews.direction
              Views.camera [Views.far_triangle] Views.cloud
              Views.fresh_store 0)
    as (_ & _ & _ & Hfar); [vm_compute; reflexivity |].
  destruct (occluded_iff_hit_before_camera KernelViews.inside_image
              KernelViews.offset_origin KernelViews.direction
              Views.camera [Views.near_triangle] Views.cloud
              Views.fresh_store 0)
    as (Hnear & _); [vm_compute; reflexivity |].
  split.
  - apply Hfar. intros tri t Htri Hhit.
    apply list_elem_of_singleton in Htri. subst tri.
    assert (match
              hit_parameter
                (origin (Kernel.occlusion_ray KernelViews.offset_origin
                           (fill_camera_pos Views.camera)
                           (vertex_at Views.cloud 0)))
                (dir (Kernel.occlusion_ray KernelViews.offset_origin
                        (fill_camera_pos Views.camera)
                        (vertex_at Views.cloud 0)))
                Views.far_triangle
            with
            | Some t' => Qle_bool t' 1 = false
            | None => True
            end) as E by (vm_compute; reflexivity).
    rewrite Hhit in E. apply Qnot_le_lt. intros Hle.
    apply Qle_bool_iff in Hle. congruence.
  - apply Hnear. exists Views.near_triangle. eexists.
    split; [left |]. split; [vm_compute; reflexivity |].
    split; vm_compute; discriminate.
Defined.

End KernelFacts.

(** ** Facts about launch sizes, loading and options *)

Module SetupFacts.

Import Evaluate Setup SetupSpec.
Import Stdlib.Strings.Ascii.

(** *** Launch sizes *)

(** X4.  For 32-bit operands and a non-zero [b], [divup a b] does not
    wrap around and is the least number of blocks of [b] that hold [a]
    items: the blocks hold at least [a], one block less holds fewer, and
    item [i] lies in block [i / b] of the grid. *)
Theorem divup_least_cover a b :
  0 <= a < 2 ^ 32 -> 0 < b < 2 ^ 32 ->
  let n := divup a b in
  0 <= n < 2 ^ 32
  /\ n = a / b + (if a mod b =? 0 then 0 else 1)
  /\ a <= n * b
  /\ (n - 1) * b < a
  /\ (forall m, a <= m * b -> n <= m)
  /\ (forall i, 0 <= i < a -> 0 <= i / b < n).
Proof.
  intros Ha Hb n.
  pose proof (Z.div_mod a b ltac:(lia)) as Hdm.
  pose proof (Z.mod_pos_bound a b ltac:(lia)) as Hr.
  assert (0 <= a / b) as Hq by (apply Z.div_pos; lia).
  set (q := a / b) in *. set (r := a mod b) in *.
  set (e := if r =? 0 then 0 else 1).
  assert (0 <= q + e < 2 ^ 32) as Hfit.
  { unfold e. destruct (r =? 0) eqn:E.
    - apply Z.eqb_eq in E. nia.
    - apply Z.eqb_neq in E. assert (2 <= b) by lia. nia. }
  assert (n = q + e) as Hn.
  { unfold n, divup, uint32. fold q r e. apply Z.mod_small. exact Hfit. }
  assert (a <= (q + e) * b /\ (q + e - 1) * b < a) as [Hup Hlow].
  { unfold e. destruct (r =? 0) eqn:E.
    - apply Z.eqb_eq in E. nia.
    - apply Z.eqb_neq in E. nia. }
  rewrite Hn. split; [exact Hfit |]. split; [reflexivity |].
  split; [exact Hup |]. split; [exact Hlow |]. split.
  - intros m Hm. nia.
  - intros i Hi. split; [apply Z.div_pos; lia |].
    apply Z.div_lt_upper_bound; [lia |]. nia.
Qed.

(** A thousand points in blocks of 256 take four blocks. *)
Lemma divup_least_cover_1000 :
  divup 1000 256 = 4 /\ 1000 <= 4 * 256 /\ 3 * 256 < 1000.
Proof.
  destruct (divup_least_cover 1000 256) as (_ & Hn & Hup & Hlow & _);
    [lia | lia |].
  assert (divup 1000 256 = 4) as E by (rewrite Hn; reflexivity).
  rewrite E in Hup, Hlow. split; [exact E |]. split; [exact Hup |].
  exact Hlow.
Defined.

(** *** Loading *)

(** A loop of writes [buf[i] = g i] over a list of indices. *)
Lemma fold_insert_lookup {A : Type} (g : nat -> A) (l : list nat) :
  forall (buf : list A) (k : nat),
  fold_left (fun b i => <[i := g i]> b) l buf !! k
  = if decide (k ∈ l /\ (k < length buf)%nat) then Some (g k)
    else buf !! k.
Proof.
  induction l as [| i l IH]; intros buf k; cbn [fold_left].
  - rewrite decide_False; [reflexivity |].
    intros [H _]. inversion H.
  - rewrite IH, length_insert.
    destruct (decide (k ∈ l /\ (k < length buf)%nat)) as [[Hl Hk] | Hn].
    + rewrite decide_True; [reflexivity |]. split; [now right | exact Hk].
    + destruct (decide (k = i)) as [-> | Hne].
      * destruct (decide (i < length buf)%nat) as [Hlt | Hge].
        -- rewrite list_lookup_insert_eq by exact Hlt.
           rewrite decide_True; [reflexivity |]. split; [left | exact Hlt].
        -- rewrite list_insert_ge by lia.
           rewrite decide_False; [reflexivity |]. intros [_ H]. lia.
      * rewrite list_lookup_insert_ne by congruence.
        rewrite decide_False; [reflexivity |].
        intros [H Hk]. apply elem_of_cons in H.
        destruct H as [-> | H]; [congruence | tauto].
Qed.

Lemma fold_insert_all {A : Type} (d : A) (src buf : list A) :
  length buf = length src ->
  fold_left (fun b i => <[i := default d (src !! i)]> b)
            (seq 0 (length src)) buf
  = src.
Proof.
  intros Hlen. apply list_eq. intros k.
  rewrite fold_insert_lookup.
  destruct (decide (k ∈ seq 0 (length src) /\ (k < length buf)%nat))
    as [[_ Hk] | Hn].
  - destruct (lookup_lt_is_Some_2 src k ltac:(lia)) as [x Hx].
    rewrite Hx. reflexivity.
  - assert (length src <= k)%nat as Hge.
    { destruct (decide (k < length src)%nat) as [Hlt | Hge]; [| lia].
      exfalso. apply Hn. split; [| lia].
      apply elem_of_seq. lia. }
    rewrite !lookup_ge_None_2 by lia. reflexivity.
Qed.

Lemma fold_copy_vertex vertices normals (l : list nat) : forall data,
  vertices_ptr (fold_left (copy_vertex vertices normals) l data)
  = fold_left
      (fun b i => <[i := default (mkVec3f 0%Q 0%Q 0%Q) (vertices !! i)]> b)
      l (vertices_ptr data)
  /\ normals_ptr (fold_left (copy_vertex vertices normals) l data)
     = fold_left
         (fun b i => <[i := default (mkVec3f 0%Q 0%Q 0%Q) (normals !! i)]> b)
         l (normals_ptr data).
Proof.
  induction l as [| i l IH]; intros data; simpl; [auto |].
  destruct (IH (copy_vertex vertices normals data i)) as [-> ->].
  auto.
Qed.

(** X5.  [load_point_cloud] returns, for a mesh with one normal per
    vertex, a cloud that holds exactly the vertices and the normals of
    the mesh, in their order; and it ends the process with
    [EXIT_FAILURE] when the mesh cannot be loaded. *)
Theorem load_point_cloud_copies mesh :
  length (get_vertex_normals mesh) = length (get_vertices mesh) ->
  load_point_cloud (Some mesh)
  = Returns (mkPointCloud (get_vertices mesh) (get_vertex_normals mesh))
  /\ load_point_cloud None = Exits EXIT_FAILURE.
Proof.
  intros Hlen. split; [| reflexivity].
  unfold load_point_cloud. f_equal.
  set (ret := PointCloud_create _).
  destruct (fold_copy_vertex (get_vertices mesh) (get_vertex_normals mesh)
              (seq 0 (length (get_vertices mesh))) ret) as [Hv Hn].
  destruct (fold_left _ _ ret) as [vs ns]. simpl in Hv, Hn.
  subst vs ns. f_equal.
  - apply fold_insert_all. unfold ret, PointCloud_create. simpl.
    rewrite length_replicate. lia.
  - rewrite <- Hlen. apply fold_insert_all.
    unfold ret, PointCloud_create. simpl.
    rewrite length_replicate. lia.
Qed.

Lemma load_point_cloud_copies_pair :
  load_point_cloud
    (Some (mkTriangleMesh [mkVec3f 0 0 0; mkVec3f 1 2 3]%Q
                          [mkVec3f 0 0 1; mkVec3f 0 1 0]%Q))
  = Returns (mkPointCloud [mkVec3f 0 0 0; mkVec3f 1 2 3]%Q
                          [mkVec3f 0 0 1; mkVec3f 0 1 0]%Q).
Proof.
  apply (load_point_cloud_copies
           (mkTriangleMesh [mkVec3f 0 0 0; mkVec3f 1 2 3]%Q
                           [mkVec3f 0 0 1; mkVec3f 0 1 0]%Q)).
  reflexivity.
Defined.

Lemma fold_add_view (views : list (option CameraInfo)) : forall trajectory,
  fold_left add_view views trajectory = trajectory ++ omap id views.
Proof.
  induction views as [| view views IH]; intros trajectory; simpl.
  - symmetry. apply app_nil_r.
  - rewrite IH. destruct view as [cam |]; simpl.
    + rewrite <- app_assoc. reflexivity.
    + reflexivity.
Qed.

(** X6.  [load_scene_as_trajectory] keeps what the trajectory held and
    appends the cameras of the views that are not null, in the order of
    the scene; the trajectory grows by the number of such views, which is
    at most the number of views. *)
Theorem load_scene_skips_null_views views trajectory :
  exists loaded,
    load_scene_as_trajectory (Some views) trajectory = Returns loaded
    /\ loaded = trajectory ++ omap id views
    /\ (length loaded <= length trajectory + length views)%nat
    /\ (forall cam, Some cam ∈ views -> cam ∈ loaded)
    /\ (forall cam, cam ∈ loaded -> cam ∈ trajectory \/ Some cam ∈ views).
Proof.
  exists (trajectory ++ omap id views).
  split; [unfold load_scene_as_trajectory; now rewrite fold_add_view |].
  split; [reflexivity |]. split.
  - rewrite length_app.
    assert (length (omap id views) <= length views)%nat; [| lia].
    clear. induction views as [| [cam |] views IH]; csimpl; lia.
  - split.
    + intros cam Hcam. apply elem_of_app. right.
      apply list_elem_of_omap. exists (Some cam). auto.
    + intros cam Hcam. apply elem_of_app in Hcam.
      destruct Hcam as [Hcam | Hcam]; [now left |]. right.
      apply list_elem_of_omap in Hcam.
      destruct Hcam as (view & Hview & Hid). simpl in Hid. now subst.
Qed.

(** *** Options *)

Lemma last_value_snoc {A : Type} (get : string -> A) dflt sel options o :
  last_value get dflt sel (options ++ [o])
  = if sel o then get (arg o) else last_value get dflt sel options.
Proof.
  unfold last_value. rewrite List.filter_app. simpl.
  destruct (sel o).
  - rewrite last_snoc. reflexivity.
  - rewrite app_nil_r. reflexivity.
Qed.

Lemma evaluate_fold_throws what (options : list ArgResult) :
  fold_left evaluate_option options (Throws what) = Throws what.
Proof. induction options as [| o options IH]; [reflexivity | exact IH]. Qed.

Lemma evaluate_parse_good nonopts options :
  forallb is_export options = true ->
  evaluate_parse_args nonopts options
  = Returns (mkEvaluateArguments
               (get_nth_nonopt nonopts 0) (get_nth_nonopt nonopts 1)
               (get_nth_nonopt nonopts 2)
               (last_value id EmptyString is_export options)).
Proof.
  unfold evaluate_parse_args.
  induction options as [| o options IH] using rev_ind; [reflexivity |].
  intros Hall. rewrite forallb_app in Hall.
  apply andb_true_iff in Hall. destruct Hall as [Hall Ho].
  simpl in Ho. rewrite andb_true_r in Ho.
  rewrite fold_left_app. simpl. rewrite (IH Hall).
  rewrite last_value_snoc, Ho.
  unfold evaluate_option. unfold is_export in Ho. rewrite Ho.
  reflexivity.
Qed.

Lemma evaluate_parse_bad nonopts options :
  forallb is_export options = false ->
  evaluate_parse_args nonopts options = Throws "Invalid option"%string.
Proof.
  induction options as [| o options IH] using rev_ind; [discriminate |].
  intros Hall. rewrite forallb_app in Hall. simpl in Hall.
  rewrite andb_true_r in Hall.
  unfold evaluate_parse_args in *. rewrite fold_left_app. simpl.
  destruct (forallb is_export options) eqn:Hrest.
  - simpl in Hall.
    pose proof (evaluate_parse_good nonopts options Hrest) as Hgood.
    unfold evaluate_parse_args in Hgood. rewrite Hgood.
    unfold evaluate_option. unfold is_export in Hall. rewrite Hall.
    reflexivity.
  - rewrite (IH eq_refl). reflexivity.
Qed.

(** X7.  [parse_args] of the evaluator: when every option is [-e], it
    returns the three positional arguments and, as export path, the
    argument of the last [-e] (the empty path when there is no option);
    when some option is not [-e], it throws "Invalid option".  The export
    block of [main] then computes values exactly when an [-e] with a
    non-empty argument came last. *)
Theorem evaluate_parse_args_options nonopts options :
  (forallb is_export options = true ->
   evaluate_parse_args nonopts options
   = Returns (mkEvaluateArguments
                (get_nth_nonopt nonopts 0) (get_nth_nonopt nonopts 1)
                (get_nth_nonopt nonopts 2)
                (last_value id EmptyString is_export options)))
  /\ (forallb is_export options = false ->
      evaluate_parse_args nonopts options = Throws "Invalid option"%string)
  /\ (forall conf dir_hist n,
        evaluate_parse_args nonopts options = Returns conf ->
        (export_values (export_cloud conf) dir_hist n = None <->
         last_value id EmptyString is_export options = EmptyString)).
Proof.
  split; [apply evaluate_parse_good |].
  split; [apply evaluate_parse_bad |].
  intros conf dir_hist n Hconf.
  destruct (forallb is_export options) eqn:Hall.
  - rewrite (evaluate_parse_good nonopts options Hall) in Hconf.
    inversion Hconf; subst. simpl. unfold export_values.
    destruct (last_value id EmptyString is_export options);
      split; congruence.
  - rewrite (evaluate_parse_bad nonopts options Hall) in Hconf.
    discriminate.
Qed.

(** Two [-e] options: the second path is the one that is kept. *)
Lemma evaluate_parse_args_two_exports :
  evaluate_parse_args
    ["scene"; "mesh.ply"; "cloud.ply"]%string
    [mkArgResult "e"%char "export" "a.ply";
     mkArgResult "e"%char "export" "b.ply"]%string
  = Returns (mkEvaluateArguments "scene" "mesh.ply" "cloud.ply" "b.ply")%string.
Proof.
  apply (evaluate_parse_args_options
           ["scene"; "mesh.ply"; "cloud.ply"]%string
           [mkArgResult "e"%char "export" "a.ply";
            mkArgResult "e"%char "export" "b.ply"]%string).
  reflexivity.
Defined.

Section SamplerOptionFacts.

Variable get_arg_float : string -> float.

Local Abbreviation chosen_arguments :=
  (SetupSpec.chosen_arguments get_arg_float).

Lemma sampler_option_recognised c o :
  recognised o = true ->
  forall options, c = chosen_arguments options ->
  sampler_option get_arg_float (Returns c) o
  = Returns (chosen_arguments (options ++ [o])).
Proof.
  intros Hrec options ->. unfold SetupSpec.chosen_arguments.
  rewrite !last_value_snoc. unfold sampler_option, recognised in *.
  unfold is_resolution, is_long in *.
  destruct (Ascii.eqb (sopt o) "r"%char) eqn:Hr.
  - apply Ascii.eqb_eq in Hr. rewrite Hr. simpl. reflexivity.
  - simpl in Hrec. simpl.
    destruct (Ascii.eqb (sopt o) Ascii.zero) eqn:Hz; simpl in *;
      [| discriminate].
    destruct (String.eqb (lopt o) "max-distance") eqn:H1.
    + apply String.eqb_eq in H1. rewrite H1. simpl. reflexivity.
    + destruct (String.eqb (lopt o) "min-altitude") eqn:H2.
      * apply String.eqb_eq in H2. rewrite H2. simpl. reflexivity.
      * destruct (String.eqb (lopt o) "max-altitude") eqn:H3;
          [reflexivity | discriminate].
Qed.

Lemma sampler_option_unknown c o :
  recognised o = false ->
  sampler_option get_arg_float (Returns c) o
  = Throws "Invalid option"%string.
Proof.
  unfold recognised, is_resolution, is_long, sampler_option.
  intros Hrec.
  destruct (Ascii.eqb (sopt o) "r"%char); [discriminate |].
  destruct (Ascii.eqb (sopt o) Ascii.zero); [| reflexivity].
  simpl in Hrec.
  destruct (String.eqb (lopt o) "max-distance"); [discriminate |].
  destruct (String.eqb (lopt o) "min-altitude"); [discriminate |].
  destruct (String.eqb (lopt o) "max-altitude"); [discriminate |].
  reflexivity.
Qed.

Lemma sampler_parse_good nonopts options :
  forallb recognised options = true ->
  snd (sampler_parse_args get_arg_float nonopts options)
  = Returns (chosen_arguments options).
Proof.
  unfold sampler_parse_args. simpl.
  induction options as [| o options IH] using rev_ind; [reflexivity |].
  intros Hall. rewrite forallb_app in Hall.
  apply andb_true_iff in Hall. destruct Hall as [Hall Ho].
  simpl in Ho. rewrite andb_true_r in Ho.
  rewrite fold_left_app. simpl. rewrite (IH Hall).
  now apply sampler_option_recognised.
Qed.

Lemma sampler_parse_bad nonopts options :
  forallb recognised options = false ->
  snd (sampler_parse_args get_arg_float nonopts options)
  = Throws "Invalid option"%string.
Proof.
  induction options as [| o options IH] using rev_ind; [discriminate |].
  intros Hall. rewrite forallb_app in Hall. simpl in Hall.
  rewrite andb_true_r in Hall.
  unfold sampler_parse_args in *. simpl in *. rewrite fold_left_app. simpl.
  destruct (forallb recognised options) eqn:Hrest.
  - simpl in Hall.
    pose proof (sampler_parse_good nonopts options Hrest) as Hgood.
    unfold sampler_parse_args in Hgood. simpl in Hgood. rewrite Hgood.
    now apply sampler_option_unknown.
  - rewrite (IH eq_refl). reflexivity.
Qed.

(** X8.  [parse_args] of the sampler: when every option is [-r],
    [--max-distance], [--min-altitude] or [--max-altitude], each numeric
    field is the value of the last option of its name, or its default
    (1, 80, 0, 100) when that option is absent, whatever the other
    options are; when some option is none of the four, it throws
    "Invalid option". *)
Theorem sampler_parse_args_options nonopts options :
  (forallb recognised options = true ->
   snd (sampler_parse_args get_arg_float nonopts options)
   = Returns (chosen_arguments options))
  /\ (forallb recognised options = false ->
      snd (sampler_parse_args get_arg_float nonopts options)
      = Throws "Invalid option"%string).
Proof.
  split; [apply sampler_parse_good | apply sampler_parse_bad].
Qed.

End SamplerOptionFacts.

End SetupFacts.

(** ** More facts about the sampler *)

Module SamplerMore.

Import Sampler SamplerSpec SamplerFacts SamplerMoreSpec.

(** *** Conversions to [int] *)

Lemma to_int_range (q : float) (z : Z) :
  to_int q = Some z -> INT_MIN <= z <= INT_MAX.
Proof.
  unfold to_int. destruct (_ && _) eqn:E; [| discriminate].
  intros H. inversion H; subst. apply andb_true_iff in E. lia.
Qed.

Lemma int_of_float_range (q : float) (z : Z) :
  int_of_float q = Ok z -> INT_MIN <= z <= INT_MAX.
Proof.
  unfold int_of_float. destruct (to_int q) eqn:E; [| discriminate].
  intros H. inversion H; subst. now apply to_int_range in E.
Qed.

Lemma int_of_float_fits (q : float) :
  INT_MIN <= trunc q <= INT_MAX -> int_of_float q = Ok (trunc q).
Proof.
  intros H. unfold int_of_float, to_int.
  rewrite (proj2 (andb_true_iff _ _)); [reflexivity |].
  split; apply Z.leb_le; lia.
Qed.

(** *** Vertices and their cells *)

Lemma trunc_mono (a b : float) : (a <= b)%Q -> trunc a <= trunc b.
Proof.
  destruct a as [n d], b as [n' d']. unfold trunc, Qle. simpl. intros H.
  rewrite <- (Z.quot_mul_cancel_r n (Zpos d) (Zpos d')) by lia.
  rewrite <- (Z.quot_mul_cancel_r n' (Zpos d') (Zpos d)) by lia.
  rewrite (Z.mul_comm (Zpos d') (Zpos d)).
  apply Z.quot_le_mono; lia.
Qed.

Lemma fdiv_mono (a b res : float) :
  (0 < res)%Q -> (a <= b)%Q -> (fdiv a res <= fdiv b res)%Q.
Proof.
  intros Hres Hab. apply round32_mono.
  apply Qmult_le_compat_r; [exact Hab |].
  apply Qlt_le_weak, Qinv_lt_0_compat. exact Hres.
Qed.

Lemma fsub_mono (a b lo : float) :
  (a <= b)%Q -> (fsub a lo <= fsub b lo)%Q.
Proof. intros H. apply round32_mono. lra. Qed.

Lemma cell_x_value aabb args w v x :
  cell_x aabb args w v = Ok x ->
  x = trunc (fdiv (fsub (c0 v) (c0 (aabb_min aabb))) (resolution args)).
Proof.
  unfold cell_x.
  destruct (quotient _ _) as [q |] eqn:Eq; simpl; [| discriminate].
  apply quotient_value in Eq. destruct Eq as (-> & _).
  destruct (int_of_float _) as [x' |] eqn:E; simpl; [| discriminate].
  destruct ((0 <=? x') && (x' <? w)); simpl; [| discriminate].
  intros H. inversion H; subst. now apply int_of_float_trunc.
Qed.

Lemma cell_y_value aabb args h v y :
  cell_y aabb args h v = Ok y ->
  y = trunc (fdiv (fsub (c1 v) (c1 (aabb_min aabb))) (resolution args)).
Proof.
  unfold cell_y.
  destruct (quotient _ _) as [q |] eqn:Eq; simpl; [| discriminate].
  apply quotient_value in Eq. destruct Eq as (-> & _).
  destruct (int_of_float _) as [y' |] eqn:E; simpl; [| discriminate].
  destruct ((0 <=? y') && (y' <? h)); simpl; [| discriminate].
  intros H. inversion H; subst. now apply int_of_float_trunc.
Qed.

Lemma cell_of_corner (lo v res : float) :
  (v == lo)%Q -> trunc (fdiv (fsub v lo) res) = 0.
Proof.
  intros H. unfold fdiv.
  rewrite (round32_comp (fsub v lo / res) 0); [reflexivity |].
  rewrite (fsub_self v lo H). unfold Qdiv. ring.
Qed.

(** X10.  The rasterisation keeps the order of the vertices along each
    planar axis, every rounding included: of two vertices that both get
    a cell, the one that is not before the other along an axis gets a
    cell that is not before the other's; and a vertex on the lower
    corner of the box gets cell 0. *)
Theorem cells_keep_order aabb args w h v v' x y x' y' :
  cell_x aabb args w v = Ok x -> cell_y aabb args h v = Ok y ->
  cell_x aabb args w v' = Ok x' -> cell_y aabb args h v' = Ok y' ->
  (0 < resolution args)%Q ->
  ((c0 v <= c0 v')%Q -> x <= x')
  /\ ((c1 v <= c1 v')%Q -> y <= y')
  /\ ((c0 v == c0 (aabb_min aabb))%Q -> x = 0)
  /\ ((c1 v == c1 (aabb_min aabb))%Q -> y = 0).
Proof.
  intros Hx Hy Hx' Hy' Hres.
  apply cell_x_value in Hx, Hx'. apply cell_y_value in Hy, Hy'.
  subst x y x' y'.
  split; [| split; [| split]].
  - intros H. apply trunc_mono, fdiv_mono; [exact Hres |].
    apply fsub_mono. exact H.
  - intros H. apply trunc_mono, fdiv_mono; [exact Hres |].
    apply fsub_mono. exact H.
  - apply cell_of_corner.
  - apply cell_of_corner.
Qed.

(** At the resolution 0.1f the vertex at 0.7f goes to cell 7, after the
    corner in cell 0. *)
Lemma cells_keep_order_tenth :
  let aabb := calculate_aabb Scenes.tenth_mesh in
  let v := mkVec3f 0%Q 0%Q 0%Q in
  let v' := mkVec3f (round32 (7 # 10)) (round32 (7 # 10)) 0%Q in
  cell_x aabb Scenes.tenth_args 11 v = Ok 0
  /\ cell_x aabb Scenes.tenth_args 11 v' = Ok 7
  /\ 0 <= 7.
Proof.
  intros aabb v v'.
  assert (cell_x aabb Scenes.tenth_args 11 v = Ok 0) as E0
    by (vm_compute; reflexivity).
  assert (cell_x aabb Scenes.tenth_args 11 v' = Ok 7) as E7
    by (vm_compute; reflexivity).
  split; [exact E0 |]. split; [exact E7 |].
  destruct (cells_keep_order aabb Scenes.tenth_args 11 11 v v' 0 0 7 7)
    as (Hle & _);
    [exact E0 | vm_compute; reflexivity | exact E7
     | vm_compute; reflexivity | vm_compute; reflexivity |].
  apply Hle. vm_compute. discriminate.
Defined.

(** *** The assertions of the rasterisation *)

(** The sum [q + 1.0f] reaches the next integer above [q] as long as
    that integer is a binary32 number. *)
Lemma dimension_lower (q : float) :
  (0 <= q)%Q -> Qfloor q <= 2 ^ 24 - 1 ->
  Qfloor q + 1 <= Qfloor (fadd q 1%Q).
Proof.
  intros Hq Hsmall. pose proof (Qfloor_le q) as Hf.
  assert (0 <= Qfloor q) as Hf0.
  { rewrite <- (Qfloor_Z 0). apply Qfloor_resp_le. exact Hq. }
  rewrite <- (Qfloor_Z (Qfloor q + 1)) at 1. apply Qfloor_resp_le.
  rewrite <- (round32_int (Qfloor q + 1)) by lia.
  apply round32_mono. rewrite inject_Z_plus.
  change (inject_Z 1) with 1%Q. lra.
Qed.

Lemma dimension_large (q : float) :
  2 ^ 24 <= Qfloor q -> 2 ^ 24 <= Qfloor (fadd q 1%Q).
Proof.
  intros Hbig. pose proof (Qfloor_le q) as Hf.
  assert (inject_Z (2 ^ 24) <= q)%Q as Hq.
  { eapply Qle_trans; [| exact Hf]. rewrite <- Zle_Qle. exact Hbig. }
  rewrite <- (Qfloor_Z (2 ^ 24)) at 1. apply Qfloor_resp_le.
  rewrite <- (round32_int (2 ^ 24)) by lia.
  apply round32_mono. lra.
Qed.

(** Between the corners of an axis of fewer than [2^24] cells, the
    conversion of a vertex passes its range assertion. *)
Lemma cell_fits (lo hi v res : float) (w : Z) :
  (0 < res)%Q -> (lo <= v)%Q -> (v <= hi)%Q ->
  (let* q := quotient (fsub hi lo) res in int_of_float (fadd q 1%Q))
  = Ok w ->
  w < 2 ^ 24 ->
  exists x,
    (let* q := quotient (fsub v lo) res in
     let* x := int_of_float q in
     let* ok := assert ((0 <=? x) && (x <? w)) in
     Ok x) = Ok x.
Proof.
  intros Hres Hlo Hhi Hw Hsmall.
  destruct (quotient (fsub hi lo) res) as [qw |] eqn:Eq; simpl in Hw;
    [| discriminate].
  apply quotient_value in Eq. destruct Eq as (-> & Hne & Hfin).
  pose proof (int_of_float_range _ _ Hw) as Hrange.
  apply int_of_float_trunc in Hw.
  set (qw := fdiv (fsub hi lo) res) in *.
  set (qx := fdiv (fsub v lo) res).
  assert (0 <= fsub v lo)%Q as Ha by (apply fsub_nonneg; exact Hlo).
  assert (fsub v lo <= fsub hi lo)%Q as Hab by (apply fsub_mono; exact Hhi).
  assert (0 <= qx)%Q as Hqx by (apply fdiv_nonneg; assumption).
  assert (qx <= qw)%Q as Hle by (apply fdiv_mono; assumption).
  assert (0 <= fadd qw 1)%Q as Hs by (apply round32_sign; lra).
  rewrite trunc_nonneg in Hw by exact Hs.
  assert (Qfloor qw + 1 <= w) as Hroom.
  { destruct (Z_le_gt_dec (Qfloor qw) (2 ^ 24 - 1)) as [H | H].
    - subst w. apply dimension_lower; [lra | exact H].
    - pose proof (dimension_large qw ltac:(lia)). lia. }
  assert (0 <= Qfloor qx <= Qfloor qw) as Hx.
  { split; [rewrite <- (Qfloor_Z 0) |]; apply Qfloor_resp_le; assumption. }
  assert (quotient (fsub v lo) res = Ok qx) as ->.
  { unfold quotient, eqb, std_abs.
    destruct (Qeq_bool res 0) eqn:E0;
      [apply Qeq_bool_iff in E0; contradiction |].
    simpl.
    rewrite (proj2 (ltb_ge FLT_MAX (Qabs (fsub v lo)))); [reflexivity |].
    rewrite Qabs_pos by exact Ha. rewrite Qabs_pos in Hfin by lra. lra. }
  simpl. exists (trunc qx).
  rewrite int_of_float_fits
    by (rewrite trunc_nonneg by exact Hqx; unfold INT_MIN, INT_MAX in *;
        lia).
  simpl. rewrite trunc_nonneg by exact Hqx.
  rewrite (proj2 (andb_true_iff _ _))
    by (split; [apply Z.leb_le | apply Z.ltb_lt]; lia).
  reflexivity.
Qed.

Lemma rasterize_vertex_passes aabb args w h hmap v :
  (0 < resolution args)%Q ->
  grid_width aabb args = Ok w -> grid_height aabb args = Ok h ->
  w < 2 ^ 24 -> h < 2 ^ 24 ->
  inside_footprint aabb v ->
  exists hmap', rasterize_vertex aabb args w h hmap v = Ok hmap'.
Proof.
  intros Hres Hw Hh Hws Hhs (Hx0 & Hx1 & Hy0 & Hy1).
  unfold grid_width in Hw. unfold grid_height in Hh.
  destruct (cell_fits _ _ _ _ _ Hres Hx0 Hx1 Hw Hws) as (x & Ex).
  destruct (cell_fits _ _ _ _ _ Hres Hy0 Hy1 Hh Hhs) as (y & Ey).
  unfold rasterize_vertex, cell_x, cell_y. rewrite Ex, Ey. simpl.
  destruct (ltb _ _); eauto.
Qed.

Lemma rasterize_passes aabb args w h verts :
  (0 < resolution args)%Q ->
  grid_width aabb args = Ok w -> grid_height aabb args = Ok h ->
  w < 2 ^ 24 -> h < 2 ^ 24 ->
  Forall (inside_footprint aabb) verts ->
  forall hmap, exists hmap', rasterize aabb args w h hmap verts = Ok hmap'.
Proof.
  intros Hres Hw Hh Hws Hhs Hall.
  induction Hall as [| v verts Hv _ IH]; intros hmap; simpl.
  - eauto.
  - destruct (rasterize_vertex_passes aabb args w h hmap v Hres Hw Hh
                Hws Hhs Hv) as (hmap' & ->).
    simpl. apply IH.
Qed.

(** X11.  With a positive resolution and the width and height [main]
    computes for a box, each below [2^24], the rasterisation of vertices
    that the box holds in x and y passes every range assertion and every
    conversion, whatever the roundings: the height map is built. *)
Theorem rasterisation_passes_assertions aabb args w h verts :
  (0 < resolution args)%Q ->
  grid_width aabb args = Ok w -> grid_height aabb args = Ok h ->
  w < 2 ^ 24 -> h < 2 ^ 24 ->
  Forall (inside_footprint aabb) verts ->
  exists raw, build_height_map aabb args w h verts = Ok raw.
Proof.
  intros Hres Hw Hh Hws Hhs Hall. unfold build_height_map.
  apply (rasterize_passes aabb args w h verts Hres Hw Hh Hws Hhs Hall).
Qed.

Lemma rasterisation_passes_assertions_tenth :
  exists raw,
    build_height_map (calculate_aabb Scenes.tenth_mesh) Scenes.tenth_args
                     11 11 Scenes.tenth_mesh = Ok raw.
Proof.
  apply (rasterisation_passes_assertions
           (calculate_aabb Scenes.tenth_mesh) Scenes.tenth_args 11 11
           Scenes.tenth_mesh).
  - vm_compute. reflexivity.
  - vm_compute. reflexivity.
  - vm_compute. reflexivity.
  - lia.
  - lia.
  - unfold Scenes.tenth_mesh.
    repeat constructor; vm_compute; discriminate.
Defined.

(** On an axis of [2^24] units at resolution 1 the sum [2^24 + 1.0f] is
    rounded back to [2^24]: the width is [2^24], the vertex on the upper
    corner is converted to [2^24] as well, and its range assertion
    fails. *)
Lemma absorbed_sum_fails_assertion :
  grid_width Scenes.wide_box default_arguments = Ok (2 ^ 24)
  /\ cell_x Scenes.wide_box default_arguments (2 ^ 24)
            (aabb_max Scenes.wide_box)
     = Stop AssertionFailed.
Proof. vm_compute. auto. Qed.




(** *** The list of sample positions *)

Lemma NoDup_column_samples hmap args ground_level depth x y :
  NoDup (column_samples hmap args ground_level depth x y).
Proof.
  unfold column_samples. apply NoDup_bind; [| | apply NoDup_seqZ].
  - intros z1 z2 p _ _ H1 H2.
    destruct (ltb _ _); [inversion H1 |].
    destruct (ltb _ _); [inversion H2 |].
    apply list_elem_of_singleton in H1, H2. congruence.
  - intros z _. destruct (ltb _ _); [constructor | apply NoDup_singleton].
Qed.

Lemma NoDup_enumerate_samples hmap args ground_level w h d :
  NoDup (enumerate_samples hmap args ground_level w h d).
Proof.
  unfold enumerate_samples. apply NoDup_bind; [| | apply NoDup_seqZ].
  - intros y1 y2 p _ _ H1 H2.
    apply list_elem_of_bind in H1, H2.
    destruct H1 as (x1 & H1 & _). destruct H2 as (x2 & H2 & _).
    apply elem_of_column_samples in H1, H2.
    destruct H1 as (z1 & -> & _). destruct H2 as (z2 & E & _).
    congruence.
  - intros y _. apply NoDup_bind; [| | apply NoDup_seqZ].
    + intros x1 x2 p _ _ H1 H2.
      apply elem_of_column_samples in H1, H2.
      destruct H1 as (z1 & -> & _). destruct H2 as (z2 & E & _).
      congruence.
    + intros x _. apply NoDup_column_samples.
Qed.

Lemma length_bind_le {A B : Type} (f : A -> list B) (n : nat) (l : list A) :
  (forall a, a ∈ l -> (length (f a) <= n)%nat) ->
  (length (l ≫= f) <= length l * n)%nat.
Proof.
  induction l as [| a l IH]; intros Hf; [simpl; lia |].
  rewrite bind_cons, length_app. simpl.
  specialize (Hf a ltac:(left)) as Ha.
  specialize (IH ltac:(intros b Hb; apply Hf; now right)). lia.
Qed.

Lemma size_sample_volume f (l : list Vec3u) : forall vol,
  NoDup l -> (forall p, p ∈ l -> vol_images vol !! p = None) ->
  size (vol_images (sample_volume f vol l))
  = (size (vol_images vol) + length l)%nat.
Proof.
  unfold sample_volume.
  induction l as [| p l IH]; intros vol Hnd Hfresh; simpl; [lia |].
  apply NoDup_cons in Hnd. destruct Hnd as [Hp Hnd].
  rewrite IH; [| exact Hnd |].
  - simpl. rewrite map_size_insert_None by (apply Hfresh; left). lia.
  - intros q Hq. simpl. rewrite lookup_insert_ne by congruence.
    apply Hfresh. now right.
Qed.

(** X13.  The sample positions [main] enumerates are pairwise distinct
    and inside the grid, there are at most [width * height * depth] of
    them (the room [main] reserves), and after the sampling loop the
    volume of a finished run owns exactly one image per sample
    position. *)
Theorem samples_distinct_and_counted f args verts allocs o :
  main f args verts = (allocs, Ok o) ->
  0 <= out_width o -> 0 <= out_height o -> 0 <= out_depth o ->
  NoDup (out_samples o)
  /\ (forall x y z, (x, y, z) ∈ out_samples o ->
        0 <= x < out_width o /\ 0 <= y < out_height o
        /\ 0 <= z < out_depth o)
  /\ Z.of_nat (length (out_samples o))
     <= out_width o * out_height o * out_depth o
  /\ size (vol_images (out_volume o)) = length (out_samples o).
Proof.
  intros Hrun Hw Hh Hd.
  destruct (main_finished _ _ _ _ _ Hrun)
    as (_ & _ & _ & _ & _ & _ & _ & _ & Hs & Hv & _).
  split; [rewrite Hs; apply NoDup_enumerate_samples |]. split.
  - intros x y z Hin. rewrite Hs in Hin.
    apply elem_of_enumerate_samples in Hin. tauto.
  - split.
    + rewrite Hs. unfold enumerate_samples.
      assert (length
                (seqZ 0 (out_height o) ≫= fun y =>
                 seqZ 0 (out_width o) ≫= fun x =>
                 column_samples (out_hmap o) args (out_ground_level o)
                                (out_depth o) x y)
              <= Z.to_nat (out_height o)
                 * (Z.to_nat (out_width o) * Z.to_nat (out_depth o)))%nat
        as Hlen.
      { rewrite <- (length_seqZ 0 (out_height o)) at 1.
        apply length_bind_le. intros y _.
        rewrite <- (length_seqZ 0 (out_width o)) at 1.
        apply length_bind_le. intros x _.
        unfold column_samples.
        rewrite <- (Nat.mul_1_r (Z.to_nat (out_depth o))).
        rewrite <- (length_seqZ 0 (out_depth o)) at 1.
        apply length_bind_le. intros z _.
        destruct (ltb _ _); simpl; lia. }
      nia.
    + rewrite Hv, size_sample_volume.
      * simpl. rewrite map_size_empty. reflexivity.
      * rewrite Hs. apply NoDup_enumerate_samples.
      * intros p _. apply lookup_empty.
Qed.

Lemma samples_distinct_and_counted_pit :
  match
    snd (main Scenes.flat_histogram Scenes.pit_args Scenes.pit_mesh)
  with
  | Ok o =>
      NoDup (out_samples o)
      /\ Z.of_nat (length (out_samples o)) <= 11
      /\ size (vol_images (out_volume o)) = length (out_samples o)
  | Stop _ => False
  end.
Proof.
  destruct pit_run as (allocs & o & E & Ew & Eh & Ed).
  rewrite E. simpl.
  destruct (samples_distinct_and_counted _ _ _ _ _ E)
    as (Hnd & _ & Hlen & Hsize); [lia | lia | lia |].
  rewrite Ew, Eh, Ed in Hlen. split; [exact Hnd |].
  split; [lia | exact Hsize].
Defined.

End SamplerMore.

(** ** More facts about the trajectory evaluator *)

Module EvaluateMore.

Import Evaluate EvaluateSpec EvaluateFacts EvaluateMoreSpec.

Lemma slot_plain dir_hist n r j :
  well_formed dir_hist n -> 0 <= r < max_rows dir_hist ->
  slot dir_hist r j = r * stride_of dir_hist + j.
Proof.
  intros (Hn & Hmax & Hprod & _) Hr. unfold slot, uint32.
  rewrite Z.mod_small; [reflexivity | nia].
Qed.

Lemma slot_inj dir_hist n r j r' j' :
  well_formed dir_hist n ->
  0 <= r < max_rows dir_hist -> 0 <= r' < max_rows dir_hist ->
  0 <= j < n -> 0 <= j' < n ->
  slot dir_hist r j = slot dir_hist r' j' -> r = r' /\ j = j'.
Proof.
  intros Hwf Hr Hr' Hj Hj' H.
  rewrite (slot_plain _ n) in H by assumption.
  rewrite (slot_plain _ n) in H by assumption.
  destruct Hwf as (Hn & _).
  assert (r = r') by nia. subst. lia.
Qed.

Lemma slot_in_buffer dir_hist n r j :
  well_formed dir_hist n -> 0 <= r < max_rows dir_hist -> 0 <= j < n ->
  0 <= slot dir_hist r j
  /\ (Z.to_nat (slot dir_hist r j) < length (data_ptr dir_hist))%nat.
Proof.
  intros Hwf Hr Hj. rewrite (slot_plain _ n) by assumption.
  destruct Hwf as (Hn & Hmax & Hprod & _ & Hdata & _).
  assert (0 <= r * stride_of dir_hist + j) as H0 by nia.
  split; [exact H0 |].
  assert (r * stride_of dir_hist + j
          < max_rows dir_hist * stride_of dir_hist) as H1 by nia.
  apply Nat.lt_le_trans with (Z.to_nat (max_rows dir_hist
                                        * stride_of dir_hist));
    [| exact Hdata].
  apply Z2Nat.inj_lt; lia.
Qed.

Section Rows.

Variable norm : Vec3f -> float.
Variable atan2 : float -> float -> float.
Variable acos : float -> float.
Variable bvh_tree : BVHTree.
Variable cloud : PointCloud.

Local Abbreviation sees := (EvaluateMoreSpec.sees norm bvh_tree cloud).
Local Abbreviation direction_to :=
  (EvaluateMoreSpec.direction_to norm atan2 acos cloud).
Local Abbreviation appends := (EvaluateMoreSpec.appends norm bvh_tree cloud).
Local Abbreviation step :=
  (EvaluateMoreSpec.step norm atan2 acos bvh_tree cloud).
Local Abbreviation seen_by := (EvaluateMoreSpec.seen_by norm bvh_tree cloud).

Lemma step_fields cam dir_hist i :
  max_rows (step cam dir_hist i) = max_rows dir_hist
  /\ pitch (step cam dir_hist i) = pitch dir_hist
  /\ length (num_rows_ptr (step cam dir_hist i))
     = length (num_rows_ptr dir_hist)
  /\ length (data_ptr (step cam dir_hist i)) = length (data_ptr dir_hist).
Proof.
  unfold EvaluateMoreSpec.step, visit_point.
  destruct (out_of_bounds _); [auto |].
  destruct (intersect _ _); [auto |].
  destruct (_ <=? _); [auto |].
  simpl. rewrite !length_insert. auto.
Qed.

Lemma step_well_formed cam dir_hist n i :
  well_formed dir_hist n -> well_formed (step cam dir_hist i) n.
Proof.
  intros (Hn & Hmax & Hprod & Hrows & Hdata & Hb).
  destruct (step_fields cam dir_hist i) as (Em & Ep & Er & Ed).
  unfold well_formed, stride_of in *. rewrite Em, Ep, Er, Ed.
  repeat split; try assumption; try lia.
  unfold EvaluateMoreSpec.step. apply visit_point_bounded. exact Hb.
Qed.

Lemma step_idle cam dir_hist i :
  appends cam dir_hist i = false -> step cam dir_hist i = dir_hist.
Proof.
  unfold EvaluateMoreSpec.appends, EvaluateMoreSpec.sees,
    EvaluateMoreSpec.step. intros H.
  apply visit_point_discards. rewrite visit_point_verdict.
  destruct (out_of_bounds _); [discriminate |].
  destruct (intersect _ _); [discriminate |].
  simpl in H. apply Z.ltb_ge in H.
  rewrite (proj2 (Z.leb_le _ _) H). discriminate.
Qed.

(** What the body of the loop does at point [i] to the count and to the
    rows of every point. *)
Lemma step_effect cam dir_hist n i :
  well_formed dir_hist n -> 0 <= i < n ->
  (forall j, 0 <= j < n ->
     num_rows_at (step cam dir_hist i) j
     = if (j =? i) && appends cam dir_hist i
       then num_rows_at dir_hist j + 1 else num_rows_at dir_hist j)
  /\ (forall j r, 0 <= j < n -> 0 <= r < max_rows dir_hist ->
       row_at (step cam dir_hist i) r j
       = if (j =? i) && (r =? num_rows_at dir_hist i)
            && appends cam dir_hist i
         then direction_to cam i else row_at dir_hist r j).
Proof.
  intros Hwf Hi.
  destruct (appends cam dir_hist i) eqn:Happ.
  2:{ rewrite (step_idle _ _ _ Happ). split.
      - intros j _. rewrite andb_false_r. reflexivity.
      - intros j r _ _. rewrite andb_false_r. reflexivity. }
  pose proof Hwf as (Hn & Hmax & Hprod & Hrows & Hdata & Hb).
  unfold EvaluateMoreSpec.appends, EvaluateMoreSpec.sees in Happ.
  apply andb_true_iff in Happ. destruct Happ as [Hsees Hroom].
  apply andb_true_iff in Hsees. destruct Hsees as [Hin Hclear].
  apply negb_true_iff in Hin, Hclear. apply Z.ltb_lt in Hroom.
  pose proof (num_rows_at_bounded dir_hist i ltac:(lia) Hb) as Hrow.
  destruct (visit_point_appends norm atan2 acos
              (fill_calibration cam width height) (fill_world_to_cam cam)
              (fill_camera_pos cam) bvh_tree cloud dir_hist i
              Hin Hclear Hroom ltac:(lia) ltac:(lia) ltac:(lia)
              ltac:(lia)) as (Hcount & Hothers & Hbuf).
  fold (step cam dir_hist i) in Hcount, Hothers, Hbuf.
  split.
  - intros j Hj. rewrite andb_true_r.
    destruct (j =? i) eqn:E.
    + apply Z.eqb_eq in E. subst j. exact Hcount.
    + apply Z.eqb_neq in E. apply Hothers; lia.
  - intros j r Hj Hr. rewrite andb_true_r.
    unfold row_at, data_at.
    destruct (step_fields cam dir_hist i) as (_ & Ep & _).
    assert (slot (step cam dir_hist i) r j = slot dir_hist r j) as ->
      by (unfold slot, stride_of; rewrite Ep; reflexivity).
    rewrite Hbuf.
    destruct (slot_in_buffer dir_hist n (num_rows_at dir_hist i) i Hwf
                ltac:(lia) Hi) as [Hs0 Hslen].
    destruct (slot_in_buffer dir_hist n r j Hwf Hr Hj) as [Hs0' _].
    destruct ((j =? i) && (r =? num_rows_at dir_hist i)) eqn:E.
    + apply andb_true_iff in E. destruct E as [Ej Er].
      apply Z.eqb_eq in Ej, Er. subst j r.
      rewrite list_lookup_insert_eq by exact Hslen. reflexivity.
    + rewrite list_lookup_insert_ne; [reflexivity |].
      intros Heq. apply Z2Nat.inj in Heq; [| lia | lia].
      symmetry in Heq.
      apply (slot_inj dir_hist n) in Heq; try assumption; [| lia].
      destruct Heq as [-> ->]. rewrite !Z.eqb_refl in E. discriminate.
Qed.

(** One pass over a list of distinct points. *)
Lemma fold_step_effect cam n (l : list Z) : forall dir_hist,
  well_formed dir_hist n -> NoDup l -> (forall i, i ∈ l -> 0 <= i < n) ->
  let after := fold_left (step cam) l dir_hist in
  well_formed after n
  /\ max_rows after = max_rows dir_hist
  /\ (forall j, 0 <= j < n ->
       num_rows_at after j
       = if bool_decide (j ∈ l) && appends cam dir_hist j
         then num_rows_at dir_hist j + 1 else num_rows_at dir_hist j)
  /\ (forall j r, 0 <= j < n -> 0 <= r < max_rows dir_hist ->
       row_at after r j
       = if bool_decide (j ∈ l) && (r =? num_rows_at dir_hist j)
            && appends cam dir_hist j
         then direction_to cam j else row_at dir_hist r j).
Proof.
  induction l as [| i l IH]; intros dir_hist Hwf Hnd Hl after.
  - unfold after. simpl. split; [exact Hwf |]. split; [reflexivity |].
    split; intros; reflexivity.
  - apply NoDup_cons in Hnd. destruct Hnd as [Hi Hnd].
    assert (0 <= i < n) as Hin by (apply Hl; left).
    pose proof (step_well_formed cam dir_hist n i Hwf) as Hwf1.
    destruct (step_fields cam dir_hist i) as (Em & _).
    destruct (step_effect cam dir_hist n i Hwf Hin) as [Hc1 Hr1].
    destruct (IH (step cam dir_hist i) Hwf1 Hnd
                 ltac:(intros k Hk; apply Hl; now right))
      as (Hwf' & Em' & Hc' & Hr').
    unfold after. simpl.
    split; [exact Hwf' |]. split; [congruence |].
    assert (forall j, 0 <= j < n -> j <> i ->
              num_rows_at (step cam dir_hist i) j = num_rows_at dir_hist j
              /\ appends cam (step cam dir_hist i) j
                 = appends cam dir_hist j) as Hother.
    { intros j Hj Hne. rewrite (Hc1 j Hj).
      rewrite (proj2 (Z.eqb_neq j i) Hne). simpl.
      split; [reflexivity |]. unfold EvaluateMoreSpec.appends.
      rewrite Em, (Hc1 j Hj), (proj2 (Z.eqb_neq j i) Hne). reflexivity. }
    split.
    + intros j Hj. rewrite (Hc' j Hj).
      destruct (decide (j = i)) as [-> | Hne].
      * rewrite (bool_decide_eq_false_2 _ Hi). simpl.
        rewrite (bool_decide_eq_true_2 (i ∈ i :: l)) by left. simpl.
        rewrite (Hc1 i Hj), Z.eqb_refl. reflexivity.
      * destruct (Hother j Hj Hne) as [-> ->].
        destruct (decide (j ∈ l)) as [Hjl | Hjl].
        -- rewrite (bool_decide_eq_true_2 _ Hjl).
           rewrite (bool_decide_eq_true_2 (j ∈ i :: l)) by now right.
           reflexivity.
        -- rewrite (bool_decide_eq_false_2 _ Hjl).
           rewrite (bool_decide_eq_false_2 (j ∈ i :: l)); [reflexivity |].
           intros H. apply elem_of_cons in H. tauto.
    + intros j r Hj Hr. rewrite (Hr' j r Hj) by (rewrite Em; exact Hr).
      destruct (decide (j = i)) as [-> | Hne].
      * rewrite (bool_decide_eq_false_2 _ Hi). simpl.
        rewrite (bool_decide_eq_true_2 (i ∈ i :: l)) by left. simpl.
        rewrite (Hr1 i r Hj Hr), Z.eqb_refl. reflexivity.
      * destruct (Hother j Hj Hne) as [-> ->].
        rewrite (Hr1 j r Hj Hr), (proj2 (Z.eqb_neq j i) Hne). simpl.
        destruct (decide (j ∈ l)) as [Hjl | Hjl].
        -- rewrite (bool_decide_eq_true_2 _ Hjl).
           rewrite (bool_decide_eq_true_2 (j ∈ i :: l)) by now right.
           reflexivity.
        -- rewrite (bool_decide_eq_false_2 _ Hjl).
           rewrite (bool_decide_eq_false_2 (j ∈ i :: l)); [reflexivity |].
           intros H. apply elem_of_cons in H. tauto.
Qed.

(** The loop over the points for one camera: a point the camera sees
    receives one row, in its next free row, when it has room; nothing
    else changes. *)
Lemma visit_camera_effect cam dir_hist :
  well_formed dir_hist (num_vertices cloud) ->
  let after := visit_camera norm atan2 acos bvh_tree cloud dir_hist cam in
  well_formed after (num_vertices cloud)
  /\ max_rows after = max_rows dir_hist
  /\ (forall j, 0 <= j < num_vertices cloud ->
       num_rows_at after j
       = if appends cam dir_hist j
         then num_rows_at dir_hist j + 1 else num_rows_at dir_hist j)
  /\ (forall j r, 0 <= j < num_vertices cloud ->
       0 <= r < max_rows dir_hist ->
       row_at after r j
       = if (r =? num_rows_at dir_hist j) && appends cam dir_hist j
         then direction_to cam j else row_at dir_hist r j).
Proof.
  intros Hwf after.
  destruct (fold_step_effect cam (num_vertices cloud)
              (seqZ 0 (num_vertices cloud)) dir_hist Hwf
              (NoDup_seqZ _ _)
              ltac:(intros i Hi; apply elem_of_seqZ in Hi; lia))
    as (Hwf' & Em & Hc & Hr).
  change (fold_left (step cam) (seqZ 0 (num_vertices cloud)) dir_hist)
    with after in Hwf', Em, Hc, Hr.
  split; [exact Hwf' |]. split; [exact Em |]. split.
  - intros j Hj. rewrite (Hc j Hj).
    rewrite bool_decide_eq_true_2 by (apply elem_of_seqZ; lia).
    reflexivity.
  - intros j r Hj Hr0. rewrite (Hr j r Hj Hr0).
    rewrite bool_decide_eq_true_2 by (apply elem_of_seqZ; lia).
    reflexivity.
Qed.

(** The rows of a point after a trajectory. *)
Lemma accumulate_effect (trajectory : list CameraInfo) i :
  0 <= i < num_vertices cloud ->
  forall dir_hist,
  well_formed dir_hist (num_vertices cloud) ->
  let final :=
    accumulate norm atan2 acos bvh_tree cloud trajectory dir_hist in
  let q := seen_by i trajectory in
  let c0 := num_rows_at dir_hist i in
  num_rows_at final i
  = Z.min (max_rows dir_hist) (c0 + Z.of_nat (length q))
  /\ (forall r, 0 <= r < c0 -> row_at final r i = row_at dir_hist r i)
  /\ (forall k cam, q !! k = Some cam ->
       c0 + Z.of_nat k < max_rows dir_hist ->
       row_at final (c0 + Z.of_nat k) i = direction_to cam i)
  /\ (forall r, c0 + Z.of_nat (length q) <= r < max_rows dir_hist ->
       row_at final r i = row_at dir_hist r i).
Proof.
  intros Hi.
  induction trajectory as [| cam rest IH]; intros dir_hist Hwf final q c0.
  - unfold final, q. simpl.
    pose proof Hwf as (_ & Hmax & _ & _ & _ & Hb).
    pose proof (num_rows_at_bounded dir_hist i ltac:(lia) Hb) as Hc0.
    fold c0 in Hc0.
    split; [lia |]. split; [reflexivity |]. split; [| reflexivity].
    intros k cam Hk. inversion Hk.
  - pose proof Hwf as (_ & Hmax & _ & _ & _ & Hb).
    pose proof (num_rows_at_bounded dir_hist i ltac:(lia) Hb) as Hc0.
    fold c0 in Hc0.
    destruct (visit_camera_effect cam dir_hist Hwf)
      as (Hwf1 & Em1 & Hc1 & Hr1).
    set (dh1 := visit_camera norm atan2 acos bvh_tree cloud dir_hist cam)
      in *.
    destruct (IH dh1 Hwf1) as (Hcount & Hkeep & Hnew & Hrest).
    change (accumulate norm atan2 acos bvh_tree cloud rest dh1)
      with final in Hcount, Hkeep, Hnew, Hrest.
    rewrite Em1 in Hcount, Hnew, Hrest.
    specialize (Hc1 i Hi). fold c0 in Hc1.
    assert (forall r, 0 <= r < max_rows dir_hist ->
              row_at dh1 r i
              = if (r =? c0) && appends cam dir_hist i
                then direction_to cam i else row_at dir_hist r i) as Hr1i
      by (intros r Hr; apply (Hr1 i r Hi Hr)).
    unfold q, EvaluateMoreSpec.seen_by. simpl. fold (seen_by i rest).
    set (q' := seen_by i rest) in *.
    destruct (appends cam dir_hist i) eqn:Happ.
    + (* the camera sees the point and the point has room *)
      assert (sees cam i = true /\ c0 < max_rows dir_hist) as [Hs Hroom].
      { unfold EvaluateMoreSpec.appends in Happ.
        apply andb_true_iff in Happ.
        destruct Happ as [Hs Hroom]. apply Z.ltb_lt in Hroom. auto. }
      rewrite Hs. simpl length. rewrite Hc1 in *.
      split; [rewrite Hcount; lia |]. split.
      * intros r Hr. rewrite Hkeep by lia. rewrite Hr1i by lia.
        rewrite (proj2 (Z.eqb_neq r c0)) by lia. reflexivity.
      * split.
        -- intros k cam' Hk Hlt. destruct k as [| k]; simpl in Hk.
           ++ inversion Hk; subst cam'.
              replace (c0 + Z.of_nat 0) with c0 by lia.
              rewrite Hkeep by lia. rewrite Hr1i by lia.
              rewrite Z.eqb_refl. reflexivity.
           ++ replace (c0 + Z.of_nat (S k)) with (c0 + 1 + Z.of_nat k)
                by lia.
              apply Hnew; [exact Hk | lia].
        -- intros r Hr. rewrite Hrest by lia. rewrite Hr1i by lia.
           rewrite (proj2 (Z.eqb_neq r c0)) by lia. reflexivity.
    + (* the store is left alone in the column of the point *)
      rewrite Hc1 in *.
      assert (forall r, 0 <= r < max_rows dir_hist ->
                row_at dh1 r i = row_at dir_hist r i) as Hsame.
      { intros r Hr. rewrite Hr1i by exact Hr.
        rewrite andb_false_r. reflexivity. }
      destruct (sees cam i) eqn:Hs.
      * (* seen, and full *)
        assert (c0 = max_rows dir_hist) as Hfull.
        { unfold EvaluateMoreSpec.appends in Happ. rewrite Hs in Happ.
          simpl in Happ.
          apply Z.ltb_ge in Happ. fold c0 in Happ. lia. }
        simpl length.
        split; [rewrite Hcount; lia |]. split.
        -- intros r Hr. rewrite Hkeep by lia. apply Hsame. lia.
        -- split.
           ++ intros k cam' Hk Hlt. lia.
           ++ intros r Hr. lia.
      * split; [exact Hcount |]. split.
        -- intros r Hr. rewrite Hkeep by lia. apply Hsame. lia.
        -- split.
           ++ intros k cam' Hk Hlt. apply Hnew; assumption.
           ++ intros r Hr. rewrite Hrest by lia. apply Hsame. lia.
Qed.

End Rows.

(** X15.  For every store whose slots are distinct and every trajectory:
    the rows a point already holds are never overwritten, its count never
    decreases and never exceeds [max_rows], and the rows beyond those the
    trajectory fills stay as they were. *)
Theorem stored_rows_survive norm atan2 acos bvh_tree cloud trajectory
    dir_hist i :
  0 <= i < num_vertices cloud ->
  well_formed dir_hist (num_vertices cloud) ->
  let final :=
    accumulate norm atan2 acos bvh_tree cloud trajectory dir_hist in
  num_rows_at dir_hist i <= num_rows_at final i <= max_rows dir_hist
  /\ (forall r, 0 <= r < num_rows_at dir_hist i ->
       row_at final r i = row_at dir_hist r i)
  /\ (forall r, num_rows_at final i <= r < max_rows dir_hist ->
       row_at final r i = row_at dir_hist r i).
Proof.
  intros Hi Hwf final.
  destruct (accumulate_effect norm atan2 acos bvh_tree cloud trajectory i
              Hi dir_hist Hwf) as (Hcount & Hkeep & _ & Hrest).
  fold final in Hcount, Hkeep, Hrest.
  pose proof Hwf as (_ & Hmax & _ & _ & _ & Hb).
  pose proof (num_rows_at_bounded dir_hist i ltac:(lia) Hb) as Hc0.
  split; [rewrite Hcount; lia |]. split; [exact Hkeep |].
  intros r Hr. apply Hrest. rewrite Hcount in Hr. lia.
Qed.

(** The row of the first pose is still there after twenty more. *)
Lemma stored_rows_survive_view :
  let first := snd (Views.visit [] Views.fresh_store) in
  let final :=
    accumulate Views.norm Views.atan2 Views.acos [] Views.cloud
               (replicate 20 Views.camera) first in
  row_at final 0 0 = row_at first 0 0.
Proof.
  intros first final.
  destruct (stored_rows_survive Views.norm Views.atan2 Views.acos []
              Views.cloud (replicate 20 Views.camera) first 0)
    as (_ & Hkeep & _).
  - vm_compute. split; [discriminate | reflexivity].
  - unfold well_formed. repeat split;
      try (vm_compute; first [reflexivity | discriminate | lia]).
    + unfold bounded. vm_compute. repeat constructor; discriminate.
  - apply Hkeep. vm_compute. split; [discriminate | reflexivity].
Defined.

(** *** The order of the points *)

Section Order.

Variable norm : Vec3f -> float.
Variable atan2 : float -> float -> float.
Variable acos : float -> float.
Variable bvh_tree : BVHTree.
Variable cloud : PointCloud.

Local Abbreviation sees := (EvaluateMoreSpec.sees norm bvh_tree cloud).
Local Abbreviation direction_to :=
  (EvaluateMoreSpec.direction_to norm atan2 acos cloud).
Local Abbreviation appends := (EvaluateMoreSpec.appends norm bvh_tree cloud).
Local Abbreviation step :=
  (EvaluateMoreSpec.step norm atan2 acos bvh_tree cloud).

(** The store after the body of the loop, written out. *)
Lemma step_explicit cam dir_hist n i :
  well_formed dir_hist n -> 0 <= i < n ->
  step cam dir_hist i
  = if appends cam dir_hist i
    then mkVectorArrayData (num_cols dir_hist) (max_rows dir_hist)
           (pitch dir_hist)
           (<[Z.to_nat i := num_rows_at dir_hist i + 1]>
              (num_rows_ptr dir_hist))
           (<[Z.to_nat (num_rows_at dir_hist i * stride_of dir_hist + i) :=
                direction_to cam i]> (data_ptr dir_hist))
    else dir_hist.
Proof.
  intros Hwf Hi.
  destruct (appends cam dir_hist i) eqn:Happ;
    [| apply step_idle; exact Happ].
  pose proof Hwf as (Hn & Hmax & Hprod & Hrows & Hdata & Hb).
  pose proof (num_rows_at_bounded dir_hist i ltac:(lia) Hb) as Hrow.
  unfold EvaluateMoreSpec.appends, EvaluateMoreSpec.sees in Happ.
  apply andb_true_iff in Happ. destruct Happ as [Hsees Hroom].
  apply andb_true_iff in Hsees. destruct Hsees as [Hin Hclear].
  apply negb_true_iff in Hin, Hclear. apply Z.ltb_lt in Hroom.
  unfold EvaluateMoreSpec.step, visit_point. rewrite Hin, Hclear.
  rewrite (proj2 (Z.leb_gt _ _) Hroom). cbn [snd].
  assert (Z.to_nat i < length (num_rows_ptr dir_hist))%nat as Hlen by lia.
  unfold set_num_rows, set_data, num_rows_at, slot, stride_of,
    EvaluateMoreSpec.direction_to. cbn.
  rewrite list_insert_insert_eq.
  rewrite list_lookup_insert_eq by exact Hlen. cbn.
  f_equal.
  - f_equal.
    fold (num_rows_at dir_hist i). unfold uint32.
    apply Z.mod_small. lia.
  - f_equal. fold (num_rows_at dir_hist i). fold (stride_of dir_hist).
    unfold uint32. rewrite Z.mod_small; [reflexivity |].
    unfold stride_of in *. nia.
Qed.

(** The bodies of the loop for two different points commute. *)
Lemma step_commute cam dir_hist n i j :
  well_formed dir_hist n -> 0 <= i < n -> 0 <= j < n -> i <> j ->
  step cam (step cam dir_hist i) j = step cam (step cam dir_hist j) i.
Proof.
  intros Hwf Hi Hj Hne.
  pose proof (step_well_formed norm atan2 acos bvh_tree cloud cam
                dir_hist n i Hwf) as Hwfi.
  pose proof (step_well_formed norm atan2 acos bvh_tree cloud cam
                dir_hist n j Hwf) as Hwfj.
  destruct (step_effect norm atan2 acos bvh_tree cloud cam dir_hist n i
              Hwf Hi) as [Hci _].
  destruct (step_effect norm atan2 acos bvh_tree cloud cam dir_hist n j
              Hwf Hj) as [Hcj _].
  pose proof (Hci j Hj) as Eij. pose proof (Hcj i Hi) as Eji.
  rewrite (proj2 (Z.eqb_neq j i)) in Eij by lia.
  rewrite (proj2 (Z.eqb_neq i j)) in Eji by lia.
  simpl in Eij, Eji.
  destruct (step_fields norm atan2 acos bvh_tree cloud cam dir_hist i)
    as (Emi & Epi & _).
  destruct (step_fields norm atan2 acos bvh_tree cloud cam dir_hist j)
    as (Emj & Epj & _).
  assert (appends cam (step cam dir_hist i) j = appends cam dir_hist j)
    as Aij by (unfold EvaluateMoreSpec.appends; rewrite Eij, Emi;
               reflexivity).
  assert (appends cam (step cam dir_hist j) i = appends cam dir_hist i)
    as Aji by (unfold EvaluateMoreSpec.appends; rewrite Eji, Emj;
               reflexivity).
  rewrite (step_explicit cam _ n j Hwfi Hj), Aij, Eij.
  rewrite (step_explicit cam _ n i Hwfj Hi), Aji, Eji.
  assert (stride_of (step cam dir_hist i) = stride_of dir_hist) as Si
    by (unfold stride_of; rewrite Epi; reflexivity).
  assert (stride_of (step cam dir_hist j) = stride_of dir_hist) as Sj
    by (unfold stride_of; rewrite Epj; reflexivity).
  rewrite Si, Sj, Emi, Emj, Epi, Epj.
  rewrite (step_explicit cam _ n i Hwf Hi).
  rewrite (step_explicit cam _ n j Hwf Hj).
  destruct (appends cam dir_hist i), (appends cam dir_hist j);
    try reflexivity.
  cbn. f_equal.
  - apply list_insert_insert_ne. lia.
  - apply list_insert_insert_ne.
    pose proof Hwf as (Hn & Hmax & Hprod & _ & _ & Hb).
    pose proof (num_rows_at_bounded dir_hist i ltac:(lia) Hb) as Hri.
    pose proof (num_rows_at_bounded dir_hist j ltac:(lia) Hb) as Hrj.
    intros Heq. apply Z2Nat.inj in Heq; [| nia | nia].
    assert (num_rows_at dir_hist j = num_rows_at dir_hist i) by nia.
    nia.
Qed.

Lemma fold_step_well_formed cam n (l : list Z) : forall dir_hist,
  well_formed dir_hist n ->
  well_formed (fold_left (fun dh i => step cam dh i) l dir_hist) n.
Proof.
  induction l as [| i l IH]; intros dir_hist Hwf; simpl; [exact Hwf |].
  apply IH. apply step_well_formed. exact Hwf.
Qed.

Lemma fold_step_perm cam n (l l' : list Z) :
  l ≡ₚ l' -> Forall (fun i => 0 <= i < n) l ->
  forall dir_hist, well_formed dir_hist n ->
  fold_left (fun dh i => step cam dh i) l dir_hist
  = fold_left (fun dh i => step cam dh i) l' dir_hist.
Proof.
  induction 1 as [| x l l' Hp IH | x y l | l l' l'' Hp IH Hp' IH'];
    intros Hall dir_hist Hwf.
  - reflexivity.
  - simpl. apply Forall_cons in Hall. destruct Hall as [_ Hall].
    apply IH; [exact Hall |]. apply step_well_formed. exact Hwf.
  - simpl. apply Forall_cons in Hall. destruct Hall as [Hy Hall].
    apply Forall_cons in Hall. destruct Hall as [Hx _].
    destruct (decide (y = x)) as [-> | Hne]; [reflexivity |].
    rewrite (step_commute cam dir_hist n y x Hwf Hy Hx Hne). reflexivity.
  - rewrite (IH Hall dir_hist Hwf).
    apply IH'; [| exact Hwf]. rewrite <- Hp. exact Hall.
Qed.

End Order.

(** X17.  The iterations of the loop over the points commute: run in
    any order of the indices of the points, the loop for a camera leaves
    the store it leaves in index order.  Each iteration reads and writes
    only the count and the slots of its own point. *)
Theorem points_commute norm atan2 acos bvh_tree cloud cam dir_hist order :
  well_formed dir_hist (num_vertices cloud) ->
  order ≡ₚ seqZ 0 (num_vertices cloud) ->
  fold_left (fun dh i => step norm atan2 acos bvh_tree cloud cam dh i)
            order dir_hist
  = visit_camera norm atan2 acos bvh_tree cloud dir_hist cam.
Proof.
  intros Hwf Hp. unfold visit_camera.
  apply (fold_step_perm norm atan2 acos bvh_tree cloud cam
           (num_vertices cloud) order _ Hp); [| exact Hwf].
  rewrite Hp. apply Forall_forall. intros i Hi.
  apply elem_of_seqZ in Hi. lia.
Qed.

(** The two points of the pair, the second one first. *)
Lemma points_commute_pair :
  fold_left
    (fun dh i => step Views.norm Views.atan2 Views.acos []
                      MoreViews.pair_cloud Views.camera dh i)
    [1; 0] MoreViews.pair_store
  = visit_camera Views.norm Views.atan2 Views.acos []
                 MoreViews.pair_cloud MoreViews.pair_store Views.camera.
Proof.
  apply (points_commute Views.norm Views.atan2 Views.acos []
           MoreViews.pair_cloud Views.camera MoreViews.pair_store [1; 0]).
  - unfold well_formed. repeat split;
      try (vm_compute; first [reflexivity | discriminate | lia]).
    + unfold bounded. vm_compute. repeat constructor; discriminate.
  - apply perm_swap.
Defined.

(** *** What the export reads *)

(** The factor of the exported value lies between 0 and 1. *)
Lemma export_factor_range (lambda : float) :
  (0 <= 10 * std_max 0 (std_min lambda (1 / 10)) <= 1)%Q.
Proof.
  change (1 / 10)%Q with (1 # 10)%Q.
  unfold std_max, std_min.
  destruct (ltb (1 # 10)%Q lambda) eqn:E1;
    [apply ltb_lt in E1 | apply ltb_ge in E1].
  - destruct (ltb 0%Q (1 # 10)%Q) eqn:E2;
      [apply ltb_lt in E2 | apply ltb_ge in E2]; lra.
  - destruct (ltb 0%Q lambda) eqn:E2;
      [apply ltb_lt in E2 | apply ltb_ge in E2]; lra.
Qed.

(** X18.  For a store of [max_cameras] rows whose slots are distinct
    and a point of the cloud, the export block reads its two rows inside
    the buffer; the value it attaches is the first component of the row
    before the last scaled by a factor between 0 and 1: it has the sign
    of that component, is at most as large in magnitude, and is zero when
    the last row holds two zeros. *)
Theorem export_reads_stored_rows dir_hist n i :
  well_formed dir_hist n -> max_rows dir_hist = max_cameras ->
  0 <= i < n ->
  let mean := row_at dir_hist (max_cameras - 2) i in
  let eigen := row_at dir_hist (max_cameras - 1) i in
  is_Some (data_ptr dir_hist
             !! Z.to_nat (slot dir_hist (max_cameras - 2) i))
  /\ is_Some (data_ptr dir_hist
                !! Z.to_nat (slot dir_hist (max_cameras - 1) i))
  /\ (Qabs (export_value dir_hist i) <= Qabs (d0 mean))%Q
  /\ (0 <= export_value dir_hist i * d0 mean)%Q
  /\ ((d0 eigen == 0)%Q -> (d1 eigen == 0)%Q ->
      (export_value dir_hist i == 0)%Q).
Proof.
  intros Hwf Hmax Hi mean eigen.
  assert (0 <= max_cameras - 2 < max_rows dir_hist) as H18
    by (rewrite Hmax; unfold max_cameras; lia).
  assert (0 <= max_cameras - 1 < max_rows dir_hist) as H19
    by (rewrite Hmax; unfold max_cameras; lia).
  destruct (slot_in_buffer dir_hist n _ i Hwf H18 Hi) as [_ L18].
  destruct (slot_in_buffer dir_hist n _ i Hwf H19 Hi) as [_ L19].
  split; [apply lookup_lt_is_Some_2; exact L18 |].
  split; [apply lookup_lt_is_Some_2; exact L19 |].
  change (export_value dir_hist i)
    with (d0 mean * (10 * std_max 0 (std_min
            (std_max (std_abs (d0 eigen)) (std_abs (d1 eigen)))
            (1 / 10))))%Q.
  set (lambda := std_max (std_abs (d0 eigen)) (std_abs (d1 eigen))).
  pose proof (export_factor_range lambda) as [F0 F1].
  set (f := (10 * std_max 0 (std_min lambda (1 / 10)))%Q) in *.
  split; [| split].
  - rewrite Qabs_Qmult. rewrite (Qabs_pos f) by exact F0.
    pose proof (Qabs_nonneg (d0 mean)). nra.
  - assert (d0 mean * f * d0 mean == f * (d0 mean * d0 mean))%Q as ->
      by ring.
    assert (0 <= d0 mean * d0 mean)%Q by nra. nra.
  - intros E0 E1.
    assert (lambda == 0)%Q as Hl.
    { unfold lambda, std_max, std_abs.
      destruct (ltb _ _); [rewrite E1 | rewrite E0]; reflexivity. }
    assert (f == 0)%Q as Hf.
    { unfold f. change (1 / 10)%Q with (1 # 10)%Q.
      unfold std_max, std_min.
      destruct (ltb (1 # 10)%Q lambda) eqn:A;
        [apply ltb_lt in A; lra |].
      destruct (ltb 0%Q lambda) eqn:B; [apply ltb_lt in B; lra | lra]. }
    rewrite Hf. ring.
Qed.

(** The store of the views after the reduction. *)
Lemma export_reads_stored_rows_view :
  (Qabs (export_value Views.reduced_store 0)
   <= Qabs (d0 (row_at Views.reduced_store (max_cameras - 2) 0)))%Q.
Proof.
  destruct (export_reads_stored_rows Views.reduced_store 1 0)
    as (_ & _ & Hle & _).
  - unfold well_formed. repeat split;
      try (vm_compute; first [reflexivity | discriminate | lia]).
    + unfold bounded. vm_compute. repeat constructor; discriminate.
  - reflexivity.
  - vm_compute. split; [discriminate | reflexivity].
  - exact Hle.
Defined.

End EvaluateMore.
